(** * The router's function reference resolver

    A shallow embedding of [functionReferenceResolver] (package [router])
    and of the properties its specification states about it.

    The resolver turns the function reference of an HTTP trigger into a
    [resolveResult], looking functions up in the per-namespace informer
    stores and keeping the results in an expiring cache.  The Go code works
    on shared, mutable objects (maps, slices, the cache); they live here in
    an explicit [world] that every operation threads through. *)

From stdpp Require Import gmap strings list fin_maps.
From Stdlib Require Import ZArith Lia.

Local Open Scope Z_scope.

(** ** Go's [int] *)

(** [int] is taken to be 64 bits wide, as on the platforms the router is
    built for; [sumPrefix + functionWeight] wraps around in two's
    complement. *)
Definition int_bits : Z := 64.
Definition int_min : Z := - 2 ^ (int_bits - 1).
Definition int_max : Z := 2 ^ (int_bits - 1) - 1.

Definition is_int (z : Z) : Prop := int_min ≤ z ≤ int_max.

Definition int_wrap (z : Z) : Z :=
  (z + 2 ^ (int_bits - 1)) `mod` 2 ^ int_bits - 2 ^ (int_bits - 1).

Definition int_add (a b : Z) : Z := int_wrap (a + b).

Global Arguments int_wrap : simpl never.
Global Arguments int_add : simpl never.

(** ** The API objects (package [fv1]) the resolver reads *)

Module fv1.

(** [metav1.ObjectMeta], as far as the resolver reads it. *)
Record ObjectMeta := {
  Namespace : string;
  Name : string;
  ResourceVersion : string;
}.

(** Modelled from the spec: the declaration of [Function] is not part of
    the sources at hand.  A function object is what the Function Store
    holds under a namespace and a name; the resolver only reads its
    metadata, and the rest of the object is kept as an opaque payload. *)
Record Function := {
  fn_ObjectMeta : ObjectMeta;
  fn_Spec : string;
}.

(** Modelled from the spec: the declaration of the reference kinds is not
    part of the sources at hand.  A trigger's function reference is
    discriminated as by-name or by-weights; any other kind is one the
    resolver does not recognize. *)
Inductive FunctionReferenceType :=
| FunctionReferenceTypeFunctionName
| FunctionReferenceTypeFunctionWeights
| FunctionReferenceTypeOther (kind : string).

(** Modelled from the spec: the declaration of [FunctionReference] is not
    part of the sources at hand.  By-weights references carry a mapping
    of function name to integer weight; the resolver walks it with a
    two-variable [range] that yields a string key and an [int] value,
    which is Go's iteration over a map. *)
Record FunctionReference := {
  fr_Type : FunctionReferenceType;
  fr_Name : string;
  fr_FunctionWeights : gmap string Z;
}.

(** Modelled from the spec: the declaration of [HTTPTrigger] is not part
    of the sources at hand.  A trigger exposes its namespace, name and
    version token (the metadata) and a function reference. *)
Record HTTPTrigger := {
  tr_ObjectMeta : ObjectMeta;
  tr_FunctionReference : FunctionReference;   (* Spec.FunctionReference *)
}.

End fv1.

Import fv1.

Global Instance ObjectMeta_eq_dec : EqDecision ObjectMeta.
Proof. solve_decision. Defined.
Global Instance Function_eq_dec : EqDecision Function.
Proof. solve_decision. Defined.

(** ** The informer stores (package [k8sCache]) *)

(** What [Store.Get] hands back: [(obj, true, nil)], [(nil, false, nil)] or
    an error. *)
Inductive GetResult :=
| GetFound (f : Function)
| GetMissing
| GetError (e : string).

(** The [Store] interface, reduced to the one method the resolver calls.
    [Get] receives an object carrying the metadata to look for. *)
Record Store := { Get : Function → GetResult }.

(** The stores of the informers index the objects by their own namespace
    and name: what [Get] finds carries the metadata that was asked for. *)
Definition store_keyed (s : Store) : Prop :=
  ∀ q f, Get s q = GetFound f →
    Namespace (fn_ObjectMeta f) = Namespace (fn_ObjectMeta q) ∧
    Name (fn_ObjectMeta f) = Name (fn_ObjectMeta q).

Definition same_key (q f : Function) : bool :=
  bool_decide (Namespace (fn_ObjectMeta f) = Namespace (fn_ObjectMeta q)) &&
  bool_decide (Name (fn_ObjectMeta f) = Name (fn_ObjectMeta q)).

(** A store holding the given objects, as the informers build them: never
    failing, and indexed by namespace and name. *)
Definition store_of (objs : list Function) : Store :=
  {| Get q := match List.find (same_key q) objs with
              | Some f => GetFound f
              | None => GetMissing
              end |}.

(** A store whose lookups fail. *)
Definition store_failing (e : string) : Store := {| Get _ := GetError e |}.

(** ** The expiring cache (package [cache]) *)

Module cache.
Section cache.
Context {K V : Type} `{Countable K}.

(** Modelled from the spec: a stored value, with the time it was set. *)
Record Value := { value : V; ctime : Z }.

(** Modelled from the spec: the package [cache] is not part of the
    sources at hand.  The cache is a generic expiring key/value store:
    every entry has a fixed time-to-live from the cache's configuration,
    applied at insertion time. *)
Record Cache := {
  entries : gmap K Value;
  ctimeExpiry : Z;
  atimeExpiry : Z;
}.

(** Modelled from the spec: [MakeCache] is missing; a new cache is empty
    and keeps its configuration. *)
Definition MakeCache (ctimeExpiry atimeExpiry : Z) : Cache :=
  {| entries := ∅; ctimeExpiry := ctimeExpiry; atimeExpiry := atimeExpiry |}.

(** Modelled from the spec: an entry expires once its time-to-live,
    measured from the time it was set, has elapsed. *)
Definition live (c : Cache) (now : Z) (e : Value) : bool :=
  bool_decide (now - ctime e < ctimeExpiry c).

(** Modelled from the spec: [Get] is missing.  get(key) gives the value
    and whether it was found; get on an expired entry that was not purged
    yet behaves as a miss.  [None] stands for a non-nil error. *)
Definition Get (c : Cache) (now : Z) (k : K) : option V :=
  match entries c !! k with
  | Some e => if live c now e then Some (value e) else None
  | None => None
  end.

(** Modelled from the spec: [Set] is missing.  set(key, value) replaces
    or inserts; the time-to-live starts at insertion time.  ([Set] is
    reserved, hence the underscore.) *)
Definition Set_ (c : Cache) (now : Z) (k : K) (v : V) : Cache :=
  {| entries := <[k := {| value := v; ctime := now |}]> (entries c);
     ctimeExpiry := ctimeExpiry c; atimeExpiry := atimeExpiry c |}.

(** Modelled from the spec: [Delete] is missing.  delete(key) removes the
    entry if present and is a no-op, not an error, otherwise: the error
    it returns is always nil and is left out. *)
Definition Delete (c : Cache) (k : K) : Cache :=
  {| entries := delete k (entries c);
     ctimeExpiry := ctimeExpiry c; atimeExpiry := atimeExpiry c |}.

(** Modelled from the spec: [Copy] is missing.  snapshot() gives a copy
    of all live entries.  The cache is generic in its value type, so the
    copy holds the stored values as they are. *)
Definition Copy (c : Cache) (now : Z) : gmap K V :=
  value <$> filter (λ kv, live c now kv.2 = true) (entries c).

End cache.
Global Arguments Value : clear implicits.
Global Arguments Cache _ _ {_ _}.
End cache.

(** [time.Minute], in nanoseconds. *)
Definition time_Minute : Z := 60000000000.

(** ** The resolver's types *)

Definition resolveResultType := Z.

Record functionWeightDistribution := {
  name : string;
  weight : Z;
  sumPrefix : Z;
}.

(** Addresses of the Go maps and of the backing arrays of the Go slices. *)
Abbreviation loc := Z (only parsing).

(** [resolveResult] is a struct of a tag, a map and a slice.  Copying the
    struct copies the tag and the two references; the map and the backing
    array of the slice are not copied.  A nil slice is [None]. *)
Record resolveResult := {
  rr_resolveResultType : resolveResultType;
  functionMap : loc;
  functionWtDistributionList : option loc;
}.

Record namespacedTriggerReference := {
  namespace : string;
  triggerName : string;
  triggerResourceVersion : string;
}.

Definition resolveResultSingleFunction : resolveResultType := 0.
Definition resolveResultMultipleFunctions : resolveResultType := 1.

Global Instance functionWeightDistribution_eq_dec :
  EqDecision functionWeightDistribution.
Proof. solve_decision. Defined.
Global Instance resolveResult_eq_dec : EqDecision resolveResult.
Proof. solve_decision. Defined.
Global Instance namespacedTriggerReference_eq_dec :
  EqDecision namespacedTriggerReference.
Proof. solve_decision. Defined.

Global Instance namespacedTriggerReference_countable :
  Countable namespacedTriggerReference.
Proof.
  refine (inj_countable'
    (λ k, (namespace k, triggerName k, triggerResourceVersion k))
    (λ t, {| namespace := t.1.1; triggerName := t.1.2;
             triggerResourceVersion := t.2 |}) _).
  by intros [].
Defined.

(** The errors the resolver returns, one constructor per [fmt.Errorf] and
    one for an error handed back by a store. *)
Inductive error :=
| ErrUnrecognizedType (t : FunctionReferenceType)
    (* "unrecognized function reference type %v" *)
| ErrInformerNotFound (ns : string)
    (* "informer for namespace %s not found" *)
| ErrFunctionNotExist (ns fn : string)
    (* "function %s/%s does not exist" *)
| ErrStore (e : string).

(** ** The world the resolver runs in *)

(** The Go heap, as far as the resolver allocates in it: map objects and
    backing arrays of slices. *)
Record heap := {
  h_maps : gmap loc (gmap string Function);
  h_slices : gmap loc (list functionWeightDistribution);
  h_next : loc;
}.

(** What the resolver does to its collaborators: the lookups it sends to
    the stores and the lines it logs. *)
Inductive event :=
| EvStoreGet (ns fn : string)
| EvLogError (msg fn ns : string).

(** The mutable part of a [functionReferenceResolver]: its [refCache], the
    heap its results point into, and the trace of its effects, latest
    event last.  The [funcInformer] table is passed to the methods. *)
Record world := {
  w_heap : heap;
  refCache : cache.Cache namespacedTriggerReference resolveResult;
  w_trace : list event;
}.

Definition set_heap (h : heap) (w : world) : world :=
  {| w_heap := h; refCache := refCache w; w_trace := w_trace w |}.
Definition set_refCache c (w : world) : world :=
  {| w_heap := w_heap w; refCache := c; w_trace := w_trace w |}.
Definition emit (e : event) (w : world) : world :=
  {| w_heap := w_heap w; refCache := refCache w;
     w_trace := w_trace w ++ [e] |}.

(** *** A state and error monad *)

Inductive res (A : Type) :=
| Ok (a : A)
| Err (e : error).
Global Arguments Ok {A} a.
Global Arguments Err {A} e.

Definition M (A : Type) : Type := world → res A * world.

Definition ret {A} (a : A) : M A := λ w, (Ok a, w).
Definition fail {A} (e : error) : M A := λ w, (Err e, w).
Definition bind {A B} (c : M A) (k : A → M B) : M B :=
  λ w, match c w with
       | (Ok a, w') => k a w'
       | (Err e, w') => (Err e, w')
       end.
Definition modify (f : world → world) : M unit := λ w, (Ok tt, f w).
Definition gets {A} (f : world → A) : M A := λ w, (Ok (f w), w).

Notation "'do' x <- c ; k" := (bind c (λ x, k))
  (at level 10, x name, c at level 100, k at level 200).
Notation "c ;; k" := (bind c (λ _, k))
  (at level 100, k at level 200, right associativity).

(** *** Go's maps and slices on the heap *)

(** [make(map[string]*fv1.Function)] *)
Definition heap_map_make (h : heap) : loc * heap :=
  (h_next h, {| h_maps := <[h_next h := ∅]> (h_maps h);
                h_slices := h_slices h; h_next := h_next h + 1 |}).

(** [m[k] = v] *)
Definition heap_map_assign (m : loc) (k : string) (v : Function) (h : heap)
  : heap :=
  {| h_maps := <[m := <[k := v]> (default ∅ (h_maps h !! m))]> (h_maps h);
     h_slices := h_slices h; h_next := h_next h |}.

(** [make([]functionWeightDistribution, 0)] *)
Definition heap_slice_make (h : heap) : loc * heap :=
  (h_next h, {| h_maps := h_maps h;
                h_slices := <[h_next h := []]> (h_slices h);
                h_next := h_next h + 1 |}).

(** [s = append(s, x)], for a slice that nothing else refers to: whether Go
    grows the array in place or moves it cannot be observed then, and the
    slice keeps its address. *)
Definition heap_slice_append (s : loc) (x : functionWeightDistribution)
    (h : heap) : heap :=
  {| h_maps := h_maps h;
     h_slices := <[s := default [] (h_slices h !! s) ++ [x]]> (h_slices h);
     h_next := h_next h |}.

(** [s[i] = x]; out of range Go panics, which is [None]. *)
Definition heap_slice_store (s : loc) (i : nat)
    (x : functionWeightDistribution) (h : heap) : option heap :=
  let a := default [] (h_slices h !! s) in
  if decide (i < length a)%nat then
    Some {| h_maps := h_maps h; h_slices := <[s := <[i := x]> a]> (h_slices h);
            h_next := h_next h |}
  else None.

Definition map_make : M loc :=
  λ w, let '(l, h) := heap_map_make (w_heap w) in (Ok l, set_heap h w).
Definition map_assign (m : loc) (k : string) (v : Function) : M unit :=
  modify (λ w, set_heap (heap_map_assign m k v (w_heap w)) w).
Definition slice_make : M loc :=
  λ w, let '(l, h) := heap_slice_make (w_heap w) in (Ok l, set_heap h w).
Definition slice_append (s : loc) (x : functionWeightDistribution) : M unit :=
  modify (λ w, set_heap (heap_slice_append s x (w_heap w)) w).

(** What a result holds, read off the heap. *)
Definition functionMap_of (h : heap) (rr : resolveResult)
  : gmap string Function :=
  default ∅ (h_maps h !! functionMap rr).

Definition functionWtDistributionList_of (h : heap) (rr : resolveResult)
  : list functionWeightDistribution :=
  match functionWtDistributionList rr with
  | Some s => default [] (h_slices h !! s)
  | None => []
  end.

(** ** The resolver *)

(** [makeFunctionReferenceResolver]: a resolver starts with an empty cache
    whose entries live for a minute. *)
Definition makeFunctionReferenceResolver : world :=
  {| w_heap := {| h_maps := ∅; h_slices := ∅; h_next := 0 |};
     refCache := cache.MakeCache time_Minute 0;
     w_trace := [] |}.

(** The key a trigger is cached under. *)
Definition nfr_of (trigger : HTTPTrigger) : namespacedTriggerReference :=
  {| namespace := Namespace (tr_ObjectMeta trigger);
     triggerName := Name (tr_ObjectMeta trigger);
     triggerResourceVersion := ResourceVersion (tr_ObjectMeta trigger) |}.

(** [&fv1.Function{ObjectMeta: metav1.ObjectMeta{Namespace: ..., Name: ...}}] *)
Definition query (namespace fn : string) : Function :=
  {| fn_ObjectMeta := {| Namespace := namespace; Name := fn;
                         ResourceVersion := "" |};
     fn_Spec := "" |}.

(** The sequences a [range] over a Go map may yield: every entry once, in
    an order that the language leaves open and that may differ from one
    loop to the next. *)
Definition map_range (m : gmap string Z) (it : list (string * Z)) : Prop :=
  it ≡ₚ map_to_list m.

(** The methods of [functionReferenceResolver], under the name of their
    receiver. *)
Module frr.

Definition getInformerByNamespace (funcInformer : gmap string Store)
    (namespace : string) : M Store :=
  match funcInformer !! namespace with
  | Some informer => ret informer
  | None => fail (ErrInformerNotFound namespace)
  end.

(** [informer.GetStore().Get(...)]: one lookup sent to the store. *)
Definition store_Get (informer : Store) (namespace fn : string)
  : M GetResult :=
  modify (emit (EvStoreGet namespace fn)) ;;
  ret (Get informer (query namespace fn)).

Definition logger_Error (msg fn namespace : string) : M unit :=
  modify (emit (EvLogError msg fn namespace)).

(** [resolveByName] simply looks up function by name in a namespace. *)
Definition resolveByName (funcInformer : gmap string Store)
    (namespace fn : string) : M resolveResult :=
  do informer <- getInformerByNamespace funcInformer namespace;
  do got <- store_Get informer namespace fn;
  match got with
  | GetError e => fail (ErrStore e)
  | GetMissing =>
      logger_Error "function does not exists" fn namespace ;;
      fail (ErrFunctionNotExist namespace fn)
  | GetFound f =>
      do functionMap <- map_make;
      map_assign functionMap (Name (fn_ObjectMeta f)) f ;;
      ret {| rr_resolveResultType := resolveResultSingleFunction;
             functionMap := functionMap;
             functionWtDistributionList := None |}
  end.

(** The loop of [resolveByFunctionWeights], over the sequence [it] that
    [range fr.FunctionWeights] yields. *)
Fixpoint resolveByFunctionWeights_loop (funcInformer : gmap string Store)
    (namespace : string) (functionMap fnWtDistrList : loc) (sumPrefix : Z)
    (it : list (string * Z)) : M unit :=
  match it with
  | [] => ret tt
  | (functionName, functionWeight) :: it' =>
      do informer <- getInformerByNamespace funcInformer namespace;
      do got <- store_Get informer namespace functionName;
      match got with
      | GetError e => fail (ErrStore e)
      | GetMissing =>
          logger_Error "function does not exists" functionName namespace ;;
          fail (ErrFunctionNotExist namespace functionName)
      | GetFound f =>
          map_assign functionMap (Name (fn_ObjectMeta f)) f ;;
          let sumPrefix := int_add sumPrefix functionWeight in
          slice_append fnWtDistrList
            {| name := functionName; weight := functionWeight;
               sumPrefix := sumPrefix |} ;;
          resolveByFunctionWeights_loop funcInformer namespace
            functionMap fnWtDistrList sumPrefix it'
      end
  end.

Definition resolveByFunctionWeights (funcInformer : gmap string Store)
    (namespace : string) (it : list (string * Z)) : M resolveResult :=
  do functionMap <- map_make;
  do fnWtDistrList <- slice_make;
  resolveByFunctionWeights_loop funcInformer namespace
    functionMap fnWtDistrList 0 it ;;
  ret {| rr_resolveResultType := resolveResultMultipleFunctions;
         functionMap := functionMap;
         functionWtDistributionList := Some fnWtDistrList |}.

(** [resolve] translates a trigger's function reference to a
    [resolveResult].  [now] is the time of the call and [it] the sequence
    that the [range] over the trigger's weights yields in this call.  The
    pointer returned stands for a struct of its own; the struct is what is
    returned here. *)
Definition resolve (funcInformer : gmap string Store) (now : Z)
    (it : list (string * Z)) (trigger : HTTPTrigger) : M resolveResult :=
  let nfr := nfr_of trigger in
  (* check cache *)
  do cached <- gets (λ w, cache.Get (refCache w) now nfr);
  match cached with
  | Some result => ret result
  | None =>
      (* resolve on cache miss *)
      do rr <-
        match fr_Type (tr_FunctionReference trigger) with
        | FunctionReferenceTypeFunctionName =>
            resolveByName funcInformer (namespace nfr)
              (fr_Name (tr_FunctionReference trigger))
        | FunctionReferenceTypeFunctionWeights =>
            resolveByFunctionWeights funcInformer (namespace nfr) it
        | t => fail (ErrUnrecognizedType t)
        end;
      (* cache resolve result *)
      modify (λ w, set_refCache (cache.Set_ (refCache w) now nfr rr) w) ;;
      ret rr
  end.

(** [delete]; the error of the cache's [Delete], always nil, is left out. *)
Definition delete (namespace triggerName triggerRV : string) : M unit :=
  let nfr := {| namespace := namespace; triggerName := triggerName;
                triggerResourceVersion := triggerRV |} in
  modify (λ w, set_refCache (cache.Delete (refCache w) nfr) w).

(** [copy]: the map returned is a Go map of its own, a value here. *)
Definition copy (now : Z)
  : M (gmap namespacedTriggerReference resolveResult) :=
  gets (λ w, cache.Copy (refCache w) now).

End frr.

(** ** The weighted distribution, as the specification words it *)

Definition sum_weights (ws : list Z) : Z := foldr Z.add 0 ws.

(** An entry per pair, in the order given, each with the cumulative sum of
    the weights up to and including its own; [acc] is the sum of the
    weights before [it].  The sums are held in an [int]. *)
Fixpoint distribution_from (acc : Z) (it : list (string * Z))
  : list functionWeightDistribution :=
  match it with
  | [] => []
  | (fn, w) :: it' =>
      {| name := fn; weight := w; sumPrefix := int_wrap (acc + w) |}
        :: distribution_from (acc + w) it'
  end.

Definition weighted_distribution (it : list (string * Z))
  : list functionWeightDistribution :=
  distribution_from 0 it.

(** Non-decreasing prefix sums, entry after entry. *)
Definition prefix_sums_non_decreasing
    (d : list functionWeightDistribution) : Prop :=
  ∀ i a b, d !! i = Some a → d !! S i = Some b → sumPrefix a ≤ sumPrefix b.

(** Strictly increasing wherever the weight of the later entry is
    positive. *)
Definition prefix_sums_increase_on_positive
    (d : list functionWeightDistribution) : Prop :=
  ∀ i a b, d !! i = Some a → d !! S i = Some b → 0 < weight b →
    sumPrefix a < sumPrefix b.


(** ** Vocabulary for the statements *)

(** The store of [namespace] holds the function [fn]. *)
Definition function_found (funcInformer : gmap string Store)
    (namespace fn : string) (f : Function) : Prop :=
  ∃ s, funcInformer !! namespace = Some s ∧
       Get s (query namespace fn) = GetFound f.

Definition function_exists (funcInformer : gmap string Store)
    (namespace fn : string) : Prop :=
  ∃ f, function_found funcInformer namespace fn f.

(** The store of [namespace] answers, and does not hold [fn]. *)
Definition function_absent (funcInformer : gmap string Store)
    (namespace fn : string) : Prop :=
  ∃ s, funcInformer !! namespace = Some s ∧
       Get s (query namespace fn) = GetMissing.

(** The lookup of [fn] in the store of [namespace] fails with [e]. *)
Definition store_fails (funcInformer : gmap string Store)
    (namespace fn : string) (e : string) : Prop :=
  ∃ s, funcInformer !! namespace = Some s ∧
       Get s (query namespace fn) = GetError e.

Definition informers_keyed (funcInformer : gmap string Store) : Prop :=
  ∀ ns s, funcInformer !! ns = Some s → store_keyed s.

(** The function map that the loop of [resolveByFunctionWeights] builds on
    top of [m]: every function found, under the name of the object. *)
Fixpoint collect_functions (funcInformer : gmap string Store)
    (namespace : string) (m : gmap string Function)
    (it : list (string * Z)) : gmap string Function :=
  match it with
  | [] => m
  | (fn, _) :: it' =>
      match funcInformer !! namespace with
      | Some s =>
          match Get s (query namespace fn) with
          | GetFound f =>
              collect_functions funcInformer namespace
                (<[Name (fn_ObjectMeta f) := f]> m) it'
          | _ => m
          end
      | None => m
      end
  end.

(** Why the loop of [resolveByFunctionWeights] over [it] gave the error
    [e], having emitted the events [evs]. *)
Definition loop_error_explained (funcInformer : gmap string Store)
    (namespace : string) (it : list (string * Z)) (evs : list event)
    (e : error) : Prop :=
  (e = ErrInformerNotFound namespace ∧ funcInformer !! namespace = None ∧
   it ≠ [] ∧ evs = []) ∨
  (∃ fn, fn ∈ it.*1 ∧ e = ErrFunctionNotExist namespace fn ∧
     function_absent funcInformer namespace fn ∧
     EvStoreGet namespace fn ∈ evs) ∨
  (∃ fn x, fn ∈ it.*1 ∧ e = ErrStore x ∧
     store_fails funcInformer namespace fn x ∧
     EvStoreGet namespace fn ∈ evs).

(** Every address in use lies below the next one to be handed out. *)
Definition heap_ok (h : heap) : Prop :=
  (∀ l, is_Some (h_maps h !! l) → l < h_next h) ∧
  (∀ l, is_Some (h_slices h !! l) → l < h_next h).

(** [h'] has everything [h] had, untouched, and maybe more. *)
Definition heap_extends (h h' : heap) : Prop :=
  h_next h ≤ h_next h' ∧
  (∀ l, l < h_next h → h_maps h' !! l = h_maps h !! l) ∧
  (∀ l, l < h_next h → h_slices h' !! l = h_slices h !! l).

(** The map and the slice of a result are on the heap. *)
Definition allocated (h : heap) (rr : resolveResult) : Prop :=
  is_Some (h_maps h !! functionMap rr) ∧
  ∀ s, functionWtDistributionList rr = Some s → is_Some (h_slices h !! s).

(** The store lookups among the events, in order. *)
Definition lookups_of (evs : list event) : list (string * string) :=
  omap (λ e, match e with
             | EvStoreGet ns fn => Some (ns, fn)
             | EvLogError _ _ _ => None
             end) evs.

(** The switch of [resolve], taken on a cache miss. *)
Definition on_miss (funcInformer : gmap string Store)
    (it : list (string * Z)) (trigger : HTTPTrigger) : M resolveResult :=
  match fr_Type (tr_FunctionReference trigger) with
  | FunctionReferenceTypeFunctionName =>
      frr.resolveByName funcInformer (namespace (nfr_of trigger))
        (fr_Name (tr_FunctionReference trigger))
  | FunctionReferenceTypeFunctionWeights =>
      frr.resolveByFunctionWeights funcInformer (namespace (nfr_of trigger)) it
  | t => fail (ErrUnrecognizedType t)
  end.

(** The names of the functions a reference refers to. *)
Definition referenced (fr : FunctionReference) : list string :=
  match fr_Type fr with
  | FunctionReferenceTypeFunctionName => [fr_Name fr]
  | FunctionReferenceTypeFunctionWeights => (map_to_list (fr_FunctionWeights fr)).*1
  | FunctionReferenceTypeOther _ => []
  end.

(** Why resolving [trigger] gave the error [e], having emitted [evs]. *)
Definition resolve_error_explained (funcInformer : gmap string Store)
    (trigger : HTTPTrigger) (evs : list event) (e : error) : Prop :=
  let ns := Namespace (tr_ObjectMeta trigger) in
  let fr := tr_FunctionReference trigger in
  (∃ kind, fr_Type fr = FunctionReferenceTypeOther kind ∧
     e = ErrUnrecognizedType (FunctionReferenceTypeOther kind) ∧ evs = []) ∨
  (e = ErrInformerNotFound ns ∧ funcInformer !! ns = None ∧
     referenced fr ≠ [] ∧ evs = []) ∨
  (∃ fn, fn ∈ referenced fr ∧ e = ErrFunctionNotExist ns fn ∧
     function_absent funcInformer ns fn ∧ EvStoreGet ns fn ∈ evs) ∨
  (∃ fn x, fn ∈ referenced fr ∧ e = ErrStore x ∧
     store_fails funcInformer ns fn x ∧ EvStoreGet ns fn ∈ evs).

(** Where the distribution list of a result is not empty, the names of the
    function map are the names of the list. *)
Definition keys_match (h : heap) (rr : resolveResult) : Prop :=
  functionWtDistributionList_of h rr ≠ [] →
  dom (functionMap_of h rr) =
  list_to_set (name <$> functionWtDistributionList_of h rr).

(** A result as the resolver builds it for the reference [fr]: the tag of
    the kind; for a single function no list and a map of one entry under
    the referenced name; for weights a list with an entry per declared
    pair, in one of the orders a [range] can take, and a map with the
    declared names. *)
Definition built_for (h : heap) (fr : FunctionReference) (rr : resolveResult)
  : Prop :=
  match fr_Type fr with
  | FunctionReferenceTypeFunctionName =>
      rr_resolveResultType rr = resolveResultSingleFunction ∧
      functionWtDistributionList_of h rr = [] ∧
      ∃ f, Name (fn_ObjectMeta f) = fr_Name fr ∧
           functionMap_of h rr = {[fr_Name fr := f]}
  | FunctionReferenceTypeFunctionWeights =>
      rr_resolveResultType rr = resolveResultMultipleFunctions ∧
      (∃ it, map_range (fr_FunctionWeights fr) it ∧
             functionWtDistributionList_of h rr = weighted_distribution it) ∧
      dom (functionMap_of h rr) = dom (fr_FunctionWeights fr)
  | FunctionReferenceTypeOther _ => False
  end.

(** The worlds the resolver keeps itself in: a heap in order, and a cache
    whose results are on that heap, with matching names. *)
Definition world_ok (w : world) : Prop :=
  heap_ok (w_heap w) ∧
  ∀ k e, cache.entries (refCache w) !! k = Some e →
    allocated (w_heap w) (cache.value e) ∧
    keys_match (w_heap w) (cache.value e).

(** The cache holds, under every key, a result built for the reference
    that [spec_of] gives for the key. *)
Definition cache_built
    (spec_of : namespacedTriggerReference → FunctionReference) (w : world)
  : Prop :=
  ∀ k e, cache.entries (refCache w) !! k = Some e →
    built_for (w_heap w) (spec_of k) (cache.value e).

(** A trigger whose function reference is the one [spec_of] gives for its
    key.  With all triggers so, the key of a trigger, version token
    included, determines what the trigger refers to. *)
Definition declares
    (spec_of : namespacedTriggerReference → FunctionReference)
    (trigger : HTTPTrigger) : Prop :=
  tr_FunctionReference trigger = spec_of (nfr_of trigger).

(** The worlds a resolver gets to from its creation by its own methods,
    called with triggers that [P] admits, over stores that index the
    objects by their metadata.  Writes of callers through the references
    they are handed are not among these steps. *)
Inductive reachable (P : HTTPTrigger → Prop) : world → Prop :=
| reach_make : reachable P makeFunctionReferenceResolver
| reach_resolve funcInformer now it trigger w :
    reachable P w →
    informers_keyed funcInformer →
    map_range (fr_FunctionWeights (tr_FunctionReference trigger)) it →
    P trigger →
    reachable P (frr.resolve funcInformer now it trigger w).2
| reach_delete ns tn rv w :
    reachable P w → reachable P (frr.delete ns tn rv w).2
| reach_copy now w :
    reachable P w → reachable P (frr.copy now w).2.

(** ** The scenarios of the specification *)

Definition function_object (ns fn code : string) : Function :=
  {| fn_ObjectMeta := {| Namespace := ns; Name := fn; ResourceVersion := "1" |};
     fn_Spec := code |}.

Definition trigger_by_name (ns tn rv fn : string) : HTTPTrigger :=
  {| tr_ObjectMeta := {| Namespace := ns; Name := tn; ResourceVersion := rv |};
     tr_FunctionReference :=
       {| fr_Type := FunctionReferenceTypeFunctionName; fr_Name := fn;
          fr_FunctionWeights := ∅ |} |}.

Definition trigger_by_weights (ns tn rv : string) (weights : gmap string Z)
  : HTTPTrigger :=
  {| tr_ObjectMeta := {| Namespace := ns; Name := tn; ResourceVersion := rv |};
     tr_FunctionReference :=
       {| fr_Type := FunctionReferenceTypeFunctionWeights; fr_Name := "";
          fr_FunctionWeights := weights |} |}.

(** The namespace "default", with a store of the given objects. *)
Definition informers_of (objs : list Function) : gmap string Store :=
  {["default"%string := store_of objs]}.

Definition scenario_store : gmap string Store :=
  informers_of [function_object "default" "f1" "code";
                function_object "default" "fA" "code";
                function_object "default" "fB" "code"].

Definition scenario_t1 : HTTPTrigger :=
  trigger_by_name "default" "t1" "v1" "f1".

Definition scenario_t2 : HTTPTrigger :=
  trigger_by_weights "default" "t2" "v1"
    {["fA"%string := 70; "fB"%string := 30]}.

Definition entry (fn : string) (w s : Z) : functionWeightDistribution :=
  {| name := fn; weight := w; sumPrefix := s |}.

(** Every entry carries the sum of the weights up to and including its
    own. *)
Definition cumulative (d : list functionWeightDistribution) : Prop :=
  ∀ i e, d !! i = Some e →
    sumPrefix e = sum_weights (take (S i) (weight <$> d)).

(** [kept k deadline w1 w2]: the resolver gets from [w1] to [w2] by calls
    of its methods none of which deletes the key [k], its calls of
    [resolve] being made no later than [deadline]. *)
Inductive kept (k : namespacedTriggerReference) (deadline : Z)
  : world → world → Prop :=
| kept_refl w : kept k deadline w w
| kept_resolve funcInformer now it trigger w1 w :
    kept k deadline w1 w →
    informers_keyed funcInformer →
    map_range (fr_FunctionWeights (tr_FunctionReference trigger)) it →
    now ≤ deadline →
    kept k deadline w1 (frr.resolve funcInformer now it trigger w).2
| kept_delete ns tn rv w1 w :
    kept k deadline w1 w →
    {| namespace := ns; triggerName := tn; triggerResourceVersion := rv |} ≠ k →
    kept k deadline w1 (frr.delete ns tn rv w).2
| kept_copy now w1 w :
    kept k deadline w1 w → kept k deadline w1 (frr.copy now w).2.

(** When [resolve] is said to return an error: the kind of the reference
    is not recognized, no store is registered for the namespace, or a
    referenced function is absent from the store. *)
Definition stated_error_condition (funcInformer : gmap string Store)
    (trigger : HTTPTrigger) : Prop :=
  let ns := Namespace (tr_ObjectMeta trigger) in
  let fr := tr_FunctionReference trigger in
  (∃ kind, fr_Type fr = FunctionReferenceTypeOther kind) ∨
  funcInformer !! ns = None ∨
  (∃ fn, fn ∈ referenced fr ∧ function_absent funcInformer ns fn).

(** When [resolve] does return an error, on a cache miss: the kind is not
    recognized, a function is to be looked up and no store is registered
    for the namespace, a referenced function is absent from the store, or
    the store fails on a referenced function. *)
Definition error_condition (funcInformer : gmap string Store)
    (trigger : HTTPTrigger) : Prop :=
  let ns := Namespace (tr_ObjectMeta trigger) in
  let fr := tr_FunctionReference trigger in
  (∃ kind, fr_Type fr = FunctionReferenceTypeOther kind) ∨
  (referenced fr ≠ [] ∧ funcInformer !! ns = None) ∨
  (∃ fn, fn ∈ referenced fr ∧ function_absent funcInformer ns fn) ∨
  (∃ fn x, fn ∈ referenced fr ∧ store_fails funcInformer ns fn x).

(** ** Vocabulary for the further properties *)

(** [steps w1 w2]: the resolver gets from [w1] to [w2] by calls of its
    methods, whatever they are called with. *)
Inductive steps : world → world → Prop :=
| steps_refl w : steps w w
| steps_resolve funcInformer now it trigger w1 w :
    steps w1 w → steps w1 (frr.resolve funcInformer now it trigger w).2
| steps_delete ns tn rv w1 w :
    steps w1 w → steps w1 (frr.delete ns tn rv w).2
| steps_copy now w1 w :
    steps w1 w → steps w1 (frr.copy now w).2.

(** A heap in order, and every cached result on it. *)
Definition cache_on_heap (w : world) : Prop :=
  heap_ok (w_heap w) ∧
  ∀ k e, cache.entries (refCache w) !! k = Some e →
    allocated (w_heap w) (cache.value e).


(** An event that is a store lookup. *)
Definition is_lookup (e : event) : Prop :=
  match e with
  | EvStoreGet _ _ => True
  | EvLogError _ _ _ => False
  end.

(** * The command that creates a message queue trigger

    Package [mqtrigger] of the command line: [complete] reads the flags,
    checks them and builds the trigger; [checkMQTopicAvailability] checks
    the topics.  What the command calls outside its file is taken as given:
    the flag keys, the input, and the collaborators. *)

Module mqtrigger.

(** The errors of Go, as the command makes them: [errors.New], [fmt.Errorf]
    without and with a wrapped cause (the text before [%w] is kept), and
    the errors that collaborators hand back. *)
Inductive goerror :=
| errors_New (msg : string)
| fmt_Errorf (msg : string)
| fmt_Errorf_w (msg : string) (cause : goerror)
| collaborator_error (msg : string).

Inductive result (A : Type) :=
| ok (a : A)
| failed (e : goerror).
Global Arguments ok {A} a.
Global Arguments failed {A} e.

(** The keys of the flags the command reads (package [flagkey]). *)
Record flagkey := {
  MqtName : string;
  MqtFnName : string;
  NamespaceFunction : string;
  MqtKind : string;
  MqtMQType : string;
  MqtTopic : string;
  MqtRespTopic : string;
  MqtErrorTopic : string;
  MqtMaxRetries : string;
  MqtMsgContentType : string;
  MqtPollingInterval : string;
  MqtCooldownPeriod : string;
  MqtMinReplicaCount : string;
  MqtMaxReplicaCount : string;
  MqtMetadata : string;
  MqtSecret : string;
  SpecSave : string;
  SpecDry : string;
}.

(** The interface [cli.Input], with the methods the command calls:
    [String], [Int], [Bool] and [StringSlice]. *)
Record Input := {
  input_String : string → string;
  input_Int : string → Z;
  input_Bool : string → bool;
  input_StringSlice : string → list string;
}.

(** What the command calls outside its file.  [GetResourceNamespace] gives
    the namespace the user provided and the namespace to use, or an error;
    [ReadSpecs] gives, when it succeeds, the resources read, here as their
    method [ExistsInSpecs]; [uuid_NewString] is the name that
    [uuid.NewString] comes up with in this run. *)
Record collaborators := {
  GetResourceNamespace : Input → string → result (string * string);
  IsValidMessageQueue : string → string → bool;
  IsValidTopic : string → string → string → bool;
  uuid_NewString : string;
  UpdateMapFromStringSlice :
    gmap string string → list string → gmap string string;
  GetSpecDir : Input → string;
  GetSpecIgnore : Input → string;
  ReadSpecs : string → string → bool → result (Function → result bool);
  CheckFunctionExistence : list string → string → option goerror;
}.

(** [fv1.MessageQueueTrigger], its metadata and its spec in one record;
    the pointers to [int32] are the numbers they point to. *)
Record MessageQueueTrigger := {
  mqt_ObjectMeta : ObjectMeta;
  mqt_FunctionReference : FunctionReference;
  MessageQueueType : string;
  Topic : string;
  ResponseTopic : string;
  ErrorTopic : string;
  MaxRetries : Z;
  ContentType : string;
  PollingInterval : Z;
  CooldownPeriod : Z;
  MinReplicaCount : Z;
  MaxReplicaCount : Z;
  Metadata : gmap string string;
  Secret : string;
  mqt_MqtKind : string;
}.

(** What the command does that shows outside: what it prints, its calls
    of the collaborators that read the spec files or ask the cluster, and
    its calls of those that print the spec, save it, or create the trigger
    in the cluster. *)
Inductive effect :=
| console_Warn (msg : string)
| call_ReadSpecs (specDir specIgnore : string)
| call_CheckFunctionExistence (fnNames : list string) (ns : string)
| call_SpecDry (t : MessageQueueTrigger)
| call_SpecSave (t : MessageQueueTrigger) (specFile : string)
| call_Create (ns : string) (t : MessageQueueTrigger)
| fmt_Printf (msg : string).

(** The conversion [int32(x)] of an [int]: the low 32 bits, in two's
    complement. *)
Definition int32 (x : Z) : Z := (x + 2 ^ 31) `mod` 2 ^ 32 - 2 ^ 31.
Global Arguments int32 : simpl never.

(** [checkMQTopicAvailability] *)
Fixpoint checkMQTopicAvailability (env : collaborators)
    (mqType mqtKind : string) (topics : list string) : option goerror :=
  match topics with
  | [] => None
  | t :: topics' =>
      if (0 <? String.length t)%nat && negb (IsValidTopic env mqType t mqtKind) then
        Some (fmt_Errorf ("invalid topic for " +:+ mqType +:+ ": " +:+ t))
      else checkMQTopicAvailability env mqType mqtKind topics'
  end.

(** The check of [complete] that the function exists: in the spec files
    when the spec is to be saved, where an unknown function is only warned
    about, and in the cluster otherwise. *)
Definition check_function (key : flagkey) (env : collaborators)
    (input : Input) (mqtName fnName userProvidedNS fnNamespace : string)
  : option goerror * list effect :=
  if input_Bool input (SpecSave key) then
    let specDir := GetSpecDir env input in
    let specIgnore := GetSpecIgnore env input in
    match ReadSpecs env specDir specIgnore false with
    | failed err =>
        (Some (fmt_Errorf_w ("error reading spec in '" +:+ specDir +:+ "': ")
                 err),
         [call_ReadSpecs specDir specIgnore])
    | ok ExistsInSpecs =>
        match ExistsInSpecs
                {| fn_ObjectMeta := {| Namespace := userProvidedNS;
                                       Name := fnName;
                                       ResourceVersion := "" |};
                   fn_Spec := "" |} with
        | failed err => (Some err, [call_ReadSpecs specDir specIgnore])
        | ok exists_ =>
            if negb exists_ then
              (None,
               [call_ReadSpecs specDir specIgnore;
                console_Warn
                  ("MessageQueueTrigger '" +:+ mqtName +:+
                   "' references unknown Function '" +:+ fnName +:+
                   "', please create it before applying spec")])
            else (None, [call_ReadSpecs specDir specIgnore])
        end
    end
  else
    (CheckFunctionExistence env [fnName] fnNamespace,
     [call_CheckFunctionExistence [fnName] fnNamespace]).

(** [complete]: the trigger it leaves in [opts.trigger], or the error it
    returns, and what it did on the way. *)
Definition complete (key : flagkey) (env : collaborators) (input : Input)
  : result MessageQueueTrigger * list effect :=
  let mqtName := input_String input (MqtName key) in
  let '(mqtName, warned) :=
    if (String.length mqtName =? 0)%nat then
      (uuid_NewString env,
       [console_Warn
          ("--" +:+ MqtName key +:+
           " will be soon marked as required flag, see 'help' for details")])
    else (mqtName, []) in
  let fnName := input_String input (MqtFnName key) in
  match GetResourceNamespace env input (NamespaceFunction key) with
  | failed err =>
      (failed (fmt_Errorf_w "error in deleting function : " err), warned)
  | ok (userProvidedNS, fnNamespace) =>
  let mqtKind := input_String input (MqtKind key) in
  let mqType := input_String input (MqtMQType key) in
  if negb (IsValidMessageQueue env mqType mqtKind) then
    (failed (errors_New "unsupported message queue type"), warned)
  else
  let topic := input_String input (MqtTopic key) in
  if (String.length topic =? 0)%nat then
    (failed (errors_New "topic cannot be empty"), warned)
  else
  let respTopic := input_String input (MqtRespTopic key) in
  if bool_decide (topic = respTopic) then
    (failed (errors_New "listen topic should not equal to response topic"),
     warned)
  else
  let errorTopic := input_String input (MqtErrorTopic key) in
  let maxRetries := input_Int input (MqtMaxRetries key) in
  if maxRetries <? 0 then
    (failed (errors_New
       "maximum number of retries must be greater than or equal to 0"),
     warned)
  else
  let contentType := input_String input (MqtMsgContentType key) in
  let contentType :=
    if (String.length contentType =? 0)%nat then "application/json"%string
    else contentType in
  match checkMQTopicAvailability env mqType mqtKind [topic; respTopic] with
  | Some err => (failed err, warned)
  | None =>
  let pollingInterval := int32 (input_Int input (MqtPollingInterval key)) in
  if pollingInterval <? 0 then
    (failed (errors_New
       "polling interval must be greater than or equal to 0"), warned)
  else
  let cooldownPeriod := int32 (input_Int input (MqtCooldownPeriod key)) in
  if cooldownPeriod <? 0 then
    (failed (errors_New
       "cooldownPeriod interval is the period to wait after the last trigger reported active before scaling the deployment back to 0, it must be greater than or equal to 0"),
     warned)
  else
  let minReplicaCount := int32 (input_Int input (MqtMinReplicaCount key)) in
  if minReplicaCount <? 0 then
    (failed (errors_New
       "minReplicaCount must be greater than or equal to 0"), warned)
  else
  let maxReplicaCount := int32 (input_Int input (MqtMaxReplicaCount key)) in
  if maxReplicaCount <? 0 then
    (failed (errors_New
       "maxReplicaCount must be greater than or equal to 0"), warned)
  else
  let metadata :=
    UpdateMapFromStringSlice env ∅ (input_StringSlice input (MqtMetadata key)) in
  let secret := input_String input (MqtSecret key) in
  match check_function key env input mqtName fnName userProvidedNS
          fnNamespace with
  | (Some err, done) => (failed err, warned ++ done)
  | (None, done) =>
  let m :=
    if input_Bool input (SpecSave key) || input_Bool input (SpecDry key) then
      {| Namespace := userProvidedNS; Name := mqtName; ResourceVersion := "" |}
    else
      {| Namespace := fnNamespace; Name := mqtName; ResourceVersion := "" |} in
  (ok {| mqt_ObjectMeta := m;
         mqt_FunctionReference :=
           {| fr_Type := FunctionReferenceTypeFunctionName;
              fr_Name := fnName;
              fr_FunctionWeights := ∅ |};
         MessageQueueType := mqType;
         Topic := topic;
         ResponseTopic := respTopic;
         ErrorTopic := errorTopic;
         MaxRetries := maxRetries;
         ContentType := contentType;
         PollingInterval := pollingInterval;
         CooldownPeriod := cooldownPeriod;
         MinReplicaCount := minReplicaCount;
         MaxReplicaCount := maxReplicaCount;
         Metadata := metadata;
         Secret := secret;
         mqt_MqtKind := mqtKind |},
   warned ++ done)
  end
  end
  end.

(** What [run] calls outside its file: [spec.SpecDry], [spec.SpecSave]
    and the [Create] of the client for the namespace. *)
Record writers := {
  spec_SpecDry : MessageQueueTrigger → option goerror;
  spec_SpecSave : MessageQueueTrigger → string → bool → option goerror;
  client_Create : string → MessageQueueTrigger → option goerror;
}.

(** [run], on the trigger that [complete] has left in [opts.trigger]. *)
Definition run (key : flagkey) (out : writers) (input : Input)
    (trigger : MessageQueueTrigger) : option goerror * list effect :=
  (* if we're writing a spec, don't call the API *)
  if input_Bool input (SpecDry key) then
    (spec_SpecDry out trigger, [call_SpecDry trigger])
  else if input_Bool input (SpecSave key) then
    let specFile :=
      "mqtrigger-" +:+ Name (mqt_ObjectMeta trigger) +:+ ".yaml" in
    match spec_SpecSave out trigger specFile false with
    | Some err =>
        (Some (fmt_Errorf_w "error saving message queue trigger spec: " err),
         [call_SpecSave trigger specFile])
    | None => (None, [call_SpecSave trigger specFile])
    end
  else
    match client_Create out (Namespace (mqt_ObjectMeta trigger)) trigger with
    | Some err =>
        (Some (fmt_Errorf_w "create message queue trigger: " err),
         [call_Create (Namespace (mqt_ObjectMeta trigger)) trigger])
    | None =>
        (None,
         [call_Create (Namespace (mqt_ObjectMeta trigger)) trigger;
          fmt_Printf ("trigger '" +:+ Name (mqt_ObjectMeta trigger) +:+
                      "' created
")])
    end.

(** [do]: [complete], then [run]. *)
Definition do_ (key : flagkey) (env : collaborators) (out : writers)
    (input : Input) : option goerror * list effect :=
  match complete key env input with
  | (failed err, log) => (Some err, log)
  | (ok trigger, log) =>
      let '(err, log') := run key out input trigger in (err, log ++ log')
  end.

(** The effects that only read: warnings, and the calls that read the
    spec files or ask the cluster. *)
Definition reads_only (e : effect) : Prop :=
  match e with
  | console_Warn _ | call_ReadSpecs _ _ | call_CheckFunctionExistence _ _ =>
      True
  | _ => False
  end.

End mqtrigger.

(** Writers that do what they are asked without an error. *)
Definition example_writers : mqtrigger.writers :=
  {| mqtrigger.spec_SpecDry _ := None;
     mqtrigger.spec_SpecSave _ _ _ := None;
     mqtrigger.client_Create _ _ := None |}.

(** A run of the command to try the statements on: keys, an input given as
    the list of the flags set, and collaborators that accept the queue
    type "kafka" and every topic but "no topic", know of no spec file and
    find every function in the cluster. *)
Definition example_keys : mqtrigger.flagkey :=
  {| mqtrigger.MqtName := "name";
     mqtrigger.MqtFnName := "function";
     mqtrigger.NamespaceFunction := "fnNamespace";
     mqtrigger.MqtKind := "kind";
     mqtrigger.MqtMQType := "mqtype";
     mqtrigger.MqtTopic := "topic";
     mqtrigger.MqtRespTopic := "resptopic";
     mqtrigger.MqtErrorTopic := "errortopic";
     mqtrigger.MqtMaxRetries := "maxretries";
     mqtrigger.MqtMsgContentType := "contenttype";
     mqtrigger.MqtPollingInterval := "pollinginterval";
     mqtrigger.MqtCooldownPeriod := "cooldownperiod";
     mqtrigger.MqtMinReplicaCount := "minreplicacount";
     mqtrigger.MqtMaxReplicaCount := "maxreplicacount";
     mqtrigger.MqtMetadata := "metadata";
     mqtrigger.MqtSecret := "secret";
     mqtrigger.SpecSave := "spec";
     mqtrigger.SpecDry := "dry" |}.

Definition example_input (strings : list (string * string))
    (ints : list (string * Z)) (bools : list string) : mqtrigger.Input :=
  {| mqtrigger.input_String k :=
       default ""%string ((list_to_map strings : gmap string string) !! k);
     mqtrigger.input_Int k :=
       default 0 ((list_to_map ints : gmap string Z) !! k);
     mqtrigger.input_Bool k := bool_decide (k ∈ bools);
     mqtrigger.input_StringSlice _ := [] |}.

Definition example_collaborators : mqtrigger.collaborators :=
  {| mqtrigger.GetResourceNamespace _ _ :=
       mqtrigger.ok (""%string, "default"%string);
     mqtrigger.IsValidMessageQueue mqType _ :=
       bool_decide (mqType = "kafka"%string);
     mqtrigger.IsValidTopic _ t _ := negb (bool_decide (t = "no topic"%string));
     mqtrigger.uuid_NewString := "6f1c2a34";
     mqtrigger.UpdateMapFromStringSlice m _ := m;
     mqtrigger.GetSpecDir _ := "specs";
     mqtrigger.GetSpecIgnore _ := ".specignore";
     mqtrigger.ReadSpecs _ _ _ :=
       mqtrigger.failed (mqtrigger.collaborator_error "no spec directory");
     mqtrigger.CheckFunctionExistence _ _ := None |}.

(** A run with a name, a function, the queue type "kafka", two topics, a
    polling interval of -4294967295 and a request to only print the spec. *)
Definition example_run : mqtrigger.Input :=
  example_input
    [("name", "t1"); ("function", "f1"); ("mqtype", "kafka");
     ("topic", "in"); ("resptopic", "out")]%string
    [("pollinginterval"%string, -4294967295)]
    ["dry"%string].

(** The same run without the request to only print the spec: the trigger
    is to be created in the cluster. *)
Definition example_create : mqtrigger.Input :=
  example_input
    [("name", "t1"); ("function", "f1"); ("mqtype", "kafka");
     ("topic", "in"); ("resptopic", "out")]%string
    [("pollinginterval"%string, -4294967295)]
    [].
(** ** Arithmetic of [int] *)

Lemma int_wrap_id z : is_int z → int_wrap z = z.
Proof.
  unfold is_int, int_wrap, int_min, int_max, int_bits. intros Hz.
  rewrite Z.mod_small; lia.
Qed.

Lemma int_wrap_add_l a b : int_wrap (int_wrap a + b) = int_wrap (a + b).
Proof.
  unfold int_wrap, int_bits.
  replace ((a + 2 ^ (64 - 1)) `mod` 2 ^ 64 - 2 ^ (64 - 1) + b + 2 ^ (64 - 1))
    with ((a + 2 ^ (64 - 1)) `mod` 2 ^ 64 + b) by lia.
  rewrite Zplus_mod_idemp_l. f_equal. f_equal. lia.
Qed.

Lemma int_add_wrap acc w : int_add (int_wrap acc) w = int_wrap (acc + w).
Proof. apply int_wrap_add_l. Qed.

Lemma sum_weights_app l1 l2 :
  sum_weights (l1 ++ l2) = sum_weights l1 + sum_weights l2.
Proof. induction l1 as [|x l1 IH]; simpl; lia. Qed.

Lemma sum_weights_nonneg ws : Forall (λ w, 0 ≤ w) ws → 0 ≤ sum_weights ws.
Proof. induction 1; simpl; lia. Qed.

Lemma sum_weights_perm l1 l2 : l1 ≡ₚ l2 → sum_weights l1 = sum_weights l2.
Proof. induction 1; simpl; lia. Qed.

Lemma sum_weights_take_le ws i :
  Forall (λ w, 0 ≤ w) ws → 0 ≤ sum_weights (take i ws) ≤ sum_weights ws.
Proof.
  intros Hws. rewrite <- (take_drop i ws) at 3. rewrite sum_weights_app.
  pose proof (sum_weights_nonneg (take i ws) (Forall_take _ _ _ Hws)).
  pose proof (sum_weights_nonneg (drop i ws) (Forall_drop _ _ _ Hws)). lia.
Qed.

(** ** The distribution list *)

Lemma distribution_from_names acc it :
  name <$> distribution_from acc it = it.*1.
Proof.
  revert acc. induction it as [|[fn w] it IH]; intros acc; simpl; [done|].
  by rewrite IH.
Qed.

Lemma distribution_from_pairs acc it :
  (λ d, (name d, weight d)) <$> distribution_from acc it = it.
Proof.
  revert acc. induction it as [|[fn w] it IH]; intros acc; simpl; [done|].
  by rewrite IH.
Qed.

(** The entry at position [i] carries the pair at position [i] and the sum
    of the weights up to and including it. *)
Lemma distribution_from_lookup acc it i d :
  distribution_from acc it !! i = Some d ↔
  ∃ fn w, it !! i = Some (fn, w) ∧
    d = {| name := fn; weight := w;
           sumPrefix := int_wrap (acc + sum_weights (take (S i) it.*2)) |}.
Proof.
  revert acc i. induction it as [|[fn w] it IH]; intros acc i.
  - simpl. rewrite !lookup_nil. split; [done|]. by intros (?&?&?&?).
  - destruct i as [|i]; simpl.
    + rewrite Z.add_0_r. split.
      * intros [= <-]. by exists fn, w.
      * intros (fn'&w'&[= <- <-]&->). done.
    + rewrite IH.
      replace (acc + w + sum_weights (take (S i) it.*2))
        with (acc + (w + sum_weights (take (S i) it.*2))) by lia.
      done.
Qed.

(** ** The loop of [resolveByFunctionWeights] *)

Lemma loop_cons funcInformer ns fm sl s fn wt it w :
  frr.resolveByFunctionWeights_loop funcInformer ns fm sl s ((fn, wt) :: it) w =
  match funcInformer !! ns with
  | None => (Err (ErrInformerNotFound ns), w)
  | Some st =>
      match Get st (query ns fn) with
      | GetError e => (Err (ErrStore e), emit (EvStoreGet ns fn) w)
      | GetMissing =>
          (Err (ErrFunctionNotExist ns fn),
           emit (EvLogError "function does not exists" fn ns)
             (emit (EvStoreGet ns fn) w))
      | GetFound f =>
          frr.resolveByFunctionWeights_loop funcInformer ns fm sl
            (int_add s wt) it
            (set_heap
               (heap_slice_append sl
                  {| name := fn; weight := wt; sumPrefix := int_add s wt |}
                  (heap_map_assign fm (Name (fn_ObjectMeta f)) f (w_heap w)))
               (emit (EvStoreGet ns fn) w))
      end
  end.
Proof.
  simpl. unfold bind, frr.getInformerByNamespace, frr.store_Get, modify, ret.
  destruct (funcInformer !! ns) as [st|]; [|done].
  by destruct (Get st (query ns fn)).
Qed.

(** When every function is found the loop ends well, in a world that is
    spelled out here. *)
Lemma loop_ok funcInformer ns fm sl s acc it w m0 a0 :
  Forall (λ p, function_exists funcInformer ns p.1) it →
  s = int_wrap acc →
  h_maps (w_heap w) !! fm = Some m0 →
  h_slices (w_heap w) !! sl = Some a0 →
  frr.resolveByFunctionWeights_loop funcInformer ns fm sl s it w =
  (Ok tt,
   {| w_heap :=
        {| h_maps := <[fm := collect_functions funcInformer ns m0 it]>
                       (h_maps (w_heap w));
           h_slices := <[sl := a0 ++ distribution_from acc it]>
                         (h_slices (w_heap w));
           h_next := h_next (w_heap w) |};
      refCache := refCache w;
      w_trace := w_trace w ++ ((λ p, EvStoreGet ns p.1) <$> it) |}).
Proof.
  intros Hall. revert s acc w m0 a0.
  induction Hall as [|[fn wt] it (f & st & Hs & Hget) _ IH];
    intros s acc w m0 a0 -> Hm Ha.
  - simpl. unfold ret. destruct w as [[hm hs hn] c t]; simpl in *.
    rewrite !app_nil_r. by rewrite !insert_id.
  - rewrite loop_cons. simpl in Hs, Hget. rewrite Hs, Hget.
    rewrite int_add_wrap.
    rewrite (IH _ (acc + wt) _ (<[Name (fn_ObjectMeta f) := f]> m0)
               (a0 ++ [{| name := fn; weight := wt;
                          sumPrefix := int_wrap (acc + wt) |}])); simpl.
    + rewrite Hs, Hget. rewrite !insert_insert_eq.
      by rewrite <- (app_assoc a0), <- (app_assoc (w_trace w)).
    + done.
    + rewrite Hm. simpl. apply lookup_insert_eq.
    + rewrite Ha. simpl. apply lookup_insert_eq.
Qed.

(** Whatever the loop does, it leaves the cache alone, never moves the
    allocation pointer, only writes to its own map and slice, and only adds
    to the trace; an error has its explanation. *)
Lemma loop_any funcInformer ns fm sl s it w r w' :
  frr.resolveByFunctionWeights_loop funcInformer ns fm sl s it w = (r, w') →
  refCache w' = refCache w ∧
  h_next (w_heap w') = h_next (w_heap w) ∧
  (∀ l, l ≠ fm → h_maps (w_heap w') !! l = h_maps (w_heap w) !! l) ∧
  (∀ l, l ≠ sl → h_slices (w_heap w') !! l = h_slices (w_heap w) !! l) ∧
  (is_Some (h_maps (w_heap w) !! fm) → is_Some (h_maps (w_heap w') !! fm)) ∧
  (is_Some (h_slices (w_heap w) !! sl) → is_Some (h_slices (w_heap w') !! sl)) ∧
  ∃ evs k, w_trace w' = w_trace w ++ evs ∧
    lookups_of evs = (λ fn, (ns, fn)) <$> take k it.*1 ∧
    match r with
    | Ok _ => Forall (λ p, function_exists funcInformer ns p.1) it
    | Err e => loop_error_explained funcInformer ns it evs e
    end.
Proof.
  revert s w. induction it as [|[fn wt] it IH]; intros s w.
  - simpl. unfold ret. intros [= <- <-]. repeat split; try done.
    exists [], 0%nat. by rewrite app_nil_r.
  - rewrite loop_cons.
    destruct (funcInformer !! ns) as [st|] eqn:Hst.
    2:{ intros [= <- <-]. repeat split; try done. exists [], 0%nat.
        rewrite app_nil_r. split; [done|]. split; [done|]. left. done. }
    destruct (Get st (query ns fn)) as [f| |x] eqn:Hget.
    + intros Hloop.
      apply IH in Hloop as (Hc & Hn & Hm & Hs & Hfm & Hsl & evs & k & Ht & Hk & Hr).
      simpl in *. repeat split.
      * done.
      * done.
      * intros l Hl. rewrite Hm by done. by rewrite lookup_insert_ne.
      * intros l Hl. rewrite Hs by done. by rewrite lookup_insert_ne.
      * intros _. apply Hfm. rewrite lookup_insert_eq. by eexists.
      * intros _. apply Hsl. rewrite lookup_insert_eq. by eexists.
      * exists (EvStoreGet ns fn :: evs), (S k). split.
        { rewrite Ht. by rewrite <- app_assoc. }
        split.
        { change (lookups_of (EvStoreGet ns fn :: evs))
            with ((ns, fn) :: lookups_of evs). by rewrite Hk. }
        destruct r as [[]|e].
        { constructor; [|done]. exists f, st. done. }
        destruct Hr as [(-> & Hnone & _)|[(fn' & Hin & -> & Habs & Hev)
                                         |(fn' & x & Hin & -> & Hf & Hev)]].
        { congruence. }
        { right; left. exists fn'. repeat split; try done.
          - simpl. by apply list_elem_of_further.
          - by apply list_elem_of_further. }
        { right; right. exists fn', x. repeat split; try done.
          - simpl. by apply list_elem_of_further.
          - by apply list_elem_of_further. }
    + intros [= <- <-]. simpl. repeat split; try done.
      exists [EvStoreGet ns fn; EvLogError "function does not exists" fn ns],
        1%nat.
      split; [by rewrite <- app_assoc|]. split; [done|].
      right; left. exists fn. repeat split.
      * simpl. apply list_elem_of_here.
      * by exists st.
      * apply list_elem_of_here.
    + intros [= <- <-]. simpl. repeat split; try done.
      exists [EvStoreGet ns fn], 1%nat. split; [done|].
      split; [done|].
      right; right. exists fn, x. repeat split.
      * simpl. apply list_elem_of_here.
      * by exists st.
      * apply list_elem_of_here.
Qed.

(** ** [resolveByName] and [resolveByFunctionWeights] *)

Lemma resolveByName_eq funcInformer ns fn w :
  frr.resolveByName funcInformer ns fn w =
  match funcInformer !! ns with
  | None => (Err (ErrInformerNotFound ns), w)
  | Some st =>
      match Get st (query ns fn) with
      | GetError e => (Err (ErrStore e), emit (EvStoreGet ns fn) w)
      | GetMissing =>
          (Err (ErrFunctionNotExist ns fn),
           emit (EvLogError "function does not exists" fn ns)
             (emit (EvStoreGet ns fn) w))
      | GetFound f =>
          (Ok {| rr_resolveResultType := resolveResultSingleFunction;
                 functionMap := h_next (w_heap w);
                 functionWtDistributionList := None |},
           {| w_heap :=
                {| h_maps := <[h_next (w_heap w) := {[Name (fn_ObjectMeta f) := f]}]>
                               (h_maps (w_heap w));
                   h_slices := h_slices (w_heap w);
                   h_next := h_next (w_heap w) + 1 |};
              refCache := refCache w;
              w_trace := w_trace w ++ [EvStoreGet ns fn] |})
      end
  end.
Proof.
  unfold frr.resolveByName, bind, frr.getInformerByNamespace, frr.store_Get,
    modify, ret, fail.
  destruct (funcInformer !! ns) as [st|]; [|done]. simpl.
  destruct (Get st (query ns fn)); try done.
  unfold map_make, map_assign, modify, set_heap, heap_map_assign, emit. simpl.
  rewrite lookup_insert_eq. simpl. by rewrite insert_insert_eq, insert_empty.
Qed.

(** The world [resolveByFunctionWeights] starts its loop in. *)
Lemma resolveByFunctionWeights_eq funcInformer ns it w :
  frr.resolveByFunctionWeights funcInformer ns it w =
  let fm := h_next (w_heap w) in
  let sl := h_next (w_heap w) + 1 in
  match frr.resolveByFunctionWeights_loop funcInformer ns fm sl 0 it
          {| w_heap := {| h_maps := <[fm := ∅]> (h_maps (w_heap w));
                          h_slices := <[sl := []]> (h_slices (w_heap w));
                          h_next := h_next (w_heap w) + 1 + 1 |};
             refCache := refCache w; w_trace := w_trace w |} with
  | (Ok _, w') =>
      (Ok {| rr_resolveResultType := resolveResultMultipleFunctions;
             functionMap := fm;
             functionWtDistributionList := Some sl |}, w')
  | (Err e, w') => (Err e, w')
  end.
Proof.
  unfold frr.resolveByFunctionWeights, bind, map_make, slice_make, ret. simpl.
  by destruct (frr.resolveByFunctionWeights_loop _ _ _ _ _ _ _) as [[[]|e] w'].
Qed.

(** With every function in place, [resolveByFunctionWeights] succeeds; its
    result and the world it leaves are spelled out. *)
Lemma resolveByFunctionWeights_ok funcInformer ns it w :
  Forall (λ p, function_exists funcInformer ns p.1) it →
  frr.resolveByFunctionWeights funcInformer ns it w =
  (Ok {| rr_resolveResultType := resolveResultMultipleFunctions;
         functionMap := h_next (w_heap w);
         functionWtDistributionList := Some (h_next (w_heap w) + 1) |},
   {| w_heap :=
        {| h_maps := <[h_next (w_heap w) := collect_functions funcInformer ns ∅ it]>
                       (h_maps (w_heap w));
           h_slices := <[h_next (w_heap w) + 1 := weighted_distribution it]>
                         (h_slices (w_heap w));
           h_next := h_next (w_heap w) + 1 + 1 |};
      refCache := refCache w;
      w_trace := w_trace w ++ ((λ p, EvStoreGet ns p.1) <$> it) |}).
Proof.
  intros Hall. rewrite resolveByFunctionWeights_eq. cbv zeta.
  erewrite (loop_ok _ _ _ _ 0 0 it _ ∅ []); simpl; try done.
  - by rewrite !insert_insert_eq.
  - apply lookup_insert_eq.
  - apply lookup_insert_eq.
Qed.

(** ** The heap under the resolver's steps *)

Lemma heap_extends_refl h : heap_extends h h.
Proof. by repeat split. Qed.

Lemma heap_extends_trans h1 h2 h3 :
  heap_extends h1 h2 → heap_extends h2 h3 → heap_extends h1 h3.
Proof.
  intros (Hn1 & Hm1 & Hs1) (Hn2 & Hm2 & Hs2). unfold heap_extends.
  split; [|split].
  - lia.
  - intros l Hl. rewrite Hm2 by lia. by apply Hm1.
  - intros l Hl. rewrite Hs2 by lia. by apply Hs1.
Qed.

(** A result that is on the heap reads the same from any extension. *)
Lemma allocated_extends h h' rr :
  heap_ok h → heap_extends h h' → allocated h rr →
  allocated h' rr ∧
  functionMap_of h' rr = functionMap_of h rr ∧
  functionWtDistributionList_of h' rr = functionWtDistributionList_of h rr.
Proof.
  intros [Hokm Hoks] (Hn & Hm & Hs) [Ham Has].
  unfold allocated, functionMap_of, functionWtDistributionList_of.
  rewrite (Hm (functionMap rr)) by by apply Hokm.
  destruct (functionWtDistributionList rr) as [s|]; [|by repeat split].
  specialize (Has s eq_refl).
  rewrite (Hs s) by by apply Hoks.
  repeat split; try done. intros s' [= <-].
  rewrite Hs; [done|by apply Hoks].
Qed.

Lemma keys_match_extends h h' rr :
  heap_ok h → heap_extends h h' → allocated h rr →
  keys_match h rr → keys_match h' rr.
Proof.
  intros Hok Hext Hal Hk.
  destruct (allocated_extends h h' rr Hok Hext Hal) as (_ & Hm & Hl).
  unfold keys_match. by rewrite Hm, Hl.
Qed.

Lemma built_for_extends h h' fr rr :
  heap_ok h → heap_extends h h' → allocated h rr →
  built_for h fr rr → built_for h' fr rr.
Proof.
  intros Hok Hext Hal Hb.
  destruct (allocated_extends h h' rr Hok Hext Hal) as (_ & Hm & Hl).
  unfold built_for. by rewrite Hm, Hl.
Qed.

(** The switch of [resolve] never touches the cache and only extends the
    heap. *)
Lemma on_miss_frame funcInformer it trigger w r w' :
  on_miss funcInformer it trigger w = (r, w') →
  refCache w' = refCache w ∧
  heap_extends (w_heap w) (w_heap w') ∧
  (heap_ok (w_heap w) → heap_ok (w_heap w')).
Proof.
  unfold on_miss.
  destruct (fr_Type (tr_FunctionReference trigger)) as [| |kind].
  - rewrite resolveByName_eq.
    destruct (funcInformer !! _) as [st|].
    2:{ intros [= <- <-]. split; [done|]. split; [apply heap_extends_refl|done]. }
    destruct (Get st _) as [f| |x]; intros [= <- <-]; simpl;
      (split; [done|]); try (split; [apply heap_extends_refl|done]).
    split.
    + unfold heap_extends. simpl. split; [lia|]. split; [|done].
      intros l Hl. rewrite lookup_insert_ne; [done|lia].
    + intros [Hm Hs]. split; simpl.
      * intros l. rewrite lookup_insert. case_decide; [lia|].
        intros Hl%Hm. lia.
      * intros l Hl%Hs. lia.
  - rewrite resolveByFunctionWeights_eq. cbv zeta.
    destruct (frr.resolveByFunctionWeights_loop _ _ _ _ _ _ _) as [r0 w0] eqn:Hloop.
    apply loop_any in Hloop as (Hc & Hn & Hm & Hs & Hfm & Hsl & _). simpl in *.
    intros Heq.
    assert (w' = w0) as -> by (destruct r0; congruence). clear Heq.
    split; [done|]. split.
    + unfold heap_extends. split; [lia|]. split.
      * intros l Hl. rewrite Hm by lia. rewrite lookup_insert_ne; [done|lia].
      * intros l Hl. rewrite Hs by lia. rewrite lookup_insert_ne; [done|lia].
    + intros [Hokm Hoks]. split.
      * intros l. destruct (decide (l = h_next (w_heap w))) as [->|Hne]; [lia|].
        rewrite Hm by done. rewrite lookup_insert_ne by done.
        intros Hl%Hokm. lia.
      * intros l. destruct (decide (l = h_next (w_heap w) + 1)) as [->|Hne]; [lia|].
        rewrite Hs by done. rewrite lookup_insert_ne by done.
        intros Hl%Hoks. lia.
  - intros [= <- <-]. split; [done|]. split; [apply heap_extends_refl|done].
Qed.

(** ** What the loop collects *)

Lemma function_found_inj funcInformer ns fn f g :
  function_found funcInformer ns fn f →
  function_found funcInformer ns fn g → f = g.
Proof. intros (s & Hs & Hf) (s' & Hs' & Hg). congruence. Qed.

Lemma function_found_keyed funcInformer ns fn f :
  informers_keyed funcInformer →
  function_found funcInformer ns fn f →
  Namespace (fn_ObjectMeta f) = ns ∧ Name (fn_ObjectMeta f) = fn.
Proof. intros Hk (s & Hs & Hf). by apply (Hk ns s Hs) in Hf. Qed.

Lemma collect_functions_lookup funcInformer ns m it fn :
  informers_keyed funcInformer →
  Forall (λ p, function_exists funcInformer ns p.1) it →
  (fn ∈ it.*1 → ∀ f, function_found funcInformer ns fn f →
     collect_functions funcInformer ns m it !! fn = Some f) ∧
  (fn ∉ it.*1 → collect_functions funcInformer ns m it !! fn = m !! fn).
Proof.
  intros Hk Hall. revert m.
  induction Hall as [|[fn0 wt] it [f0 Hf0] _ IH]; intros m.
  - simpl. split; [|done]. by intros ?%elem_of_nil.
  - destruct (function_found_keyed _ _ _ _ Hk Hf0) as [_ Hname].
    pose proof Hf0 as (s & Hs & Hget). simpl in Hs, Hget, Hname.
    simpl. rewrite Hs, Hget, Hname.
    destruct (IH (<[fn0 := f0]> m)) as [IHin IHout].
    destruct (decide (fn ∈ it.*1)) as [Hin|Hout].
    + split; [|by intros []; apply list_elem_of_further].
      intros _ f Hf. by apply IHin.
    + rewrite (IHout Hout). split.
      * intros [->|?]%elem_of_cons; [|done]. intros f Hf.
        rewrite lookup_insert_eq. f_equal.
        by apply (function_found_inj funcInformer ns fn0).
      * intros Hnot. rewrite lookup_insert_ne; [done|].
        intros ->. apply Hnot, list_elem_of_here.
Qed.

Lemma collect_functions_dom funcInformer ns it :
  informers_keyed funcInformer →
  Forall (λ p, function_exists funcInformer ns p.1) it →
  dom (collect_functions funcInformer ns ∅ it) = list_to_set it.*1.
Proof.
  intros Hk Hall. apply set_eq. intros fn.
  rewrite elem_of_dom, elem_of_list_to_set.
  destruct (collect_functions_lookup funcInformer ns ∅ it fn Hk Hall)
    as [Hin Hout].
  split.
  - intros Hsome. destruct (decide (fn ∈ it.*1)) as [|Hnot]; [done|].
    rewrite (Hout Hnot), lookup_empty in Hsome. by destruct Hsome.
  - intros Hfn. pose proof Hfn as Hfn'.
    apply list_elem_of_fmap in Hfn' as ([fn' wt] & -> & Hp).
    rewrite Forall_forall in Hall. destruct (Hall _ Hp) as [f Hf].
    rewrite (Hin Hfn f Hf). by eexists.
Qed.

Lemma map_range_names m it :
  map_range m it → NoDup it.*1 ∧ ∀ fn, fn ∈ it.*1 ↔ fn ∈ dom m.
Proof.
  unfold map_range. intros Hp. split.
  - rewrite Hp. apply NoDup_fst_map_to_list.
  - intros fn. rewrite Hp, elem_of_dom. split.
    + intros ([fn' wt] & -> & Hin%elem_of_map_to_list)%list_elem_of_fmap.
      by eexists.
    + intros [wt Hwt]. apply list_elem_of_fmap. exists (fn, wt).
      split; [done|]. by apply elem_of_map_to_list.
Qed.

Lemma map_range_dom m it : map_range m it → list_to_set it.*1 = dom m.
Proof.
  intros [_ Hin]%map_range_names. apply set_eq. intros fn.
  by rewrite elem_of_list_to_set.
Qed.

Lemma map_range_referenced fr it :
  fr_Type fr = FunctionReferenceTypeFunctionWeights →
  map_range (fr_FunctionWeights fr) it →
  ∀ fn, fn ∈ it.*1 ↔ fn ∈ referenced fr.
Proof.
  intros Hty Hp fn. unfold referenced. rewrite Hty. unfold map_range in Hp.
  by rewrite Hp.
Qed.

(** ** [resolve], hit and miss *)

Lemma resolve_hit funcInformer now it trigger w result :
  cache.Get (refCache w) now (nfr_of trigger) = Some result →
  frr.resolve funcInformer now it trigger w = (Ok result, w).
Proof.
  intros Hget. unfold frr.resolve, bind, gets. by rewrite Hget.
Qed.

Lemma resolve_miss funcInformer now it trigger w :
  cache.Get (refCache w) now (nfr_of trigger) = None →
  frr.resolve funcInformer now it trigger w =
  match on_miss funcInformer it trigger w with
  | (Ok rr, w') =>
      (Ok rr, set_refCache (cache.Set_ (refCache w') now (nfr_of trigger) rr) w')
  | (Err e, w') => (Err e, w')
  end.
Proof.
  intros Hget. unfold frr.resolve, bind, gets, on_miss. rewrite Hget.
  by destruct (fr_Type (tr_FunctionReference trigger)).
Qed.

(** A by-name resolution that finds its function. *)
Lemma on_miss_name_found funcInformer it trigger w f :
  fr_Type (tr_FunctionReference trigger) = FunctionReferenceTypeFunctionName →
  function_found funcInformer (Namespace (tr_ObjectMeta trigger))
    (fr_Name (tr_FunctionReference trigger)) f →
  on_miss funcInformer it trigger w =
  (Ok {| rr_resolveResultType := resolveResultSingleFunction;
         functionMap := h_next (w_heap w);
         functionWtDistributionList := None |},
   {| w_heap :=
        {| h_maps := <[h_next (w_heap w) := {[Name (fn_ObjectMeta f) := f]}]>
                       (h_maps (w_heap w));
           h_slices := h_slices (w_heap w);
           h_next := h_next (w_heap w) + 1 |};
      refCache := refCache w;
      w_trace := w_trace w ++
        [EvStoreGet (Namespace (tr_ObjectMeta trigger))
           (fr_Name (tr_FunctionReference trigger))] |}).
Proof.
  intros Hty (s & Hs & Hget). unfold on_miss. rewrite Hty.
  rewrite resolveByName_eq. simpl. by rewrite Hs, Hget.
Qed.

(** A by-weights resolution that finds all its functions. *)
Lemma on_miss_weights_found funcInformer it trigger w :
  fr_Type (tr_FunctionReference trigger) =
    FunctionReferenceTypeFunctionWeights →
  Forall (λ p, function_exists funcInformer
                 (Namespace (tr_ObjectMeta trigger)) p.1) it →
  on_miss funcInformer it trigger w =
  (Ok {| rr_resolveResultType := resolveResultMultipleFunctions;
         functionMap := h_next (w_heap w);
         functionWtDistributionList := Some (h_next (w_heap w) + 1) |},
   {| w_heap :=
        {| h_maps := <[h_next (w_heap w) :=
                         collect_functions funcInformer
                           (Namespace (tr_ObjectMeta trigger)) ∅ it]>
                       (h_maps (w_heap w));
           h_slices := <[h_next (w_heap w) + 1 := weighted_distribution it]>
                         (h_slices (w_heap w));
           h_next := h_next (w_heap w) + 1 + 1 |};
      refCache := refCache w;
      w_trace := w_trace w ++
        ((λ p, EvStoreGet (Namespace (tr_ObjectMeta trigger)) p.1) <$> it) |}).
Proof.
  intros Hty Hall. unfold on_miss. rewrite Hty. simpl.
  by apply resolveByFunctionWeights_ok.
Qed.

(** What the switch of [resolve] comes to: a success needs a known kind and
    every referenced function in place; an error has its explanation; and
    no function is looked up twice. *)
Lemma on_miss_outcome funcInformer it trigger w r w' :
  map_range (fr_FunctionWeights (tr_FunctionReference trigger)) it →
  on_miss funcInformer it trigger w = (r, w') →
  ∃ evs, w_trace w' = w_trace w ++ evs ∧ NoDup (lookups_of evs) ∧
    match r with
    | Ok rr =>
        Forall (function_exists funcInformer (Namespace (tr_ObjectMeta trigger)))
          (referenced (tr_FunctionReference trigger)) ∧
        (∀ kind, fr_Type (tr_FunctionReference trigger) ≠
                   FunctionReferenceTypeOther kind)
    | Err e => resolve_error_explained funcInformer trigger evs e
    end.
Proof.
  intros Hrange. unfold on_miss, resolve_error_explained.
  pose proof (map_range_referenced (tr_FunctionReference trigger) it) as Href.
  unfold referenced in *.
  destruct (fr_Type (tr_FunctionReference trigger)) as [| |kind] eqn:Hty.
  - rewrite resolveByName_eq. simpl.
    destruct (funcInformer !! _) as [st|] eqn:Hst.
    2:{ intros [= <- <-]. exists []. rewrite app_nil_r.
        repeat split; [constructor|]. right; left. done. }
    destruct (Get st _) as [f| |x] eqn:Hget; intros [= <- <-]; simpl.
    + exists [EvStoreGet (Namespace (tr_ObjectMeta trigger))
                (fr_Name (tr_FunctionReference trigger))].
      repeat split; [apply NoDup_singleton| |done].
      constructor; [|done]. exists f, st. done.
    + eexists [_; _]. split; [by rewrite <- app_assoc|].
      split; [apply NoDup_singleton|].
      right; right; left. eexists. repeat split.
      * apply list_elem_of_here.
      * by exists st.
      * apply list_elem_of_here.
    + eexists [_]. split; [done|]. split; [apply NoDup_singleton|].
      right; right; right. eexists _, x. repeat split.
      * apply list_elem_of_here.
      * by exists st.
      * apply list_elem_of_here.
  - specialize (Href eq_refl Hrange).
    destruct (map_range_names _ _ Hrange) as [Hnodup _].
    rewrite resolveByFunctionWeights_eq. cbv zeta. simpl.
    destruct (frr.resolveByFunctionWeights_loop _ _ _ _ _ _ _) as [r0 w0] eqn:Hloop.
    apply loop_any in Hloop as (_ & _ & _ & _ & _ & _ & evs & k & Ht & Hk & Hr).
    simpl in Ht.
    assert (NoDup (lookups_of evs)) as Hnd.
    { rewrite Hk. apply NoDup_fmap_2; [by intros ?? [= ->]|].
      apply (sublist_NoDup _ _ Hnodup (sublist_take _ _)). }
    destruct r0 as [[]|e]; intros [= <- <-]; exists evs;
      (split; [done|]); (split; [done|]).
    + split; [|done]. rewrite Forall_forall. intros fn Hfn%Href.
      apply list_elem_of_fmap in Hfn as ([fn' wt] & -> & Hin).
      rewrite Forall_forall in Hr. by apply (Hr _ Hin).
    + destruct Hr as [(-> & Hnone & Hne & ->)|[(fn & Hin & -> & Habs & Hev)
                                               |(fn & x & Hin & -> & Hf & Hev)]].
      * right; left. repeat split; try done.
        destruct it as [|[fn wt] it]; [done|].
        intros Hnil. assert (fn ∈ ((fn, wt) :: it).*1) as Hfn%Href
          by apply list_elem_of_here.
        rewrite Hnil in Hfn. by apply elem_of_nil in Hfn.
      * right; right; left. exists fn. repeat split; try done. by apply Href.
      * right; right; right. exists fn, x. repeat split; try done.
        by apply Href.
  - intros [= <- <-]. exists []. rewrite app_nil_r.
    repeat split; [constructor|]. left. by exists kind.
Qed.

(** ** What a successful resolution builds *)

Lemma on_miss_ok_name funcInformer it trigger w rr w' :
  fr_Type (tr_FunctionReference trigger) = FunctionReferenceTypeFunctionName →
  on_miss funcInformer it trigger w = (Ok rr, w') →
  ∃ f, function_found funcInformer (Namespace (tr_ObjectMeta trigger))
         (fr_Name (tr_FunctionReference trigger)) f ∧
       rr_resolveResultType rr = resolveResultSingleFunction ∧
       functionWtDistributionList rr = None ∧
       functionMap_of (w_heap w') rr = {[Name (fn_ObjectMeta f) := f]} ∧
       allocated (w_heap w') rr ∧
       w_trace w' = w_trace w ++
         [EvStoreGet (Namespace (tr_ObjectMeta trigger))
            (fr_Name (tr_FunctionReference trigger))].
Proof.
  intros Hty Hrun.
  assert (function_exists funcInformer (Namespace (tr_ObjectMeta trigger))
            (fr_Name (tr_FunctionReference trigger))) as [f Hf].
  { revert Hrun. unfold on_miss. rewrite Hty, resolveByName_eq. simpl.
    destruct (funcInformer !! _) as [st|] eqn:Hst; [|done].
    destruct (Get st _) as [f| |x] eqn:Hget; try done.
    intros _. exists f, st. done. }
  rewrite (on_miss_name_found _ _ _ _ f Hty Hf) in Hrun.
  injection Hrun as <- <-. exists f. unfold functionMap_of, allocated. simpl.
  rewrite lookup_insert_eq. repeat split; try done.
Qed.

Lemma on_miss_ok_weights funcInformer it trigger w rr w' :
  fr_Type (tr_FunctionReference trigger) =
    FunctionReferenceTypeFunctionWeights →
  on_miss funcInformer it trigger w = (Ok rr, w') →
  Forall (λ p, function_exists funcInformer
                 (Namespace (tr_ObjectMeta trigger)) p.1) it ∧
  rr_resolveResultType rr = resolveResultMultipleFunctions ∧
  functionWtDistributionList_of (w_heap w') rr = weighted_distribution it ∧
  functionMap_of (w_heap w') rr =
    collect_functions funcInformer (Namespace (tr_ObjectMeta trigger)) ∅ it ∧
  allocated (w_heap w') rr ∧
  w_trace w' = w_trace w ++
    ((λ p, EvStoreGet (Namespace (tr_ObjectMeta trigger)) p.1) <$> it).
Proof.
  intros Hty Hrun.
  assert (Forall (λ p, function_exists funcInformer
                         (Namespace (tr_ObjectMeta trigger)) p.1) it) as Hall.
  { revert Hrun. unfold on_miss. rewrite Hty, resolveByFunctionWeights_eq.
    cbv zeta. simpl.
    destruct (frr.resolveByFunctionWeights_loop _ _ _ _ _ _ _) as [r0 w0] eqn:Hloop.
    apply loop_any in Hloop as (_ & _ & _ & _ & _ & _ & evs & k & _ & _ & Hr).
    by destruct r0. }
  split; [done|].
  rewrite (on_miss_weights_found _ _ _ _ Hty Hall) in Hrun.
  injection Hrun as <- <-.
  unfold functionMap_of, functionWtDistributionList_of, allocated. simpl.
  rewrite !lookup_insert_eq. repeat split; try done; try by eexists.
  intros s [= <-]. rewrite lookup_insert_eq. by eexists.
Qed.

(** In short: the result is on the heap, is built for the reference of
    the trigger, and the names of its map are those of its list. *)
Lemma on_miss_ok_built funcInformer it trigger w rr w' :
  informers_keyed funcInformer →
  map_range (fr_FunctionWeights (tr_FunctionReference trigger)) it →
  on_miss funcInformer it trigger w = (Ok rr, w') →
  allocated (w_heap w') rr ∧
  built_for (w_heap w') (tr_FunctionReference trigger) rr ∧
  keys_match (w_heap w') rr.
Proof.
  intros Hk Hrange Hrun. unfold built_for, keys_match.
  destruct (fr_Type (tr_FunctionReference trigger)) as [| |kind] eqn:Hty.
  - destruct (on_miss_ok_name _ _ _ _ _ _ Hty Hrun)
      as (f & Hf & Htag & Hnil & Hmap & Hal & _).
    destruct (function_found_keyed _ _ _ _ Hk Hf) as [_ Hname].
    unfold functionWtDistributionList_of. rewrite Hnil.
    split; [done|]. split; [|done]. split; [done|]. split; [done|].
    exists f. by rewrite Hmap, Hname.
  - destruct (on_miss_ok_weights _ _ _ _ _ _ Hty Hrun)
      as (Hall & Htag & Hlist & Hmap & Hal & _).
    rewrite Hlist, Hmap. rewrite (collect_functions_dom _ _ _ Hk Hall).
    split; [done|]. split; [split; [done|split]|].
    + by exists it.
    + by apply map_range_dom.
    + intros _. unfold weighted_distribution.
      by rewrite distribution_from_names.
  - revert Hrun. unfold on_miss. by rewrite Hty.
Qed.

(** ** The invariants of the resolver *)

Lemma world_ok_make : world_ok makeFunctionReferenceResolver.
Proof.
  split; [split|]; simpl.
  - intros l. rewrite lookup_empty. by intros [].
  - intros l. rewrite lookup_empty. by intros [].
  - intros k e. by rewrite lookup_empty.
Qed.

Lemma cache_Get_Some {V} (c : cache.Cache namespacedTriggerReference V) now k v :
  cache.Get c now k = Some v ↔
  ∃ e, cache.entries c !! k = Some e ∧ cache.value e = v ∧
       now - cache.ctime e < cache.ctimeExpiry c.
Proof.
  unfold cache.Get, cache.live.
  destruct (cache.entries c !! k) as [e|]; [|by split; [|intros (?&?&?)]].
  case_bool_decide.
  - split; [intros [= <-]; by exists e|by intros (? & [= <-] & <- & _)].
  - split; [done|]. intros (? & [= <-] & _ & ?). lia.
Qed.

Lemma cache_Get_None {V} (c : cache.Cache namespacedTriggerReference V) now k :
  cache.Get c now k = None ↔
  ∀ e, cache.entries c !! k = Some e →
       cache.ctimeExpiry c ≤ now - cache.ctime e.
Proof.
  unfold cache.Get, cache.live.
  destruct (cache.entries c !! k) as [e|]; [|by split].
  case_bool_decide.
  - split; [done|]. intros He. specialize (He e eq_refl). lia.
  - split; [|done]. intros _ ? [= <-]. lia.
Qed.

(** [resolve] keeps the world in order, and what it returns is on the
    heap, with matching names. *)
Lemma resolve_world_ok funcInformer now it trigger w r w' :
  world_ok w →
  informers_keyed funcInformer →
  map_range (fr_FunctionWeights (tr_FunctionReference trigger)) it →
  frr.resolve funcInformer now it trigger w = (r, w') →
  world_ok w' ∧ heap_extends (w_heap w) (w_heap w') ∧
  ∀ rr, r = Ok rr → allocated (w_heap w') rr ∧ keys_match (w_heap w') rr.
Proof.
  intros [Hheap Hcache] Hk Hrange.
  destruct (cache.Get (refCache w) now (nfr_of trigger)) as [result|] eqn:Hget.
  - rewrite (resolve_hit _ _ _ _ _ _ Hget). intros [= <- <-].
    split; [done|]. split; [apply heap_extends_refl|].
    intros rr [= <-]. apply cache_Get_Some in Hget as (e & He & <- & _).
    by apply (Hcache (nfr_of trigger) e).
  - rewrite (resolve_miss _ _ _ _ _ Hget).
    destruct (on_miss funcInformer it trigger w) as [[rr|e] w1] eqn:Hmiss;
      intros [= <- <-];
      destruct (on_miss_frame _ _ _ _ _ _ Hmiss) as (Hc & Hext & Hok).
    + destruct (on_miss_ok_built _ _ _ _ _ _ Hk Hrange Hmiss)
        as (Hal & _ & Hkm).
      split; [|split; [done|by intros ? [= <-]]].
      split; [by apply Hok|]. simpl. intros k e.
      rewrite lookup_insert. case_decide as Hkey.
      * by intros [= <-].
      * rewrite Hc. intros [Hal' Hkm']%Hcache.
        split; [by eapply allocated_extends|by eapply keys_match_extends].
    + split; [|split; [done|done]].
      split; [by apply Hok|]. rewrite Hc. intros k e' [Hal' Hkm']%Hcache.
      split; [by eapply allocated_extends|by eapply keys_match_extends].
Qed.

Lemma delete_world_ok ns tn rv w :
  world_ok w → world_ok (frr.delete ns tn rv w).2.
Proof.
  intros [Hheap Hcache]. split; [done|]. simpl. intros k e.
  rewrite lookup_delete. case_decide; [done|]. apply Hcache.
Qed.

Lemma reachable_world_ok P w : reachable P w → world_ok w.
Proof.
  induction 1 as [|inf now it T w _ IH Hk Hrange _|ns tn rv w _ IH|now w _ IH].
  - apply world_ok_make.
  - destruct (frr.resolve inf now it T w) as [r w'] eqn:Hrun.
    by destruct (resolve_world_ok _ _ _ _ _ _ _ IH Hk Hrange Hrun).
  - by apply delete_world_ok.
  - done.
Qed.

Lemma cache_built_make spec_of : cache_built spec_of makeFunctionReferenceResolver.
Proof. intros k e. simpl. by rewrite lookup_empty. Qed.

(** With triggers that declare what their key stands for, the cache only
    ever holds results built for the reference of the key, and so does
    [resolve] only return such results, on a hit as on a miss. *)
Lemma resolve_built spec_of funcInformer now it trigger w r w' :
  world_ok w → cache_built spec_of w → declares spec_of trigger →
  informers_keyed funcInformer →
  map_range (fr_FunctionWeights (tr_FunctionReference trigger)) it →
  frr.resolve funcInformer now it trigger w = (r, w') →
  cache_built spec_of w' ∧
  ∀ rr, r = Ok rr → built_for (w_heap w') (tr_FunctionReference trigger) rr.
Proof.
  intros [Hheap Hcache] Hbuilt Hdecl Hk Hrange.
  destruct (cache.Get (refCache w) now (nfr_of trigger)) as [result|] eqn:Hget.
  - rewrite (resolve_hit _ _ _ _ _ _ Hget). intros [= <- <-].
    split; [done|]. intros rr [= <-].
    apply cache_Get_Some in Hget as (e & He & <- & _).
    rewrite Hdecl. by apply Hbuilt.
  - rewrite (resolve_miss _ _ _ _ _ Hget).
    destruct (on_miss funcInformer it trigger w) as [[rr|e] w1] eqn:Hmiss;
      intros [= <- <-];
      destruct (on_miss_frame _ _ _ _ _ _ Hmiss) as (Hc & Hext & Hok).
    + destruct (on_miss_ok_built _ _ _ _ _ _ Hk Hrange Hmiss)
        as (Hal & Hb & _).
      split; [|by intros ? [= <-]].
      intros k e. simpl. rewrite lookup_insert. case_decide as Hkey.
      * intros [= <-]. simpl. by rewrite <- Hkey, <- Hdecl.
      * rewrite Hc. intros He.
        destruct (Hcache k e He) as [Hal' _].
        by eapply built_for_extends; [| | |apply Hbuilt].
    + split; [|done]. intros k e'. rewrite Hc. intros He.
      destruct (Hcache k e' He) as [Hal' _].
      by eapply built_for_extends; [| | |apply Hbuilt].
Qed.

Lemma delete_built spec_of ns tn rv w :
  cache_built spec_of w → cache_built spec_of (frr.delete ns tn rv w).2.
Proof.
  intros Hbuilt k e. simpl. rewrite lookup_delete. case_decide; [done|].
  apply Hbuilt.
Qed.

Lemma reachable_built spec_of w :
  reachable (declares spec_of) w → cache_built spec_of w.
Proof.
  induction 1 as [|inf now it T w Hw IH Hk Hrange Hdecl|ns tn rv w _ IH|now w _ IH].
  - apply cache_built_make.
  - destruct (frr.resolve inf now it T w) as [r w'] eqn:Hrun.
    by destruct (resolve_built _ _ _ _ _ _ _ _ (reachable_world_ok _ _ Hw)
                   IH Hdecl Hk Hrange Hrun).
  - by apply delete_built.
  - done.
Qed.

(** ** Stores and ranges at hand *)

Lemma store_of_keyed objs : store_keyed (store_of objs).
Proof.
  intros q f. simpl.
  destruct (List.find (same_key q) objs) as [g|] eqn:Hfind; [|done].
  intros [= <-]. apply List.find_some in Hfind as [_ Hkey].
  unfold same_key in Hkey. apply andb_prop in Hkey as [H1 H2].
  by apply bool_decide_eq_true in H1, H2.
Qed.

Lemma informers_of_keyed objs : informers_keyed (informers_of objs).
Proof.
  intros ns s. unfold informers_of. rewrite lookup_singleton_Some.
  intros [_ <-]. apply store_of_keyed.
Qed.

Lemma map_range_two (m : gmap string Z) a b it :
  map_to_list m = [a; b] → map_range m it → it = [a; b] ∨ it = [b; a].
Proof.
  unfold map_range. intros ->. intros Hp. symmetry in Hp.
  by apply Permutation.Permutation_length_2_inv in Hp.
Qed.

Lemma Forall_referenced_range funcInformer ns fr it :
  fr_Type fr = FunctionReferenceTypeFunctionWeights →
  map_range (fr_FunctionWeights fr) it →
  Forall (function_exists funcInformer ns) (referenced fr) →
  Forall (λ p, function_exists funcInformer ns p.1) it.
Proof.
  intros Hty Hrange Hall. rewrite Forall_forall in Hall.
  rewrite Forall_forall. intros [fn wt] Hin. apply Hall.
  apply (map_range_referenced fr it Hty Hrange).
  apply list_elem_of_fmap. by exists (fn, wt).
Qed.

(** A by-weights trigger whose functions all exist resolves, to a result
    built for its reference; on a miss the list follows the [range] of
    this call. *)
Lemma resolve_weights_total spec_of funcInformer now it trigger w :
  reachable (declares spec_of) w →
  declares spec_of trigger →
  informers_keyed funcInformer →
  fr_Type (tr_FunctionReference trigger) =
    FunctionReferenceTypeFunctionWeights →
  map_range (fr_FunctionWeights (tr_FunctionReference trigger)) it →
  Forall (function_exists funcInformer (Namespace (tr_ObjectMeta trigger)))
    (referenced (tr_FunctionReference trigger)) →
  ∃ rr w',
    frr.resolve funcInformer now it trigger w = (Ok rr, w') ∧
    built_for (w_heap w') (tr_FunctionReference trigger) rr ∧
    (cache.Get (refCache w) now (nfr_of trigger) = None →
     functionWtDistributionList_of (w_heap w') rr = weighted_distribution it).
Proof.
  intros Hreach Hdecl Hk Hty Hrange Hall.
  pose proof (reachable_world_ok _ _ Hreach) as Hok.
  pose proof (reachable_built _ _ Hreach) as Hbuilt.
  destruct (frr.resolve funcInformer now it trigger w) as [r w'] eqn:Hrun.
  destruct (resolve_built _ _ _ _ _ _ _ _ Hok Hbuilt Hdecl Hk Hrange Hrun)
    as [_ Hres].
  assert (∃ rr, r = Ok rr ∧
            (cache.Get (refCache w) now (nfr_of trigger) = None →
             functionWtDistributionList_of (w_heap w') rr
               = weighted_distribution it)) as (rr & -> & Hmiss).
  { destruct (cache.Get (refCache w) now (nfr_of trigger)) as [res|] eqn:Hget.
    - rewrite (resolve_hit _ _ _ _ _ _ Hget) in Hrun.
      injection Hrun as <- <-. by exists res.
    - rewrite (resolve_miss _ _ _ _ _ Hget) in Hrun.
      rewrite (on_miss_weights_found _ _ _ _ Hty
                 (Forall_referenced_range _ _ _ _ Hty Hrange Hall)) in Hrun.
      injection Hrun as <- <-. eexists. split; [done|]. intros _.
      unfold functionWtDistributionList_of. simpl.
      by rewrite lookup_insert_eq. }
  exists rr, w'. split; [done|]. split; [by apply Hres|done].
Qed.

(** * The claims *)

(** ** C1: the order of the distribution list *)

(** C1, as stated, fails: for the trigger with weights {"fA":70,"fB":30}
    the [range] over the weights may yield "fB" first, and the resolver
    then builds the list [("fB",30,30), ("fA",70,100)]. *)
Lemma declared_order_counterexample :
  ∃ it rr w',
    map_range (fr_FunctionWeights (tr_FunctionReference scenario_t2)) it ∧
    frr.resolve scenario_store 0 it scenario_t2 makeFunctionReferenceResolver
      = (Ok rr, w') ∧
    functionWtDistributionList_of (w_heap w') rr
      = [entry "fB" 30 30; entry "fA" 70 100] ∧
    functionWtDistributionList_of (w_heap w') rr
      ≠ [entry "fA" 70 70; entry "fB" 30 100].
Proof.
  exists [("fB"%string, 30); ("fA"%string, 70)]. eexists _, _.
  split; [|split; [vm_compute; reflexivity|split; [by vm_compute|by vm_compute]]].
  unfold map_range.
  replace (map_to_list (fr_FunctionWeights (tr_FunctionReference scenario_t2)))
    with [("fA"%string, 70); ("fB"%string, 30)] by (by vm_compute).
  apply perm_swap.
Qed.

(** C1, amended: for a by-weights trigger whose functions all exist,
    [resolve] succeeds and the entries of the distribution list come in the
    order in which a [range] over the weights yields the pairs: the order
    of this very call when the cache misses, the order of the call that
    filled the cache otherwise.  For the weights {"fA":70,"fB":30} the list
    is [("fA",70,70), ("fB",30,100)] or [("fB",30,30), ("fA",70,100)]. *)
Theorem resolve_weights_order spec_of funcInformer now it trigger w :
  reachable (declares spec_of) w →
  declares spec_of trigger →
  informers_keyed funcInformer →
  fr_Type (tr_FunctionReference trigger) =
    FunctionReferenceTypeFunctionWeights →
  map_range (fr_FunctionWeights (tr_FunctionReference trigger)) it →
  Forall (function_exists funcInformer (Namespace (tr_ObjectMeta trigger)))
    (referenced (tr_FunctionReference trigger)) →
  ∃ rr w',
    frr.resolve funcInformer now it trigger w = (Ok rr, w') ∧
    (cache.Get (refCache w) now (nfr_of trigger) = None →
     functionWtDistributionList_of (w_heap w') rr = weighted_distribution it) ∧
    (∃ it0,
       map_range (fr_FunctionWeights (tr_FunctionReference trigger)) it0 ∧
       functionWtDistributionList_of (w_heap w') rr
         = weighted_distribution it0) ∧
    (fr_FunctionWeights (tr_FunctionReference trigger)
       = {["fA"%string := 70; "fB"%string := 30]} →
     functionWtDistributionList_of (w_heap w') rr
       = [entry "fA" 70 70; entry "fB" 30 100] ∨
     functionWtDistributionList_of (w_heap w') rr
       = [entry "fB" 30 30; entry "fA" 70 100]).
Proof.
  intros Hreach Hdecl Hk Hty Hrange Hall.
  destruct (resolve_weights_total _ _ now _ _ _ Hreach Hdecl Hk Hty Hrange Hall)
    as (rr & w' & Hrun & Hres & Hmiss).
  exists rr, w'. split; [done|]. split; [done|].
  unfold built_for in Hres. rewrite Hty in Hres.
  destruct Hres as (_ & (it0 & Hrange0 & Hlist) & _).
  split; [by exists it0|].
  intros Hweights. rewrite Hlist. rewrite Hweights in Hrange0.
  apply (map_range_two _ ("fA"%string, 70) ("fB"%string, 30)) in Hrange0
    as [-> | ->]; [by left|by right|by vm_compute].
Qed.

Lemma resolve_weights_order_witness :
  ∃ rr w',
    frr.resolve scenario_store 0 [("fA"%string, 70); ("fB"%string, 30)]
      scenario_t2 makeFunctionReferenceResolver = (Ok rr, w') ∧
    functionWtDistributionList_of (w_heap w') rr
      = weighted_distribution [("fA"%string, 70); ("fB"%string, 30)].
Proof.
  destruct (resolve_weights_order (λ _, tr_FunctionReference scenario_t2)
              scenario_store 0 [("fA"%string, 70); ("fB"%string, 30)]
              scenario_t2 makeFunctionReferenceResolver)
    as (rr & w' & Hrun & Hmiss & _).
  - apply reach_make.
  - reflexivity.
  - apply informers_of_keyed.
  - reflexivity.
  - unfold map_range. vm_compute. reflexivity.
  - repeat constructor; eexists; eexists; (split; [reflexivity|]);
      vm_compute; reflexivity.
  - exists rr, w'. split; [exact Hrun|]. apply Hmiss. reflexivity.
Defined.

(** ** C2: the prefix sums *)

Lemma weighted_distribution_weights it :
  weight <$> weighted_distribution it = it.*2.
Proof.
  unfold weighted_distribution. generalize 0.
  induction it as [|[fn wt] it IH]; intros acc; simpl; [done|].
  by rewrite IH.
Qed.

(** As long as the sums stay within [int], the entries carry them. *)
Lemma weighted_distribution_cumulative it :
  Forall (λ wt, 0 ≤ wt) it.*2 →
  sum_weights it.*2 ≤ int_max →
  cumulative (weighted_distribution it).
Proof.
  intros Hpos Hmax i e. rewrite weighted_distribution_weights.
  unfold weighted_distribution.
  intros (fn & wt & _ & ->)%distribution_from_lookup. simpl.
  rewrite Z.add_0_l. apply int_wrap_id.
  pose proof (sum_weights_take_le it.*2 (S i) Hpos).
  unfold is_int, int_min, int_max, int_bits in *. lia.
Qed.

Lemma sum_weights_take_S (ws : list Z) i wt :
  ws !! i = Some wt →
  sum_weights (take (S i) ws) = sum_weights (take i ws) + wt.
Proof.
  intros Hi. rewrite (take_S_r _ _ _ Hi), sum_weights_app. simpl. lia.
Qed.

Lemma cumulative_step d i a b :
  cumulative d → d !! i = Some a → d !! S i = Some b →
  sumPrefix b = sumPrefix a + weight b.
Proof.
  intros Hc Ha Hb. rewrite (Hc _ _ Ha), (Hc _ _ Hb).
  apply sum_weights_take_S. by rewrite list_lookup_fmap, Hb.
Qed.

Lemma cumulative_last d e :
  cumulative d → last d = Some e → sumPrefix e = sum_weights (weight <$> d).
Proof.
  intros Hc Hlast. rewrite last_lookup in Hlast. rewrite (Hc _ _ Hlast).
  f_equal. apply take_ge. rewrite length_fmap.
  apply lookup_lt_Some in Hlast. lia.
Qed.

Lemma cumulative_non_decreasing d :
  cumulative d → Forall (λ wt, 0 ≤ wt) (weight <$> d) →
  prefix_sums_non_decreasing d.
Proof.
  intros Hc Hpos i a b Ha Hb. rewrite (cumulative_step d i a b Hc Ha Hb).
  rewrite Forall_forall in Hpos.
  assert (0 ≤ weight b); [|lia]. apply Hpos.
  apply list_elem_of_fmap. exists b. split; [done|].
  by apply list_elem_of_lookup_2 in Hb.
Qed.

Lemma cumulative_increase_on_positive d :
  cumulative d → prefix_sums_increase_on_positive d.
Proof.
  intros Hc i a b Ha Hb Hw. rewrite (cumulative_step d i a b Hc Ha Hb). lia.
Qed.

Lemma map_range_weights m it :
  map_range m it →
  it.*2 ≡ₚ (map_to_list m).*2 ∧
  (map_Forall (λ _ wt, 0 ≤ wt) m → Forall (λ wt, 0 ≤ wt) it.*2).
Proof.
  unfold map_range. intros Hp. split; [by rewrite Hp|].
  intros Hm. rewrite Forall_forall. intros wt.
  intros ([fn wt'] & -> & Hin)%list_elem_of_fmap.
  rewrite Hp in Hin. apply elem_of_map_to_list in Hin. by apply (Hm fn).
Qed.

(** C2, as stated, fails on two counts.  With the weights
    {"fA":-1,"fB":-1} the prefix sums are -1, -2 in either order, which
    is decreasing.  With the weights {"fA":2^63-1,"fB":1} the sum
    overflows [int]: the last prefix sum is -2^63 in either order, not the
    sum of the weights. *)
Lemma prefix_sums_counterexample :
  (∀ it, map_range {["fA"%string := -1; "fB"%string := -1]} it →
     ∃ rr w',
       frr.resolve scenario_store 0 it
         (trigger_by_weights "default" "t2" "v1"
            {["fA"%string := -1; "fB"%string := -1]})
         makeFunctionReferenceResolver = (Ok rr, w') ∧
       ¬ prefix_sums_non_decreasing
           (functionWtDistributionList_of (w_heap w') rr)) ∧
  (∀ it, map_range {["fA"%string := int_max; "fB"%string := 1]} it →
     ∃ rr w' e,
       frr.resolve scenario_store 0 it
         (trigger_by_weights "default" "t2" "v1"
            {["fA"%string := int_max; "fB"%string := 1]})
         makeFunctionReferenceResolver = (Ok rr, w') ∧
       last (functionWtDistributionList_of (w_heap w') rr) = Some e ∧
       sumPrefix e = int_min ∧
       sumPrefix e ≠
         sum_weights (weight <$> functionWtDistributionList_of (w_heap w') rr)).
Proof.
  split; intros it Hrange.
  - apply (map_range_two _ ("fA"%string, -1) ("fB"%string, -1)) in Hrange
      as [-> | ->]; [| |by vm_compute];
      eexists _, _; (split; [vm_compute; reflexivity|]);
      intros Hnd; vm_compute in Hnd;
      specialize (Hnd 0%nat _ _ eq_refl eq_refl); by apply Hnd.
  - apply (map_range_two _ ("fA"%string, int_max) ("fB"%string, 1)) in Hrange
      as [-> | ->]; [| |by vm_compute];
      eexists _, _, _; (split; [vm_compute; reflexivity|]);
      (split; [vm_compute; reflexivity|]); by vm_compute.
Qed.

(** C2, amended: for a by-weights trigger whose functions all exist,
    whose weights are not negative and sum up to an [int], every entry of
    the distribution list carries the sum of the weights up to and
    including its own, the last one the sum of all declared weights, and
    the prefix sums are non-decreasing, strictly increasing wherever the
    weight is positive.  The weights of the list are the declared ones, in
    the order of the list. *)
Theorem resolve_weights_prefix_sums spec_of funcInformer now it trigger w :
  reachable (declares spec_of) w →
  declares spec_of trigger →
  informers_keyed funcInformer →
  fr_Type (tr_FunctionReference trigger) =
    FunctionReferenceTypeFunctionWeights →
  map_range (fr_FunctionWeights (tr_FunctionReference trigger)) it →
  Forall (function_exists funcInformer (Namespace (tr_ObjectMeta trigger)))
    (referenced (tr_FunctionReference trigger)) →
  map_Forall (λ _ wt, 0 ≤ wt)
    (fr_FunctionWeights (tr_FunctionReference trigger)) →
  sum_weights (map_to_list (fr_FunctionWeights (tr_FunctionReference trigger))).*2
    ≤ int_max →
  ∃ rr w',
    frr.resolve funcInformer now it trigger w = (Ok rr, w') ∧
    let d := functionWtDistributionList_of (w_heap w') rr in
    weight <$> d ≡ₚ
      (map_to_list (fr_FunctionWeights (tr_FunctionReference trigger))).*2 ∧
    cumulative d ∧
    (∀ e, last d = Some e →
       sumPrefix e =
       sum_weights
         (map_to_list (fr_FunctionWeights (tr_FunctionReference trigger))).*2) ∧
    prefix_sums_non_decreasing d ∧
    prefix_sums_increase_on_positive d.
Proof.
  intros Hreach Hdecl Hk Hty Hrange Hall Hpos Hmax.
  destruct (resolve_weights_total _ _ now _ _ _ Hreach Hdecl Hk Hty Hrange Hall)
    as (rr & w' & Hrun & Hres & _).
  exists rr, w'. split; [done|]. cbv zeta.
  unfold built_for in Hres. rewrite Hty in Hres.
  destruct Hres as (_ & (it0 & Hrange0 & ->) & _).
  destruct (map_range_weights _ _ Hrange0) as [Hperm Hpos0].
  specialize (Hpos0 Hpos).
  assert (cumulative (weighted_distribution it0)) as Hc.
  { apply weighted_distribution_cumulative; [done|].
    by rewrite (sum_weights_perm _ _ Hperm). }
  split; [by rewrite weighted_distribution_weights|]. split; [done|].
  split; [|split].
  - intros e Hlast. rewrite (cumulative_last _ _ Hc Hlast).
    rewrite weighted_distribution_weights. by apply sum_weights_perm.
  - apply cumulative_non_decreasing; [done|].
    by rewrite weighted_distribution_weights.
  - by apply cumulative_increase_on_positive.
Qed.

Lemma resolve_weights_prefix_sums_witness :
  ∃ rr w',
    frr.resolve scenario_store 0 [("fA"%string, 70); ("fB"%string, 30)]
      scenario_t2 makeFunctionReferenceResolver = (Ok rr, w') ∧
    cumulative (functionWtDistributionList_of (w_heap w') rr) ∧
    prefix_sums_non_decreasing (functionWtDistributionList_of (w_heap w') rr).
Proof.
  destruct (resolve_weights_prefix_sums (λ _, tr_FunctionReference scenario_t2)
              scenario_store 0 [("fA"%string, 70); ("fB"%string, 30)]
              scenario_t2 makeFunctionReferenceResolver)
    as (rr & w' & Hrun & _ & Hc & _ & Hnd & _).
  - apply reach_make.
  - reflexivity.
  - apply informers_of_keyed.
  - reflexivity.
  - unfold map_range. vm_compute. reflexivity.
  - repeat constructor; eexists; eexists; (split; [reflexivity|]);
      vm_compute; reflexivity.
  - intros fn wt. simpl.
    rewrite lookup_insert_Some, lookup_singleton_Some. lia.
  - vm_compute. discriminate.
  - exists rr, w'. split; [exact Hrun|]. split; [exact Hc|exact Hnd].
Defined.

(** ** C3: a second [resolve] is served from the cache *)

(** After a successful [resolve] the result is in the cache, under the key
    of the trigger. *)
Lemma resolve_ok_cached funcInformer now it trigger w rr w1 :
  frr.resolve funcInformer now it trigger w = (Ok rr, w1) →
  ∃ e, cache.entries (refCache w1) !! nfr_of trigger = Some e ∧
       cache.value e = rr.
Proof.
  destruct (cache.Get (refCache w) now (nfr_of trigger)) as [res|] eqn:Hget.
  - rewrite (resolve_hit _ _ _ _ _ _ Hget). intros [= <- <-].
    apply cache_Get_Some in Hget as (e & He & Hv & _). by exists e.
  - rewrite (resolve_miss _ _ _ _ _ Hget).
    destruct (on_miss funcInformer it trigger w) as [[rr'|e] w'];
      intros [= <- <-].
    simpl. rewrite lookup_insert_eq. by eexists.
Qed.

(** On a miss, a successful [resolve] stores its result with the time of
    the call. *)
Lemma resolve_miss_entry funcInformer now it trigger w rr w1 :
  cache.Get (refCache w) now (nfr_of trigger) = None →
  frr.resolve funcInformer now it trigger w = (Ok rr, w1) →
  cache.entries (refCache w1) !! nfr_of trigger
    = Some {| cache.value := rr; cache.ctime := now |} ∧
  cache.ctimeExpiry (refCache w1) = cache.ctimeExpiry (refCache w).
Proof.
  intros Hget. rewrite (resolve_miss _ _ _ _ _ Hget).
  destruct (on_miss funcInformer it trigger w) as [[rr'|e] w'] eqn:Hmiss;
    intros [= <- <-].
  destruct (on_miss_frame _ _ _ _ _ _ Hmiss) as (Hc & _). simpl.
  by rewrite lookup_insert_eq, Hc.
Qed.

(** What [resolve] does to the entries of other keys, and to the
    configuration of the cache: nothing. *)
Lemma resolve_cache_frame funcInformer now it trigger w k :
  k ≠ nfr_of trigger →
  cache.entries (refCache (frr.resolve funcInformer now it trigger w).2) !! k
    = cache.entries (refCache w) !! k.
Proof.
  intros Hk.
  destruct (cache.Get (refCache w) now (nfr_of trigger)) as [res|] eqn:Hget.
  - by rewrite (resolve_hit _ _ _ _ _ _ Hget).
  - rewrite (resolve_miss _ _ _ _ _ Hget).
    destruct (on_miss funcInformer it trigger w) as [[rr'|e] w'] eqn:Hmiss;
      destruct (on_miss_frame _ _ _ _ _ _ Hmiss) as (Hc & _); simpl.
    + rewrite lookup_insert_ne by done. by rewrite Hc.
    + by rewrite Hc.
Qed.

Lemma resolve_ctimeExpiry funcInformer now it trigger w :
  cache.ctimeExpiry (refCache (frr.resolve funcInformer now it trigger w).2)
    = cache.ctimeExpiry (refCache w).
Proof.
  destruct (cache.Get (refCache w) now (nfr_of trigger)) as [res|] eqn:Hget.
  - by rewrite (resolve_hit _ _ _ _ _ _ Hget).
  - rewrite (resolve_miss _ _ _ _ _ Hget).
    destruct (on_miss funcInformer it trigger w) as [[rr'|e] w'] eqn:Hmiss;
      destruct (on_miss_frame _ _ _ _ _ _ Hmiss) as (Hc & _); simpl;
      by rewrite Hc.
Qed.

(** An entry that is live until the deadline stays where it is, as it is. *)
Lemma kept_entry k deadline w1 w2 e :
  world_ok w1 →
  cache.entries (refCache w1) !! k = Some e →
  deadline - cache.ctime e < cache.ctimeExpiry (refCache w1) →
  kept k deadline w1 w2 →
  cache.entries (refCache w2) !! k = Some e ∧
  cache.ctimeExpiry (refCache w2) = cache.ctimeExpiry (refCache w1) ∧
  world_ok w2 ∧
  heap_extends (w_heap w1) (w_heap w2).
Proof.
  intros Hok He Hlive.
  induction 1 as [w|inf now it T w1 w _ IH Hk Hrange Hnow
                  |ns tn rv w1 w _ IH Hne|now w1 w _ IH].
  - split; [done|]. split; [done|]. split; [done|apply heap_extends_refl].
  - destruct (IH Hok He Hlive) as (He' & Httl & Hok' & Hext).
    destruct (frr.resolve inf now it T w) as [r w'] eqn:Hrun.
    destruct (resolve_world_ok _ _ _ _ _ _ _ Hok' Hk Hrange Hrun)
      as (Hok'' & Hext' & _).
    pose proof (resolve_ctimeExpiry inf now it T w) as Httl'.
    rewrite Hrun in Httl'. simpl in *.
    split; [|split; [congruence|split; [done|by eapply heap_extends_trans]]].
    destruct (decide (k = nfr_of T)) as [->|Hkey].
    + assert (cache.Get (refCache w) now (nfr_of T) = Some (cache.value e))
        as Hget.
      { apply cache_Get_Some. exists e. split; [done|]. split; [done|]. lia. }
      rewrite (resolve_hit _ _ _ _ _ _ Hget) in Hrun. by injection Hrun as _ <-.
    + pose proof (resolve_cache_frame inf now it T w k Hkey) as Hfr.
      rewrite Hrun in Hfr. simpl in Hfr. by rewrite Hfr.
  - destruct (IH Hok He Hlive) as (He' & Httl & Hok' & Hext).
    split; [|split; [done|split; [by apply delete_world_ok|done]]].
    simpl. by rewrite lookup_delete_ne.
  - by apply IH.
Qed.

(** C3: when [resolve] has succeeded for a trigger, a later [resolve] for
    the same namespace, trigger name and version token, with no delete of
    that key in between and the entry not yet expired, returns the same
    result, reading the same map and list, and leaves the world as it is:
    the trace gets no event, so no store is looked up. *)
Theorem resolve_again_is_cached P funcInformer now it trigger w rr w1
    deadline w2 funcInformer' it' trigger' :
  reachable P w →
  informers_keyed funcInformer →
  map_range (fr_FunctionWeights (tr_FunctionReference trigger)) it →
  frr.resolve funcInformer now it trigger w = (Ok rr, w1) →
  (∀ e, cache.entries (refCache w1) !! nfr_of trigger = Some e →
        deadline - cache.ctime e < cache.ctimeExpiry (refCache w1)) →
  kept (nfr_of trigger) deadline w1 w2 →
  nfr_of trigger' = nfr_of trigger →
  frr.resolve funcInformer' deadline it' trigger' w2 = (Ok rr, w2) ∧
  w_trace (frr.resolve funcInformer' deadline it' trigger' w2).2 = w_trace w2 ∧
  functionMap_of (w_heap w2) rr = functionMap_of (w_heap w1) rr ∧
  functionWtDistributionList_of (w_heap w2) rr
    = functionWtDistributionList_of (w_heap w1) rr.
Proof.
  intros Hreach Hk Hrange Hrun Hlive Hkept Hkey.
  pose proof (reachable_world_ok _ _ Hreach) as Hok.
  destruct (resolve_world_ok _ _ _ _ _ _ _ Hok Hk Hrange Hrun)
    as (Hok1 & _ & Hres).
  destruct (Hres rr eq_refl) as [Hal _].
  destruct (resolve_ok_cached _ _ _ _ _ _ _ Hrun) as (e & He & Hv).
  destruct (kept_entry _ _ _ _ e Hok1 He (Hlive e He) Hkept)
    as (He2 & Httl & _ & Hext).
  assert (cache.Get (refCache w2) deadline (nfr_of trigger') = Some rr) as Hget.
  { rewrite Hkey. apply cache_Get_Some. exists e. split; [done|].
    split; [done|]. rewrite Httl. by apply Hlive. }
  rewrite (resolve_hit _ _ _ _ _ _ Hget). split; [done|]. split; [done|].
  destruct Hok1 as [Hheap1 _].
  by destruct (allocated_extends _ _ rr Hheap1 Hext Hal) as (_ & ? & ?).
Qed.

Lemma resolve_again_is_cached_witness :
  ∃ rr w1,
    frr.resolve scenario_store 0 [] scenario_t1 makeFunctionReferenceResolver
      = (Ok rr, w1) ∧
    frr.resolve (informers_of []) 5 [] scenario_t1 w1 = (Ok rr, w1).
Proof.
  destruct (frr.resolve scenario_store 0 [] scenario_t1
              makeFunctionReferenceResolver) as [[rr|e] w1] eqn:Hrun;
    [|vm_compute in Hrun; discriminate Hrun].
  exists rr, w1. split; [reflexivity|].
  refine (proj1 (resolve_again_is_cached (λ _, True) scenario_store 0 []
                   scenario_t1 makeFunctionReferenceResolver rr w1 5 w1
                   (informers_of []) [] scenario_t1 _ _ _ Hrun _ _ _)).
  - apply reach_make.
  - apply informers_of_keyed.
  - unfold map_range. vm_compute. reflexivity.
  - destruct (resolve_miss_entry scenario_store 0 [] scenario_t1
                makeFunctionReferenceResolver rr w1 eq_refl Hrun) as [-> ->].
    intros e [= <-]. reflexivity.
  - apply kept_refl.
  - reflexivity.
Defined.

(** ** C4: errors are not cached *)

Lemma resolve_err_miss funcInformer now it trigger w e w1 :
  frr.resolve funcInformer now it trigger w = (Err e, w1) →
  cache.Get (refCache w) now (nfr_of trigger) = None ∧
  on_miss funcInformer it trigger w = (Err e, w1).
Proof.
  destruct (cache.Get (refCache w) now (nfr_of trigger)) as [res|] eqn:Hget.
  - by rewrite (resolve_hit _ _ _ _ _ _ Hget).
  - rewrite (resolve_miss _ _ _ _ _ Hget).
    by destruct (on_miss funcInformer it trigger w) as [[rr'|e'] w'];
      intros [= <- <-].
Qed.

(** An explained error has its condition, and the condition rules out that
    the kind is known and every referenced function in place. *)
Lemma error_explained_condition funcInformer trigger evs e :
  resolve_error_explained funcInformer trigger evs e →
  error_condition funcInformer trigger.
Proof.
  intros [(kind & Hty & _)|[(_ & Hnone & Hne & _)|[(fn & Hin & _ & Habs & _)
                                                   |(fn & x & Hin & _ & Hf & _)]]].
  - left. by exists kind.
  - right; left. done.
  - right; right; left. by exists fn.
  - right; right; right. by exists fn, x.
Qed.

Lemma error_condition_not_ok funcInformer trigger :
  error_condition funcInformer trigger →
  Forall (function_exists funcInformer (Namespace (tr_ObjectMeta trigger)))
    (referenced (tr_FunctionReference trigger)) →
  (∀ kind, fr_Type (tr_FunctionReference trigger) ≠
             FunctionReferenceTypeOther kind) →
  False.
Proof.
  intros [(kind & Hty)|[(Hne & Hnone)|[(fn & Hin & Habs)|(fn & x & Hin & Hf)]]]
    Hall Hkind; rewrite Forall_forall in Hall.
  - by apply (Hkind kind).
  - destruct (referenced (tr_FunctionReference trigger)) as [|fn l]; [done|].
    destruct (Hall fn (list_elem_of_here _ _)) as (f & s & Hs & _). congruence.
  - destruct (Hall fn Hin) as (f & s & Hs & Hget).
    destruct Habs as (s' & Hs' & Hget'). congruence.
  - destruct (Hall fn Hin) as (f & s & Hs & Hget).
    destruct Hf as (s' & Hs' & Hget'). congruence.
Qed.

(** C4: when [resolve] returns an error, the cache is what it was, there
    is nothing to get under the key of the trigger from then on, and the
    same [resolve], made again, however the weights are ranged over, goes
    through the resolution again: it returns an error, caches nothing, and
    the function it reports missing is one it has just looked up. *)
Theorem resolve_error_not_cached funcInformer now it trigger w e w1 :
  map_range (fr_FunctionWeights (tr_FunctionReference trigger)) it →
  frr.resolve funcInformer now it trigger w = (Err e, w1) →
  refCache w1 = refCache w ∧
  (∀ now', now ≤ now' →
     cache.Get (refCache w1) now' (nfr_of trigger) = None) ∧
  (∃ evs, w_trace w1 = w_trace w ++ evs ∧
          resolve_error_explained funcInformer trigger evs e) ∧
  (∀ now' it', now ≤ now' →
     map_range (fr_FunctionWeights (tr_FunctionReference trigger)) it' →
     ∃ e' w2 evs',
       frr.resolve funcInformer now' it' trigger w1 = (Err e', w2) ∧
       refCache w2 = refCache w ∧
       w_trace w2 = w_trace w1 ++ evs' ∧
       resolve_error_explained funcInformer trigger evs' e').
Proof.
  intros Hrange Hrun.
  destruct (resolve_err_miss _ _ _ _ _ _ _ Hrun) as [Hget Hmiss].
  destruct (on_miss_frame _ _ _ _ _ _ Hmiss) as (Hc & _).
  destruct (on_miss_outcome _ _ _ _ _ _ Hrange Hmiss) as (evs & Ht & _ & Hex).
  assert (∀ now', now ≤ now' →
            cache.Get (refCache w1) now' (nfr_of trigger) = None) as Hlater.
  { intros now' Hnow. rewrite Hc. apply cache_Get_None. intros en Hen.
    rewrite cache_Get_None in Hget. specialize (Hget en Hen). lia. }
  split; [done|]. split; [done|]. split; [by exists evs|].
  intros now' it' Hnow Hrange'.
  rewrite (resolve_miss _ _ _ _ _ (Hlater now' Hnow)).
  destruct (on_miss funcInformer it' trigger w1) as [[rr'|e'] w2] eqn:Hmiss'.
  - destruct (on_miss_outcome _ _ _ _ _ _ Hrange' Hmiss')
      as (_ & _ & _ & Hall & Hkind).
    destruct (error_condition_not_ok _ _
                (error_explained_condition _ _ _ _ Hex) Hall Hkind).
  - destruct (on_miss_frame _ _ _ _ _ _ Hmiss') as (Hc' & _).
    destruct (on_miss_outcome _ _ _ _ _ _ Hrange' Hmiss')
      as (evs' & Ht' & _ & Hex').
    exists e', w2, evs'. split; [done|]. split; [congruence|]. by split.
Qed.

Lemma resolve_error_not_cached_witness :
  ∃ w1,
    frr.resolve (informers_of [function_object "default" "fA" "code"]) 0
      [("fA"%string, 70); ("fB"%string, 30)] scenario_t2
      makeFunctionReferenceResolver
      = (Err (ErrFunctionNotExist "default" "fB"), w1) ∧
    refCache w1 = refCache makeFunctionReferenceResolver.
Proof.
  eexists. split; [vm_compute; reflexivity|].
  refine (proj1 (resolve_error_not_cached
                   (informers_of [function_object "default" "fA" "code"]) 0
                   [("fA"%string, 70); ("fB"%string, 30)] scenario_t2
                   makeFunctionReferenceResolver
                   (ErrFunctionNotExist "default" "fB") _ _ _)).
  - unfold map_range. vm_compute. reflexivity.
  - vm_compute. reflexivity.
Defined.

(** ** C5: when [resolve] returns an error *)

(** C5, as stated, fails on three counts.  On a cache hit [resolve] returns
    the cached result although the function has gone from the store.  A
    by-weights trigger without weights resolves although no store is
    registered for its namespace.  And an error of the store itself makes
    [resolve] fail although none of the three conditions holds. *)
Lemma error_iff_counterexample :
  (∃ rr w1,
     frr.resolve scenario_store 0 [] scenario_t1 makeFunctionReferenceResolver
       = (Ok rr, w1) ∧
     stated_error_condition (informers_of []) scenario_t1 ∧
     frr.resolve (informers_of []) 1 [] scenario_t1 w1 = (Ok rr, w1)) ∧
  (∃ rr w1,
     stated_error_condition ∅ (trigger_by_weights "default" "t3" "v1" ∅) ∧
     frr.resolve ∅ 0 [] (trigger_by_weights "default" "t3" "v1" ∅)
       makeFunctionReferenceResolver = (Ok rr, w1)) ∧
  (∃ w1,
     ¬ stated_error_condition {["default"%string := store_failing "down"]}
         scenario_t1 ∧
     frr.resolve {["default"%string := store_failing "down"]} 0 []
       scenario_t1 makeFunctionReferenceResolver
       = (Err (ErrStore "down"), w1)).
Proof.
  split; [|split].
  - eexists _, _. split; [vm_compute; reflexivity|].
    split; [|vm_compute; reflexivity].
    right; right. exists "f1"%string. split; [apply list_elem_of_here|].
    eexists. split; reflexivity.
  - eexists _, _. split; [|vm_compute; reflexivity]. right; left. reflexivity.
  - eexists. split; [|vm_compute; reflexivity].
    intros [(kind & Hty)|[Hnone|(fn & Hin & s & Hs & Hget)]].
    + discriminate Hty.
    + discriminate Hnone.
    + simpl in Hs. apply lookup_singleton_Some in Hs as [_ <-].
      discriminate Hget.
Qed.

(** C5, amended: on a cache hit [resolve] returns the cached result, and
    no error.  On a cache miss it returns an error if and only if the
    kind of the reference is not recognized, or a function is to be looked
    up and no store is registered for the namespace, or a referenced
    function is absent from the store, or the store fails on a referenced
    function; otherwise it returns a result.  The error names the kind,
    the namespace or the function it is about, and within the call no
    function is looked up twice. *)
Theorem resolve_error_iff funcInformer now it trigger w :
  map_range (fr_FunctionWeights (tr_FunctionReference trigger)) it →
  (∀ result, cache.Get (refCache w) now (nfr_of trigger) = Some result →
     frr.resolve funcInformer now it trigger w = (Ok result, w)) ∧
  (cache.Get (refCache w) now (nfr_of trigger) = None →
   ((∃ e w', frr.resolve funcInformer now it trigger w = (Err e, w')) ↔
    error_condition funcInformer trigger) ∧
   (¬ error_condition funcInformer trigger →
    ∃ rr w', frr.resolve funcInformer now it trigger w = (Ok rr, w'))) ∧
  (∀ r w', frr.resolve funcInformer now it trigger w = (r, w') →
   ∃ evs, w_trace w' = w_trace w ++ evs ∧ NoDup (lookups_of evs) ∧
     match r with
     | Err e => resolve_error_explained funcInformer trigger evs e
     | Ok _ => True
     end).
Proof.
  intros Hrange. split; [by intros result; apply resolve_hit|].
  destruct (cache.Get (refCache w) now (nfr_of trigger)) as [res|] eqn:Hget.
  { split; [done|]. rewrite (resolve_hit _ _ _ _ _ _ Hget).
    intros r w' [= <- <-]. exists []. rewrite app_nil_r.
    split; [done|]. split; [constructor|done]. }
  rewrite (resolve_miss _ _ _ _ _ Hget).
  destruct (on_miss funcInformer it trigger w) as [[rr|e] w1] eqn:Hmiss;
    destruct (on_miss_outcome _ _ _ _ _ _ Hrange Hmiss) as (evs & Ht & Hnd & Hr).
  - destruct Hr as [Hall Hkind].
    assert (¬ error_condition funcInformer trigger) as Hnot.
    { intros Hc. by apply (error_condition_not_ok _ _ Hc). }
    split; [intros _; split|].
    + split; [by intros (e & w' & [=])|done].
    + intros _. by eexists _, _.
    + intros r w' [= <- <-]. exists evs. split; [exact Ht|by split].
  - pose proof (error_explained_condition _ _ _ _ Hr) as Hc.
    split; [intros _; split|].
    + split; [done|]. intros _. by exists e, w1.
    + done.
    + intros r w' [= <- <-]. by exists evs.
Qed.

Lemma resolve_error_iff_witness :
  (∃ e w',
     frr.resolve (informers_of []) 0 [] scenario_t1
       makeFunctionReferenceResolver = (Err e, w')) ↔
  error_condition (informers_of []) scenario_t1.
Proof.
  refine (proj1 (proj1 (proj2 (resolve_error_iff (informers_of []) 0 []
                                 scenario_t1 makeFunctionReferenceResolver _))
                   _)).
  - unfold map_range. vm_compute. reflexivity.
  - reflexivity.
Defined.

(** ** C6: [delete] removes one key *)

(** C6: [delete] never fails and touches nothing but the entry under the
    very key it is given: that entry is gone, every other entry, one for
    the same trigger under another version token included, stays in place
    and is got as before; with no entry under the key, the world is left
    as it is. *)
Theorem delete_exact_key ns tn rv w :
  let k := {| namespace := ns; triggerName := tn;
              triggerResourceVersion := rv |} in
  let w' := (frr.delete ns tn rv w).2 in
  (frr.delete ns tn rv w).1 = Ok tt ∧
  cache.entries (refCache w') !! k = None ∧
  (∀ k', k' ≠ k →
     cache.entries (refCache w') !! k' = cache.entries (refCache w) !! k') ∧
  (∀ k' now, k' ≠ k →
     cache.Get (refCache w') now k' = cache.Get (refCache w) now k') ∧
  (∀ rv' now, rv' ≠ rv →
     cache.Get (refCache w') now
       {| namespace := ns; triggerName := tn; triggerResourceVersion := rv' |}
     = cache.Get (refCache w) now
         {| namespace := ns; triggerName := tn;
            triggerResourceVersion := rv' |}) ∧
  (cache.entries (refCache w) !! k = None → w' = w) ∧
  w_heap w' = w_heap w ∧ w_trace w' = w_trace w.
Proof.
  intros k w'. subst w'. simpl.
  assert (∀ k' now, k' ≠ k →
            cache.Get (cache.Delete (refCache w) k) now k'
              = cache.Get (refCache w) now k') as Hget.
  { intros k' now Hne. unfold cache.Get, cache.live. simpl.
    by rewrite lookup_delete_ne. }
  split; [done|]. split; [apply lookup_delete_eq|].
  split; [by intros k' Hne; apply lookup_delete_ne|]. split; [done|].
  split; [|split; [|done]].
  - intros rv' now Hne. apply Hget. subst k. by intros [= ->].
  - intros Habs. destruct w as [h [en ct at_] t]. unfold set_refCache.
    simpl in *. unfold cache.Delete. simpl. by rewrite delete_id.
Qed.

(** ** C7: a by-name resolution *)

(** C7, as stated, fails on a cache hit: when the function object has
    been replaced in the store since the trigger was first resolved,
    [resolve] still returns the object it has cached, not the one found
    in the store. *)
Lemma by_name_counterexample :
  ∃ rr w1 rr2 w2,
    frr.resolve scenario_store 0 [] scenario_t1 makeFunctionReferenceResolver
      = (Ok rr, w1) ∧
    function_found
      (informers_of [function_object "default" "f1" "new code"])
      "default" "f1" (function_object "default" "f1" "new code") ∧
    frr.resolve (informers_of [function_object "default" "f1" "new code"])
      1 [] scenario_t1 w1 = (Ok rr2, w2) ∧
    functionMap_of (w_heap w2) rr2 !! "f1"%string
      = Some (function_object "default" "f1" "code") ∧
    functionMap_of (w_heap w2) rr2
      ≠ {["f1"%string := function_object "default" "f1" "new code"]}.
Proof.
  eexists _, _, _, _. split; [vm_compute; reflexivity|].
  split; [eexists; split; reflexivity|].
  split; [vm_compute; reflexivity|].
  split; [vm_compute; reflexivity|].
  intros Heq. apply (f_equal (λ m, m !! "f1"%string)) in Heq.
  vm_compute in Heq. discriminate Heq.
Qed.

(** C7, amended: for a by-name trigger whose function exists in the
    store of its namespace, [resolve] returns, without error, a
    single-function result whose map has exactly one entry, under the
    referenced name.  With nothing live in the cache under the key of the
    trigger, that entry is the object found in the store; otherwise it is
    the object of the cached result. *)
Theorem resolve_by_name spec_of funcInformer now it trigger w f :
  reachable (declares spec_of) w →
  declares spec_of trigger →
  informers_keyed funcInformer →
  fr_Type (tr_FunctionReference trigger) = FunctionReferenceTypeFunctionName →
  function_found funcInformer (Namespace (tr_ObjectMeta trigger))
    (fr_Name (tr_FunctionReference trigger)) f →
  ∃ rr w',
    frr.resolve funcInformer now it trigger w = (Ok rr, w') ∧
    rr_resolveResultType rr = resolveResultSingleFunction ∧
    functionWtDistributionList_of (w_heap w') rr = [] ∧
    (∃ g, Name (fn_ObjectMeta g) = fr_Name (tr_FunctionReference trigger) ∧
          functionMap_of (w_heap w') rr
            = {[fr_Name (tr_FunctionReference trigger) := g]}) ∧
    size (functionMap_of (w_heap w') rr) = 1%nat ∧
    (cache.Get (refCache w) now (nfr_of trigger) = None →
     functionMap_of (w_heap w') rr
       = {[fr_Name (tr_FunctionReference trigger) := f]}).
Proof.
  intros Hreach Hdecl Hk Hty Hf.
  pose proof (reachable_world_ok _ _ Hreach) as Hok.
  pose proof (reachable_built _ _ Hreach) as Hbuilt.
  destruct (function_found_keyed _ _ _ _ Hk Hf) as [_ Hname].
  assert (∃ rr w',
            frr.resolve funcInformer now it trigger w = (Ok rr, w') ∧
            built_for (w_heap w') (tr_FunctionReference trigger) rr ∧
            (cache.Get (refCache w) now (nfr_of trigger) = None →
             functionMap_of (w_heap w') rr
               = {[fr_Name (tr_FunctionReference trigger) := f]}))
    as (rr & w' & Hrun & Hres & Hmiss).
  { destruct (cache.Get (refCache w) now (nfr_of trigger)) as [res|] eqn:Hget.
    - exists res, w. split; [by apply resolve_hit|]. split; [|done].
      apply cache_Get_Some in Hget as (e & He & <- & _).
      rewrite Hdecl. by apply Hbuilt.
    - rewrite (resolve_miss _ _ _ _ _ Hget).
      rewrite (on_miss_name_found _ _ _ _ f Hty Hf).
      eexists _, _. split; [done|].
      assert (functionMap_of
                {| h_maps := <[h_next (w_heap w) := {[Name (fn_ObjectMeta f) := f]}]>
                               (h_maps (w_heap w));
                   h_slices := h_slices (w_heap w);
                   h_next := h_next (w_heap w) + 1 |}
                {| rr_resolveResultType := resolveResultSingleFunction;
                   functionMap := h_next (w_heap w);
                   functionWtDistributionList := None |}
              = {[fr_Name (tr_FunctionReference trigger) := f]}) as Hmap.
      { unfold functionMap_of. simpl. rewrite lookup_insert_eq. simpl.
        by rewrite Hname. }
      split; [|done]. unfold built_for. rewrite Hty.
      split; [done|]. split; [done|]. by exists f. }
  exists rr, w'. split; [done|].
  unfold built_for in Hres. rewrite Hty in Hres.
  destruct Hres as (Htag & Hnil & g & Hg & Hmap).
  split; [done|]. split; [done|]. split; [by exists g|].
  split; [|done]. rewrite Hmap. apply map_size_singleton.
Qed.

Lemma resolve_by_name_witness :
  ∃ rr w',
    frr.resolve scenario_store 0 [] scenario_t1 makeFunctionReferenceResolver
      = (Ok rr, w') ∧
    functionMap_of (w_heap w') rr
      = {["f1"%string := function_object "default" "f1" "code"]}.
Proof.
  destruct (resolve_by_name (λ _, tr_FunctionReference scenario_t1)
              scenario_store 0 [] scenario_t1 makeFunctionReferenceResolver
              (function_object "default" "f1" "code"))
    as (rr & w' & Hrun & _ & _ & _ & _ & Hmap).
  - apply reach_make.
  - reflexivity.
  - apply informers_of_keyed.
  - reflexivity.
  - eexists. split; reflexivity.
  - exists rr, w'. split; [exact Hrun|]. apply Hmap. reflexivity.
Defined.

(** ** C8: the names of the map and of the list *)

Lemma cache_Copy_Some {V} (c : cache.Cache namespacedTriggerReference V)
    now k v :
  cache.Copy c now !! k = Some v →
  ∃ e, cache.entries c !! k = Some e ∧ cache.value e = v.
Proof.
  unfold cache.Copy. rewrite lookup_fmap.
  destruct (filter _ (cache.entries c) !! k) as [e|] eqn:He; [|done].
  simpl. intros [= <-]. apply map_lookup_filter_Some in He as [He _].
  by exists e.
Qed.

(** A snapshot holds, under a key, what [Get] gives for it. *)
Lemma cache_Copy_lookup {V} (c : cache.Cache namespacedTriggerReference V)
    now k :
  cache.Copy c now !! k = cache.Get c now k.
Proof.
  unfold cache.Copy, cache.Get. rewrite lookup_fmap.
  destruct (cache.entries c !! k) as [e|] eqn:He.
  - destruct (cache.live c now e) eqn:Hlive.
    + erewrite (proj2 (map_lookup_filter_Some _ _ k e)); [done|]. by split.
    + rewrite (proj2 (map_lookup_filter_None _ _ k)); [done|].
      right. intros e' He'. simpl. congruence.
  - rewrite (proj2 (map_lookup_filter_None _ _ k)); [done|]. by left.
Qed.

(** C8: in every world the resolver gets to, the results in the cache,
    the results [resolve] returns and the results in a snapshot all have
    this: where the distribution list is not empty, the names of the
    function map are exactly the names in the list. *)
Theorem function_map_names_match P w :
  reachable P w →
  (∀ k e, cache.entries (refCache w) !! k = Some e →
     keys_match (w_heap w) (cache.value e)) ∧
  (∀ funcInformer now it trigger rr w',
     informers_keyed funcInformer →
     map_range (fr_FunctionWeights (tr_FunctionReference trigger)) it →
     frr.resolve funcInformer now it trigger w = (Ok rr, w') →
     keys_match (w_heap w') rr) ∧
  (∀ now m k rr,
     frr.copy now w = (Ok m, w) → m !! k = Some rr →
     keys_match (w_heap w) rr).
Proof.
  intros Hreach. pose proof (reachable_world_ok _ _ Hreach) as Hok.
  split; [|split].
  - intros k e He. destruct Hok as [_ Hcache]. by apply (Hcache k e).
  - intros inf now it T rr w' Hk Hrange Hrun.
    destruct (resolve_world_ok _ _ _ _ _ _ _ Hok Hk Hrange Hrun)
      as (_ & _ & Hres). by apply Hres.
  - intros now m k rr [= <-] (e & He & <-)%cache_Copy_Some.
    destruct Hok as [_ Hcache]. by apply (Hcache k e).
Qed.

Lemma function_map_names_match_witness :
  ∃ rr w',
    frr.resolve scenario_store 0 [("fB"%string, 30); ("fA"%string, 70)]
      scenario_t2 makeFunctionReferenceResolver = (Ok rr, w') ∧
    keys_match (w_heap w') rr.
Proof.
  destruct (frr.resolve scenario_store 0 [("fB"%string, 30); ("fA"%string, 70)]
              scenario_t2 makeFunctionReferenceResolver)
    as [[rr|e] w'] eqn:Hrun; [|vm_compute in Hrun; discriminate Hrun].
  exists rr, w'. split; [reflexivity|].
  refine (proj1 (proj2 (function_map_names_match (λ _, True)
                          makeFunctionReferenceResolver _))
            scenario_store 0 [("fB"%string, 30); ("fA"%string, 70)]
            scenario_t2 rr w' _ _ Hrun).
  - apply reach_make.
  - apply informers_of_keyed.
  - unfold map_range.
    replace (map_to_list (fr_FunctionWeights (tr_FunctionReference scenario_t2)))
      with [("fA"%string, 70); ("fB"%string, 30)] by (vm_compute; reflexivity).
    apply perm_swap.
Defined.

(** ** C9: what callers share with the cache *)

(** C9, as stated, fails: the function map of the result that [resolve]
    returns, and of the result found in a snapshot, is the map of the
    cached entry.  A caller that stores another object under "f1" in the
    map of either changes what the cache holds under the key. *)
Lemma callers_copy_counterexample :
  ∃ rr w1 snapshot from_snapshot cached,
    frr.resolve scenario_store 0 [] scenario_t1 makeFunctionReferenceResolver
      = (Ok rr, w1) ∧
    frr.copy 1 w1 = (Ok snapshot, w1) ∧
    snapshot !! nfr_of scenario_t1 = Some from_snapshot ∧
    cache.Get (refCache w1) 1 (nfr_of scenario_t1) = Some cached ∧
    functionMap_of (w_heap w1) cached !! "f1"%string
      = Some (function_object "default" "f1" "code") ∧
    functionMap_of
      (heap_map_assign (functionMap rr) "f1"
         (function_object "default" "f1" "tampered") (w_heap w1))
      cached !! "f1"%string
      = Some (function_object "default" "f1" "tampered") ∧
    functionMap_of
      (heap_map_assign (functionMap from_snapshot) "f1"
         (function_object "default" "f1" "tampered") (w_heap w1))
      cached !! "f1"%string
      = Some (function_object "default" "f1" "tampered").
Proof.
  eexists _, _, _, _, _. split; [vm_compute; reflexivity|].
  split; [reflexivity|].
  split; [rewrite cache_Copy_lookup; vm_compute; reflexivity|].
  split; [vm_compute; reflexivity|].
  split; [vm_compute; reflexivity|].
  split; vm_compute; reflexivity.
Qed.

Lemma functionMap_of_assign h rr fn g :
  functionMap_of (heap_map_assign (functionMap rr) fn g h) rr
    = <[fn := g]> (functionMap_of h rr).
Proof.
  unfold functionMap_of, heap_map_assign. simpl. by rewrite lookup_insert_eq.
Qed.

Lemma functionWtDistributionList_of_store h h' rr s i x :
  functionWtDistributionList rr = Some s →
  heap_slice_store s i x h = Some h' →
  functionWtDistributionList_of h' rr
    = <[i := x]> (functionWtDistributionList_of h rr).
Proof.
  unfold functionWtDistributionList_of, heap_slice_store. intros ->.
  case_decide; [|done]. intros [= <-]. simpl. by rewrite lookup_insert_eq.
Qed.

(** C9, amended: what callers receive is a copy of the result struct
    only.  The result that [resolve] returns is, field by field, the one
    in the cache under the key of the trigger, and so is every result in a
    snapshot: their function map and distribution list are those of the
    cached entry, and whatever a caller stores in them is stored in the
    cached entry. *)
Theorem returned_results_share funcInformer now it trigger w rr w' :
  frr.resolve funcInformer now it trigger w = (Ok rr, w') →
  (∃ e, cache.entries (refCache w') !! nfr_of trigger = Some e ∧
        cache.value e = rr) ∧
  (∀ now' snapshot k rr',
     frr.copy now' w' = (Ok snapshot, w') → snapshot !! k = Some rr' →
     ∃ e, cache.entries (refCache w') !! k = Some e ∧ cache.value e = rr') ∧
  (∀ e fn g,
     cache.entries (refCache w') !! nfr_of trigger = Some e →
     functionMap_of (heap_map_assign (functionMap rr) fn g (w_heap w'))
       (cache.value e)
     = <[fn := g]> (functionMap_of (w_heap w') (cache.value e))) ∧
  (∀ e s i x h,
     cache.entries (refCache w') !! nfr_of trigger = Some e →
     functionWtDistributionList rr = Some s →
     heap_slice_store s i x (w_heap w') = Some h →
     functionWtDistributionList_of h (cache.value e)
     = <[i := x]> (functionWtDistributionList_of (w_heap w') (cache.value e))).
Proof.
  intros Hrun.
  destruct (resolve_ok_cached _ _ _ _ _ _ _ Hrun) as (e & He & Hv).
  split; [by exists e|]. split; [|split].
  - intros now' snapshot k rr' [= <-] Hk. by apply cache_Copy_Some in Hk.
  - intros e' fn g He'. rewrite He in He'. injection He' as <-.
    rewrite Hv. apply functionMap_of_assign.
  - intros e' s i x h He' Hs Hstore. rewrite He in He'. injection He' as <-.
    rewrite Hv. by apply (functionWtDistributionList_of_store _ _ _ s).
Qed.

Lemma returned_results_share_witness :
  ∃ rr w',
    frr.resolve scenario_store 0 [] scenario_t1 makeFunctionReferenceResolver
      = (Ok rr, w') ∧
    ∃ e, cache.entries (refCache w') !! nfr_of scenario_t1 = Some e ∧
         cache.value e = rr.
Proof.
  destruct (frr.resolve scenario_store 0 [] scenario_t1
              makeFunctionReferenceResolver) as [[rr|e] w'] eqn:Hrun;
    [|vm_compute in Hrun; discriminate Hrun].
  exists rr, w'. split; [reflexivity|].
  exact (proj1 (returned_results_share scenario_store 0 []
                  scenario_t1 makeFunctionReferenceResolver rr w' Hrun)).
Defined.

(** ** C10: the tag and the reference kind *)

(** C10: with triggers whose key determines their reference, a result
    that [resolve] returns, from the cache or not, has the tag of the kind
    of the trigger: for a by-name trigger the single-function tag and an
    empty list; for a by-weights trigger the multiple-functions tag and a
    list with exactly one entry per declared pair of name and weight, all
    names distinct.  [resolve] never returns a result for another kind. *)
Theorem result_type_consistent spec_of funcInformer now it trigger w rr w' :
  reachable (declares spec_of) w →
  declares spec_of trigger →
  informers_keyed funcInformer →
  map_range (fr_FunctionWeights (tr_FunctionReference trigger)) it →
  frr.resolve funcInformer now it trigger w = (Ok rr, w') →
  match fr_Type (tr_FunctionReference trigger) with
  | FunctionReferenceTypeFunctionName =>
      rr_resolveResultType rr = resolveResultSingleFunction ∧
      functionWtDistributionList_of (w_heap w') rr = []
  | FunctionReferenceTypeFunctionWeights =>
      rr_resolveResultType rr = resolveResultMultipleFunctions ∧
      (λ d, (name d, weight d)) <$> functionWtDistributionList_of (w_heap w') rr
        ≡ₚ map_to_list (fr_FunctionWeights (tr_FunctionReference trigger)) ∧
      NoDup (name <$> functionWtDistributionList_of (w_heap w') rr)
  | FunctionReferenceTypeOther _ => False
  end.
Proof.
  intros Hreach Hdecl Hk Hrange Hrun.
  pose proof (reachable_world_ok _ _ Hreach) as Hok.
  pose proof (reachable_built _ _ Hreach) as Hbuilt.
  destruct (resolve_built _ _ _ _ _ _ _ _ Hok Hbuilt Hdecl Hk Hrange Hrun)
    as [_ Hres].
  specialize (Hres rr eq_refl). unfold built_for in Hres.
  destruct (fr_Type (tr_FunctionReference trigger)) as [| |kind]; [|
    |done].
  - by destruct Hres as (Htag & Hnil & _).
  - destruct Hres as (Htag & (it0 & Hrange0 & ->) & _).
    split; [done|]. unfold weighted_distribution.
    rewrite distribution_from_pairs, distribution_from_names.
    split; [done|]. by destruct (map_range_names _ _ Hrange0).
Qed.

Lemma result_type_consistent_witness :
  ∃ rr w',
    frr.resolve scenario_store 0 [("fA"%string, 70); ("fB"%string, 30)]
      scenario_t2 makeFunctionReferenceResolver = (Ok rr, w') ∧
    rr_resolveResultType rr = resolveResultMultipleFunctions ∧
    (λ d, (name d, weight d)) <$> functionWtDistributionList_of (w_heap w') rr
      ≡ₚ map_to_list (fr_FunctionWeights (tr_FunctionReference scenario_t2)) ∧
    NoDup (name <$> functionWtDistributionList_of (w_heap w') rr).
Proof.
  destruct (frr.resolve scenario_store 0 [("fA"%string, 70); ("fB"%string, 30)]
              scenario_t2 makeFunctionReferenceResolver)
    as [[rr|e] w'] eqn:Hrun; [|vm_compute in Hrun; discriminate Hrun].
  exists rr, w'. split; [reflexivity|].
  refine (result_type_consistent (λ _, tr_FunctionReference scenario_t2)
            scenario_store 0 [("fA"%string, 70); ("fB"%string, 30)]
            scenario_t2 makeFunctionReferenceResolver rr w' _ _ _ _ Hrun).
  - apply reach_make.
  - reflexivity.
  - apply informers_of_keyed.
  - unfold map_range. vm_compute. reflexivity.
Defined.

(** * Further properties of the resolver *)

(** ** [resolveByFunctionWeights]: where the loop stops *)

Lemma loop_first_failure funcInformer ns fm sl s it w r w' :
  frr.resolveByFunctionWeights_loop funcInformer ns fm sl s it w = (r, w') →
  ∃ evs, w_trace w' = w_trace w ++ evs ∧
    match r with
    | Ok _ => evs = (λ p, EvStoreGet ns p.1) <$> it
    | Err e =>
        ∃ pre fn wt post,
          it = pre ++ (fn, wt) :: post ∧
          Forall (λ p, function_exists funcInformer ns p.1) pre ∧
          ¬ function_exists funcInformer ns fn ∧
          lookups_of evs =
            (λ fn, (ns, fn)) <$>
              (pre.*1 ++ match funcInformer !! ns with
                         | Some _ => [fn]
                         | None => []
                         end)
    end.
Proof.
  revert s w. induction it as [|[fn wt] it IH]; intros s w.
  - simpl. unfold ret. intros [= <- <-]. exists []. by rewrite app_nil_r.
  - rewrite loop_cons.
    destruct (funcInformer !! ns) as [st|] eqn:Hst.
    2:{ intros [= <- <-]. exists []. rewrite app_nil_r. split; [done|].
        exists [], fn, wt, it. split; [done|]. split; [constructor|].
        split; [|done]. intros (f & s' & Hs' & _). congruence. }
    destruct (Get st (query ns fn)) as [f| |x] eqn:Hget.
    + intros Hloop. apply IH in Hloop as (evs & Ht & Hr). simpl in Ht.
      exists (EvStoreGet ns fn :: evs). split.
      { rewrite Ht. by rewrite <- app_assoc. }
      destruct r as [[]|e].
      { by rewrite Hr. }
      destruct Hr as (pre & fn' & wt' & post & -> & Hpre & Hnot & Hlook).
      exists ((fn, wt) :: pre), fn', wt', post. split; [done|].
      split; [constructor; [by exists f, st|done]|]. split; [done|].
      change (lookups_of (EvStoreGet ns fn :: evs))
        with ((ns, fn) :: lookups_of evs). by rewrite Hlook.
    + intros [= <- <-]. simpl.
      exists [EvStoreGet ns fn; EvLogError "function does not exists" fn ns].
      split; [by rewrite <- app_assoc|].
      exists [], fn, wt, it. split; [done|]. split; [constructor|].
      split; [|done]. intros (f & s' & Hs' & Hget'). congruence.
    + intros [= <- <-]. simpl. exists [EvStoreGet ns fn]. split; [done|].
      exists [], fn, wt, it. split; [done|]. split; [constructor|].
      split; [|done]. intros (f & s' & Hs' & Hget'). congruence.
Qed.

(** X1: [resolveByFunctionWeights] looks the functions up one by one, in
    the order of the iteration, and gives up at the first one it does not
    find: the functions before it were found, it is the last one looked up
    (not even it when the namespace has no informer), and none of those
    after it is looked up.  When it succeeds, every function was looked up
    once, in order, and nothing else happened to the trace. *)
Theorem resolveByFunctionWeights_stops_at_first_failure
    funcInformer ns it w r w' :
  frr.resolveByFunctionWeights funcInformer ns it w = (r, w') →
  ∃ evs, w_trace w' = w_trace w ++ evs ∧
    match r with
    | Ok _ => evs = (λ p, EvStoreGet ns p.1) <$> it
    | Err e =>
        ∃ pre fn wt post,
          it = pre ++ (fn, wt) :: post ∧
          Forall (λ p, function_exists funcInformer ns p.1) pre ∧
          ¬ function_exists funcInformer ns fn ∧
          lookups_of evs =
            (λ fn, (ns, fn)) <$>
              (pre.*1 ++ match funcInformer !! ns with
                         | Some _ => [fn]
                         | None => []
                         end)
    end.
Proof.
  rewrite resolveByFunctionWeights_eq. cbv zeta.
  destruct (frr.resolveByFunctionWeights_loop _ _ _ _ _ _ _) as [r0 w0] eqn:Hloop.
  apply loop_first_failure in Hloop as (evs & Ht & Hr). simpl in Ht.
  destruct r0 as [[]|e]; intros [= <- <-]; by exists evs.
Qed.

Lemma resolveByFunctionWeights_stops_at_first_failure_witness :
  ∃ w' evs,
    frr.resolveByFunctionWeights
      (informers_of [function_object "default" "fA" "code"]) "default"
      [("fA"%string, 70); ("fB"%string, 30); ("fC"%string, 5)]
      makeFunctionReferenceResolver
      = (Err (ErrFunctionNotExist "default" "fB"), w') ∧
    w_trace w' = w_trace makeFunctionReferenceResolver ++ evs ∧
    lookups_of evs = [("default"%string, "fA"%string);
                      ("default"%string, "fB"%string)].
Proof.
  destruct (frr.resolveByFunctionWeights
              (informers_of [function_object "default" "fA" "code"]) "default"
              [("fA"%string, 70); ("fB"%string, 30); ("fC"%string, 5)]
              makeFunctionReferenceResolver) as [r w'] eqn:Hrun.
  destruct (resolveByFunctionWeights_stops_at_first_failure _ _ _ _ _ _ Hrun)
    as (evs & Ht & _).
  exists w', evs. vm_compute in Hrun. injection Hrun as <- <-.
  split; [reflexivity|]. split; [exact Ht|].
  simpl in Ht. rewrite <- Ht. reflexivity.
Defined.

(** ** [resolveByFunctionWeights]: what a success holds *)

Lemma is_int_wrap z : is_int (int_wrap z).
Proof.
  unfold is_int, int_wrap, int_min, int_max, int_bits.
  pose proof (Z.mod_pos_bound (z + 2 ^ (64 - 1)) (2 ^ 64)). lia.
Qed.

Lemma resolveByFunctionWeights_ok_inv funcInformer ns it w rr w' :
  frr.resolveByFunctionWeights funcInformer ns it w = (Ok rr, w') →
  Forall (λ p, function_exists funcInformer ns p.1) it.
Proof.
  rewrite resolveByFunctionWeights_eq. cbv zeta.
  destruct (frr.resolveByFunctionWeights_loop _ _ _ _ _ _ _) as [r0 w0] eqn:Hloop.
  apply loop_any in Hloop as (_ & _ & _ & _ & _ & _ & evs & k & _ & _ & Hr).
  by destruct r0.
Qed.

Lemma resolveByFunctionWeights_ok_views funcInformer ns it w rr w' :
  frr.resolveByFunctionWeights funcInformer ns it w = (Ok rr, w') →
  Forall (λ p, function_exists funcInformer ns p.1) it ∧
  rr = {| rr_resolveResultType := resolveResultMultipleFunctions;
          functionMap := h_next (w_heap w);
          functionWtDistributionList := Some (h_next (w_heap w) + 1) |} ∧
  functionMap_of (w_heap w') rr = collect_functions funcInformer ns ∅ it ∧
  functionWtDistributionList_of (w_heap w') rr = weighted_distribution it.
Proof.
  intros Hrun. pose proof (resolveByFunctionWeights_ok_inv _ _ _ _ _ _ Hrun)
    as Hall.
  rewrite (resolveByFunctionWeights_ok _ _ _ _ Hall) in Hrun.
  injection Hrun as <- <-. split; [done|]. split; [done|].
  unfold functionMap_of, functionWtDistributionList_of. simpl.
  by rewrite !lookup_insert_eq.
Qed.

(** X2: the list that [resolveByFunctionWeights] returns has, position by
    position, the pairs of the iteration, each with the sum of the weights
    up to and including its own, reduced to a 64-bit two's complement
    [int]; this holds for any weights, negative or overflowing ones
    included, and every prefix sum is an [int]. *)
Theorem resolveByFunctionWeights_sums_wrap funcInformer ns it w rr w' :
  frr.resolveByFunctionWeights funcInformer ns it w = (Ok rr, w') →
  let d := functionWtDistributionList_of (w_heap w') rr in
  length d = length it ∧
  (∀ i e, d !! i = Some e ↔
     ∃ fn wt, it !! i = Some (fn, wt) ∧
       e = {| name := fn; weight := wt;
              sumPrefix := int_wrap (sum_weights (take (S i) it.*2)) |}) ∧
  Forall (λ e, is_int (sumPrefix e)) d.
Proof.
  intros Hrun. cbv zeta.
  destruct (resolveByFunctionWeights_ok_views _ _ _ _ _ _ Hrun)
    as (_ & _ & _ & ->).
  unfold weighted_distribution.
  assert (∀ i e, distribution_from 0 it !! i = Some e ↔
            ∃ fn wt, it !! i = Some (fn, wt) ∧
              e = {| name := fn; weight := wt;
                     sumPrefix := int_wrap (sum_weights (take (S i) it.*2)) |})
    as Hlook.
  { intros i e. rewrite distribution_from_lookup.
    by setoid_rewrite Z.add_0_l. }
  split; [|split; [done|]].
  - rewrite <- (length_fmap (λ d, (name d, weight d))).
    by rewrite distribution_from_pairs.
  - rewrite Forall_forall. intros e [i Hi]%list_elem_of_lookup_1.
    apply Hlook in Hi as (fn & wt & _ & ->). apply is_int_wrap.
Qed.

Lemma resolveByFunctionWeights_sums_wrap_witness :
  ∃ rr w',
    frr.resolveByFunctionWeights scenario_store "default"
      [("fA"%string, int_max); ("fB"%string, 1)] makeFunctionReferenceResolver
      = (Ok rr, w') ∧
    functionWtDistributionList_of (w_heap w') rr !! 1%nat
      = Some (entry "fB" 1 int_min).
Proof.
  destruct (frr.resolveByFunctionWeights scenario_store "default"
              [("fA"%string, int_max); ("fB"%string, 1)]
              makeFunctionReferenceResolver) as [[rr|e] w'] eqn:Hrun;
    [|vm_compute in Hrun; discriminate Hrun].
  exists rr, w'. split; [reflexivity|].
  destruct (resolveByFunctionWeights_sums_wrap _ _ _ _ _ _ Hrun)
    as (_ & Hlook & _).
  apply Hlook. exists "fB"%string, 1. split; reflexivity.
Defined.

(** X3: over stores that index the objects by their metadata, the
    function map that [resolveByFunctionWeights] returns holds, under
    each name of the iteration, the object found in the store of the
    namespace, and nothing under any other name. *)
Theorem resolveByFunctionWeights_functionMap funcInformer ns it w rr w' :
  informers_keyed funcInformer →
  frr.resolveByFunctionWeights funcInformer ns it w = (Ok rr, w') →
  ∀ fn f,
    functionMap_of (w_heap w') rr !! fn = Some f ↔
    fn ∈ it.*1 ∧ function_found funcInformer ns fn f.
Proof.
  intros Hk Hrun fn f.
  destruct (resolveByFunctionWeights_ok_views _ _ _ _ _ _ Hrun)
    as (Hall & _ & -> & _).
  destruct (collect_functions_lookup funcInformer ns ∅ it fn Hk Hall)
    as [Hin Hout].
  split.
  - intros Hsome. destruct (decide (fn ∈ it.*1)) as [Hfn|Hfn].
    + split; [done|]. pose proof Hfn as Hfn'.
      apply list_elem_of_fmap in Hfn' as ([fn' wt] & -> & Hp).
      rewrite Forall_forall in Hall. destruct (Hall _ Hp) as [g Hg].
      rewrite (Hin Hfn g Hg) in Hsome. by injection Hsome as <-.
    + by rewrite (Hout Hfn), lookup_empty in Hsome.
  - intros [Hfn Hf]. by apply Hin.
Qed.

Lemma resolveByFunctionWeights_functionMap_witness :
  ∃ rr w',
    frr.resolveByFunctionWeights scenario_store "default"
      [("fB"%string, 30); ("fA"%string, 70)] makeFunctionReferenceResolver
      = (Ok rr, w') ∧
    functionMap_of (w_heap w') rr !! "fA"%string
      = Some (function_object "default" "fA" "code").
Proof.
  destruct (frr.resolveByFunctionWeights scenario_store "default"
              [("fB"%string, 30); ("fA"%string, 70)]
              makeFunctionReferenceResolver) as [[rr|e] w'] eqn:Hrun;
    [|vm_compute in Hrun; discriminate Hrun].
  exists rr, w'. split; [reflexivity|].
  apply (resolveByFunctionWeights_functionMap scenario_store "default"
           [("fB"%string, 30); ("fA"%string, 70)]
           makeFunctionReferenceResolver rr w' (informers_of_keyed _) Hrun).
  split.
  - apply list_elem_of_further, list_elem_of_here.
  - eexists. split; reflexivity.
Defined.

(** ** [resolveByFunctionWeights]: what the order of the iteration changes *)

Lemma distribution_from_length acc it :
  length (distribution_from acc it) = length it.
Proof.
  rewrite <- (length_fmap (λ d, (name d, weight d))).
  by rewrite distribution_from_pairs.
Qed.

Lemma weighted_distribution_last it e :
  last (weighted_distribution it) = Some e →
  sumPrefix e = int_wrap (sum_weights it.*2).
Proof.
  rewrite last_lookup. unfold weighted_distribution.
  intros Hlast. pose proof Hlast as Hlt%lookup_lt_Some.
  apply distribution_from_lookup in Hlast as (fn & wt & _ & ->). simpl.
  rewrite Z.add_0_l. f_equal. f_equal. apply take_ge.
  rewrite distribution_from_length in *. rewrite length_fmap. lia.
Qed.

Lemma collect_functions_perm funcInformer ns it1 it2 :
  informers_keyed funcInformer →
  Forall (λ p, function_exists funcInformer ns p.1) it1 →
  it1 ≡ₚ it2 →
  collect_functions funcInformer ns ∅ it1
    = collect_functions funcInformer ns ∅ it2.
Proof.
  intros Hk Hall1 Hperm.
  assert (Forall (λ p, function_exists funcInformer ns p.1) it2) as Hall2
    by by rewrite <- Hperm.
  apply map_eq. intros fn.
  destruct (collect_functions_lookup funcInformer ns ∅ it1 fn Hk Hall1)
    as [Hin1 Hout1].
  destruct (collect_functions_lookup funcInformer ns ∅ it2 fn Hk Hall2)
    as [Hin2 Hout2].
  destruct (decide (fn ∈ it1.*1)) as [Hfn|Hfn].
  - pose proof Hfn as Hfn'.
    apply list_elem_of_fmap in Hfn' as ([fn' wt] & -> & Hp).
    rewrite Forall_forall in Hall1. destruct (Hall1 _ Hp) as [g Hg].
    rewrite (Hin1 Hfn g Hg). symmetry. apply Hin2; [|done]. by rewrite <- Hperm.
  - rewrite (Hout1 Hfn). symmetry. apply Hout2. by rewrite <- Hperm.
Qed.

(** X4: the order in which the weights are iterated decides the order of
    the list and the prefix sums on the way, and nothing else.  Over
    stores that index the objects by their metadata, two runs of
    [resolveByFunctionWeights] from the same world, over two orders of the
    same pairs, both succeed or both fail; when they succeed they return
    the same references, the same function map, lists with the same
    pairs of name and weight, and the same last prefix sum. *)
Theorem resolveByFunctionWeights_order_independent
    funcInformer ns it1 it2 w :
  informers_keyed funcInformer →
  it1 ≡ₚ it2 →
  match frr.resolveByFunctionWeights funcInformer ns it1 w,
        frr.resolveByFunctionWeights funcInformer ns it2 w with
  | (Ok rr1, w1), (Ok rr2, w2) =>
      rr1 = rr2 ∧
      functionMap_of (w_heap w1) rr1 = functionMap_of (w_heap w2) rr2 ∧
      (λ d, (name d, weight d)) <$> functionWtDistributionList_of (w_heap w1) rr1
        ≡ₚ (λ d, (name d, weight d)) <$>
             functionWtDistributionList_of (w_heap w2) rr2 ∧
      (∀ e1 e2,
         last (functionWtDistributionList_of (w_heap w1) rr1) = Some e1 →
         last (functionWtDistributionList_of (w_heap w2) rr2) = Some e2 →
         sumPrefix e1 = sumPrefix e2)
  | (Err _, _), (Err _, _) => True
  | _, _ => False
  end.
Proof.
  intros Hk Hperm.
  destruct (frr.resolveByFunctionWeights funcInformer ns it1 w)
    as [[rr1|e1] w1] eqn:Hrun1;
    destruct (frr.resolveByFunctionWeights funcInformer ns it2 w)
      as [[rr2|e2] w2] eqn:Hrun2; [| | |done].
  - destruct (resolveByFunctionWeights_ok_views _ _ _ _ _ _ Hrun1)
      as (Hall1 & -> & -> & ->).
    destruct (resolveByFunctionWeights_ok_views _ _ _ _ _ _ Hrun2)
      as (Hall2 & -> & -> & ->).
    split; [done|]. split; [by apply collect_functions_perm|].
    unfold weighted_distribution at 1 2. rewrite !distribution_from_pairs.
    split; [done|].
    intros e1 e2 ->%weighted_distribution_last ->%weighted_distribution_last.
    f_equal. apply sum_weights_perm. by rewrite Hperm.
  - pose proof (resolveByFunctionWeights_ok_inv _ _ _ _ _ _ Hrun1) as Hall1.
    rewrite Hperm in Hall1.
    by rewrite (resolveByFunctionWeights_ok _ _ _ _ Hall1) in Hrun2.
  - pose proof (resolveByFunctionWeights_ok_inv _ _ _ _ _ _ Hrun2) as Hall2.
    rewrite <- Hperm in Hall2.
    by rewrite (resolveByFunctionWeights_ok _ _ _ _ Hall2) in Hrun1.
Qed.

Lemma resolveByFunctionWeights_order_independent_witness :
  match frr.resolveByFunctionWeights scenario_store "default"
          [("fA"%string, 70); ("fB"%string, 30)] makeFunctionReferenceResolver,
        frr.resolveByFunctionWeights scenario_store "default"
          [("fB"%string, 30); ("fA"%string, 70)] makeFunctionReferenceResolver
  with
  | (Ok rr1, w1), (Ok rr2, w2) =>
      functionMap_of (w_heap w1) rr1 = functionMap_of (w_heap w2) rr2
  | _, _ => True
  end.
Proof.
  pose proof (resolveByFunctionWeights_order_independent scenario_store
                "default" [("fA"%string, 70); ("fB"%string, 30)]
                [("fB"%string, 30); ("fA"%string, 70)]
                makeFunctionReferenceResolver (informers_of_keyed _)
                (perm_swap _ _ _)) as H.
  destruct (frr.resolveByFunctionWeights scenario_store "default"
              [("fA"%string, 70); ("fB"%string, 30)]
              makeFunctionReferenceResolver) as [[rr1|e1] w1];
    destruct (frr.resolveByFunctionWeights scenario_store "default"
                [("fB"%string, 30); ("fA"%string, 70)]
                makeFunctionReferenceResolver) as [[rr2|e2] w2];
    try exact I.
  exact (proj1 (proj2 H)).
Defined.

(** ** Results on the heap, under later calls *)

(** What a miss allocates: the next addresses, and the result is on the
    heap. *)
Lemma on_miss_ok_fresh funcInformer it trigger w rr w' :
  on_miss funcInformer it trigger w = (Ok rr, w') →
  functionMap rr = h_next (w_heap w) ∧
  (∀ s, functionWtDistributionList rr = Some s → s = h_next (w_heap w) + 1) ∧
  allocated (w_heap w') rr.
Proof.
  unfold on_miss.
  destruct (fr_Type (tr_FunctionReference trigger)) as [| |kind] eqn:Hty;
    [| |done].
  - rewrite resolveByName_eq.
    destruct (funcInformer !! _) as [st|]; [|done].
    destruct (Get st _) as [f| |x]; try done. intros [= <- <-].
    unfold allocated. simpl. rewrite lookup_insert_eq.
    split; [done|]. split; [done|]. split; [by eexists|done].
  - intros Hrun.
    destruct (resolveByFunctionWeights_ok_views _ _ _ _ _ _ Hrun)
      as (Hall & Hrr & _).
    rewrite (resolveByFunctionWeights_ok _ _ _ _ Hall) in Hrun.
    injection Hrun as <- <-. unfold allocated. simpl.
    rewrite lookup_insert_eq. split; [done|]. split; [by intros s [= <-]|].
    split; [by eexists|]. intros s [= <-]. rewrite lookup_insert_eq.
    by eexists.
Qed.

Lemma cache_on_heap_make : cache_on_heap makeFunctionReferenceResolver.
Proof.
  split; [split|]; simpl.
  - intros l. rewrite lookup_empty. by intros [].
  - intros l. rewrite lookup_empty. by intros [].
  - intros k e. by rewrite lookup_empty.
Qed.

(** [resolve], whatever it is called with, keeps the heap in order and
    the cached results on it, and only extends the heap; what it returns
    is on the heap. *)
Lemma resolve_on_heap funcInformer now it trigger w r w' :
  cache_on_heap w →
  frr.resolve funcInformer now it trigger w = (r, w') →
  cache_on_heap w' ∧ heap_extends (w_heap w) (w_heap w') ∧
  ∀ rr, r = Ok rr → allocated (w_heap w') rr.
Proof.
  intros [Hheap Hcache].
  destruct (cache.Get (refCache w) now (nfr_of trigger)) as [result|] eqn:Hget.
  - rewrite (resolve_hit _ _ _ _ _ _ Hget). intros [= <- <-].
    split; [done|]. split; [apply heap_extends_refl|].
    intros rr [= <-]. apply cache_Get_Some in Hget as (e & He & <- & _).
    by apply (Hcache (nfr_of trigger) e).
  - rewrite (resolve_miss _ _ _ _ _ Hget).
    destruct (on_miss funcInformer it trigger w) as [[rr|e] w1] eqn:Hmiss;
      intros [= <- <-];
      destruct (on_miss_frame _ _ _ _ _ _ Hmiss) as (Hc & Hext & Hok).
    + destruct (on_miss_ok_fresh _ _ _ _ _ _ Hmiss) as (_ & _ & Hal).
      split; [|split; [done|by intros ? [= <-]]].
      split; [by apply Hok|]. simpl. intros k e.
      rewrite lookup_insert. case_decide as Hkey.
      * by intros [= <-].
      * rewrite Hc. intros Hal'%Hcache. by eapply allocated_extends.
    + split; [|split; [done|done]].
      split; [by apply Hok|]. rewrite Hc. intros k e' Hal'%Hcache.
      by eapply allocated_extends.
Qed.

Lemma delete_on_heap ns tn rv w :
  cache_on_heap w → cache_on_heap (frr.delete ns tn rv w).2.
Proof.
  intros [Hheap Hcache]. split; [done|]. simpl. intros k e.
  rewrite lookup_delete. case_decide; [done|]. apply Hcache.
Qed.

Lemma reachable_on_heap P w : reachable P w → cache_on_heap w.
Proof.
  induction 1 as [|inf now it T w _ IH _ _ _|ns tn rv w _ IH|now w _ IH].
  - apply cache_on_heap_make.
  - destruct (frr.resolve inf now it T w) as [r w'] eqn:Hrun.
    by destruct (resolve_on_heap _ _ _ _ _ _ _ IH Hrun).
  - by apply delete_on_heap.
  - done.
Qed.

Lemma steps_on_heap w1 w2 :
  cache_on_heap w1 → steps w1 w2 →
  cache_on_heap w2 ∧ heap_extends (w_heap w1) (w_heap w2).
Proof.
  intros Hok.
  induction 1 as [w|inf now it T w1 w _ IH|ns tn rv w1 w _ IH|now w1 w _ IH].
  - split; [done|apply heap_extends_refl].
  - destruct (IH Hok) as [Hok' Hext].
    destruct (frr.resolve inf now it T w) as [r w'] eqn:Hrun.
    destruct (resolve_on_heap _ _ _ _ _ _ _ Hok' Hrun) as (Hok'' & Hext' & _).
    split; [done|by eapply heap_extends_trans].
  - destruct (IH Hok) as [Hok' Hext]. split; [by apply delete_on_heap|done].
  - by apply IH.
Qed.

(** X5: the resolver never writes to a map or a list it has handed out.
    Whatever calls of [resolve], [delete] and [copy] follow, with whatever
    arguments, a result that [resolve] has returned still reads the same
    function map and the same distribution list. *)
Theorem results_never_rewritten P funcInformer now it trigger w rr w1 w2 :
  reachable P w →
  frr.resolve funcInformer now it trigger w = (Ok rr, w1) →
  steps w1 w2 →
  functionMap_of (w_heap w2) rr = functionMap_of (w_heap w1) rr ∧
  functionWtDistributionList_of (w_heap w2) rr
    = functionWtDistributionList_of (w_heap w1) rr.
Proof.
  intros Hreach Hrun Hsteps.
  pose proof (reachable_on_heap _ _ Hreach) as Hok.
  destruct (resolve_on_heap _ _ _ _ _ _ _ Hok Hrun) as (Hok1 & _ & Hal).
  destruct (steps_on_heap _ _ Hok1 Hsteps) as [_ Hext].
  destruct Hok1 as [Hheap1 _].
  by destruct (allocated_extends _ _ rr Hheap1 Hext (Hal rr eq_refl))
    as (_ & ? & ?).
Qed.

Lemma results_never_rewritten_witness :
  ∃ rr w1,
    frr.resolve scenario_store 0 [] scenario_t1 makeFunctionReferenceResolver
      = (Ok rr, w1) ∧
    functionMap_of
      (w_heap (frr.resolve scenario_store 1
                 [("fA"%string, 70); ("fB"%string, 30)] scenario_t2
                 (frr.delete "default" "t1" "v1" w1).2).2) rr
    = functionMap_of (w_heap w1) rr.
Proof.
  destruct (frr.resolve scenario_store 0 [] scenario_t1
              makeFunctionReferenceResolver) as [[rr|e] w1] eqn:Hrun;
    [|vm_compute in Hrun; discriminate Hrun].
  exists rr, w1. split; [reflexivity|].
  refine (proj1 (results_never_rewritten (λ _, True) scenario_store 0 []
                   scenario_t1 makeFunctionReferenceResolver rr w1 _
                   (reach_make _) Hrun _)).
  apply steps_resolve, steps_delete, steps_refl.
Defined.

(** ** No sharing between the entries of the cache *)








(** ** A resolution on a miss: lookups and contents *)

Lemma lookups_of_gets ns (it : list (string * Z)) :
  lookups_of ((λ p, EvStoreGet ns p.1) <$> it) = (λ fn, (ns, fn)) <$> it.*1.
Proof.
  induction it as [|[fn wt] it IH]; [done|].
  change (lookups_of ((λ p, EvStoreGet ns p.1) <$> (fn, wt) :: it))
    with ((ns, fn) :: lookups_of ((λ p, EvStoreGet ns p.1) <$> it)).
  by rewrite IH.
Qed.

Lemma is_lookup_gets ns (it : list (string * Z)) :
  Forall is_lookup ((λ p, EvStoreGet ns p.1) <$> it).
Proof. induction it as [|[fn wt] it IH]; by constructor. Qed.

(** What a successful resolution on a miss has done and holds: one lookup
    per referenced function and nothing else on the trace, and a function
    map with the objects found, under the referenced names. *)
Lemma on_miss_ok_account funcInformer it trigger w rr w' :
  informers_keyed funcInformer →
  map_range (fr_FunctionWeights (tr_FunctionReference trigger)) it →
  on_miss funcInformer it trigger w = (Ok rr, w') →
  (∃ evs, w_trace w' = w_trace w ++ evs ∧ Forall is_lookup evs ∧
     lookups_of evs ≡ₚ
       (λ fn, (Namespace (tr_ObjectMeta trigger), fn)) <$>
         referenced (tr_FunctionReference trigger)) ∧
  ∀ fn f,
    functionMap_of (w_heap w') rr !! fn = Some f ↔
    fn ∈ referenced (tr_FunctionReference trigger) ∧
    function_found funcInformer (Namespace (tr_ObjectMeta trigger)) fn f.
Proof.
  intros Hk Hrange Hrun.
  pose proof (map_range_referenced (tr_FunctionReference trigger) it) as Href.
  unfold referenced in *.
  destruct (fr_Type (tr_FunctionReference trigger)) as [| |kind] eqn:Hty.
  - destruct (on_miss_ok_name _ _ _ _ _ _ Hty Hrun)
      as (f & Hf & _ & _ & Hmap & _ & Ht).
    destruct (function_found_keyed _ _ _ _ Hk Hf) as [_ Hname].
    split.
    + eexists. split; [exact Ht|]. split; [by repeat constructor|done].
    + intros fn g. rewrite Hmap, Hname, lookup_singleton_Some.
      rewrite list_elem_of_singleton. split.
      * by intros [<- <-].
      * intros [-> Hg]. split; [done|].
        by apply (function_found_inj funcInformer
                    (Namespace (tr_ObjectMeta trigger))
                    (fr_Name (tr_FunctionReference trigger))).
  - specialize (Href eq_refl Hrange).
    destruct (on_miss_ok_weights _ _ _ _ _ _ Hty Hrun)
      as (Hall & _ & _ & Hmap & _ & Ht).
    split.
    + eexists. split; [exact Ht|]. split; [apply is_lookup_gets|].
      rewrite lookups_of_gets. unfold map_range in Hrange. by rewrite Hrange.
    + intros fn g. rewrite Hmap, <- Href.
      destruct (collect_functions_lookup funcInformer
                  (Namespace (tr_ObjectMeta trigger)) ∅ it fn Hk Hall)
        as [Hin Hout].
      split.
      * intros Hsome. destruct (decide (fn ∈ it.*1)) as [Hfn|Hfn].
        -- split; [done|]. pose proof Hfn as Hfn'.
           apply list_elem_of_fmap in Hfn' as ([fn' wt] & -> & Hp).
           rewrite Forall_forall in Hall. destruct (Hall _ Hp) as [g' Hg'].
           rewrite (Hin Hfn g' Hg') in Hsome. by injection Hsome as <-.
        -- by rewrite (Hout Hfn), lookup_empty in Hsome.
      * intros [Hfn Hg]. by apply Hin.
  - revert Hrun. unfold on_miss. by rewrite Hty.
Qed.

(** X7: a [resolve] that succeeds on a cache miss has looked every
    referenced function up exactly once and logged nothing, and the
    function map it returns holds, under each referenced name, the object
    found in the store of the namespace, and nothing else; a [resolve]
    that is served from the cache adds nothing to the trace. *)
Theorem resolve_miss_looks_up_once funcInformer now it trigger w rr w' :
  informers_keyed funcInformer →
  map_range (fr_FunctionWeights (tr_FunctionReference trigger)) it →
  frr.resolve funcInformer now it trigger w = (Ok rr, w') →
  ∃ evs, w_trace w' = w_trace w ++ evs ∧ Forall is_lookup evs ∧
    match cache.Get (refCache w) now (nfr_of trigger) with
    | Some cached => evs = [] ∧ rr = cached
    | None =>
        lookups_of evs ≡ₚ
          (λ fn, (Namespace (tr_ObjectMeta trigger), fn)) <$>
            referenced (tr_FunctionReference trigger) ∧
        ∀ fn f,
          functionMap_of (w_heap w') rr !! fn = Some f ↔
          fn ∈ referenced (tr_FunctionReference trigger) ∧
          function_found funcInformer
            (Namespace (tr_ObjectMeta trigger)) fn f
    end.
Proof.
  intros Hk Hrange.
  destruct (cache.Get (refCache w) now (nfr_of trigger)) as [res|] eqn:Hget.
  - rewrite (resolve_hit _ _ _ _ _ _ Hget). intros [= <- <-].
    exists []. rewrite app_nil_r. split; [done|]. by split; [constructor|].
  - rewrite (resolve_miss _ _ _ _ _ Hget).
    destruct (on_miss funcInformer it trigger w) as [[rr'|e] w1] eqn:Hmiss;
      intros [= <- <-].
    destruct (on_miss_ok_account _ _ _ _ _ _ Hk Hrange Hmiss)
      as ((evs & Ht & Hl & Hp) & Hmap).
    exists evs. split; [exact Ht|]. split; [done|]. by split.
Qed.

Lemma resolve_miss_looks_up_once_witness :
  ∃ rr w' evs,
    frr.resolve scenario_store 0 [("fB"%string, 30); ("fA"%string, 70)]
      scenario_t2 makeFunctionReferenceResolver = (Ok rr, w') ∧
    w_trace w' = w_trace makeFunctionReferenceResolver ++ evs ∧
    Forall is_lookup evs.
Proof.
  destruct (frr.resolve scenario_store 0 [("fB"%string, 30); ("fA"%string, 70)]
              scenario_t2 makeFunctionReferenceResolver)
    as [[rr|e] w'] eqn:Hrun; [|vm_compute in Hrun; discriminate Hrun].
  destruct (resolve_miss_looks_up_once scenario_store 0
              [("fB"%string, 30); ("fA"%string, 70)] scenario_t2
              makeFunctionReferenceResolver rr w' (informers_of_keyed _))
    as (evs & Ht & Hl & _).
  - unfold map_range.
    replace (map_to_list (fr_FunctionWeights (tr_FunctionReference scenario_t2)))
      with [("fA"%string, 70); ("fB"%string, 30)] by (vm_compute; reflexivity).
    apply perm_swap.
  - exact Hrun.
  - exists rr, w', evs. split; [reflexivity|]. split; [exact Ht|exact Hl].
Defined.

(** ** [delete], then [resolve] *)

Lemma cache_Get_Delete {V} (c : cache.Cache namespacedTriggerReference V)
    now k :
  cache.Get (cache.Delete c k) now k = None.
Proof. unfold cache.Get. simpl. by rewrite lookup_delete_eq. Qed.

(** X8: after [delete] for the namespace, name and version token of a
    trigger, the next [resolve] of that trigger is not served from the
    cache, whatever was cached: when it succeeds, every referenced
    function has been looked up in this call and the function map holds
    the objects that the store holds now; when it fails, the error has
    its cause in the store as it is now. *)
Theorem resolve_after_delete funcInformer now it trigger w r w2 :
  informers_keyed funcInformer →
  map_range (fr_FunctionWeights (tr_FunctionReference trigger)) it →
  frr.resolve funcInformer now it trigger
    (frr.delete (Namespace (tr_ObjectMeta trigger))
       (Name (tr_ObjectMeta trigger))
       (ResourceVersion (tr_ObjectMeta trigger)) w).2 = (r, w2) →
  ∃ evs, w_trace w2 = w_trace w ++ evs ∧
    match r with
    | Ok rr =>
        lookups_of evs ≡ₚ
          (λ fn, (Namespace (tr_ObjectMeta trigger), fn)) <$>
            referenced (tr_FunctionReference trigger) ∧
        ∀ fn f,
          functionMap_of (w_heap w2) rr !! fn = Some f ↔
          fn ∈ referenced (tr_FunctionReference trigger) ∧
          function_found funcInformer
            (Namespace (tr_ObjectMeta trigger)) fn f
    | Err e => resolve_error_explained funcInformer trigger evs e
    end.
Proof.
  intros Hk Hrange.
  rewrite resolve_miss by apply cache_Get_Delete.
  destruct (on_miss funcInformer it trigger _) as [[rr|e] w1] eqn:Hmiss;
    intros [= <- <-].
  - destruct (on_miss_ok_account _ _ _ _ _ _ Hk Hrange Hmiss)
      as ((evs & Ht & _ & Hp) & Hmap).
    exists evs. split; [exact Ht|]. by split.
  - destruct (on_miss_outcome _ _ _ _ _ _ Hrange Hmiss) as (evs & Ht & _ & Hr).
    by exists evs.
Qed.

Lemma resolve_after_delete_witness :
  ∃ rr w1 rr2 w2,
    frr.resolve scenario_store 0 [] scenario_t1 makeFunctionReferenceResolver
      = (Ok rr, w1) ∧
    frr.resolve (informers_of [function_object "default" "f1" "new code"])
      1 [] scenario_t1 (frr.delete "default" "t1" "v1" w1).2 = (Ok rr2, w2) ∧
    functionMap_of (w_heap w2) rr2 !! "f1"%string
      = Some (function_object "default" "f1" "new code").
Proof.
  destruct (frr.resolve scenario_store 0 [] scenario_t1
              makeFunctionReferenceResolver) as [[rr|e] w1] eqn:Hrun;
    [|vm_compute in Hrun; discriminate Hrun].
  destruct (frr.resolve (informers_of [function_object "default" "f1" "new code"])
              1 [] scenario_t1 (frr.delete "default" "t1" "v1" w1).2)
    as [[rr2|e] w2] eqn:Hrun2.
  2:{ vm_compute in Hrun. injection Hrun as <- <-.
      vm_compute in Hrun2. discriminate Hrun2. }
  exists rr, w1, rr2, w2. split; [reflexivity|]. split; [exact Hrun2|].
  destruct (resolve_after_delete
              (informers_of [function_object "default" "f1" "new code"])
              1 [] scenario_t1 w1 (Ok rr2) w2 (informers_of_keyed _))
    as (evs & _ & _ & Hmap).
  - unfold map_range. vm_compute. reflexivity.
  - exact Hrun2.
  - apply Hmap. split; [apply list_elem_of_here|].
    eexists. split; reflexivity.
Defined.

(** ** [resolve] and the other keys *)

(** X9: [resolve] leaves alone what is cached under every key but the
    one of its trigger: entry, what a [Get] gives at any time, and what a
    snapshot shows.  So resolving a trigger under a new version token
    neither hits nor disturbs the entry of the old one. *)
Theorem resolve_other_keys funcInformer now it trigger w k :
  k ≠ nfr_of trigger →
  let w' := (frr.resolve funcInformer now it trigger w).2 in
  cache.entries (refCache w') !! k = cache.entries (refCache w) !! k ∧
  (∀ now', cache.Get (refCache w') now' k = cache.Get (refCache w) now' k) ∧
  (∀ now', cache.Copy (refCache w') now' !! k
           = cache.Copy (refCache w) now' !! k).
Proof.
  intros Hk w'. subst w'.
  pose proof (resolve_cache_frame funcInformer now it trigger w k Hk) as He.
  pose proof (resolve_ctimeExpiry funcInformer now it trigger w) as Httl.
  assert (∀ now', cache.Get (refCache (frr.resolve funcInformer now it trigger w).2) now' k
                  = cache.Get (refCache w) now' k) as Hget.
  { intros now'. unfold cache.Get, cache.live. by rewrite He, Httl. }
  split; [done|]. split; [done|].
  intros now'. by rewrite !cache_Copy_lookup.
Qed.

Lemma resolve_other_keys_witness :
  cache.Get
    (refCache
       (frr.resolve scenario_store 1 [] (trigger_by_name "default" "t1" "v2" "f1")
          (frr.resolve scenario_store 0 [] scenario_t1
             makeFunctionReferenceResolver).2).2)
    2 (nfr_of scenario_t1)
  = cache.Get
      (refCache (frr.resolve scenario_store 0 [] scenario_t1
                   makeFunctionReferenceResolver).2)
      2 (nfr_of scenario_t1).
Proof.
  refine (proj1 (proj2 (resolve_other_keys scenario_store 1 []
                          (trigger_by_name "default" "t1" "v2" "f1")
                          (frr.resolve scenario_store 0 [] scenario_t1
                             makeFunctionReferenceResolver).2
                          (nfr_of scenario_t1) _)) 2).
  by vm_compute.
Defined.

(** ** Errors before any lookup *)

(** X10: on a cache miss, a reference of an unrecognized kind makes
    [resolve] fail with the error naming that kind and leave the world
    exactly as it was; and when the namespace of the trigger has no
    informer and there is a function to look up, [resolve] fails with the
    error naming the namespace, without a lookup, a log line or a change
    to the cache. *)
Theorem resolve_fails_before_lookup funcInformer now it trigger w :
  cache.Get (refCache w) now (nfr_of trigger) = None →
  (∀ kind,
     fr_Type (tr_FunctionReference trigger) = FunctionReferenceTypeOther kind →
     frr.resolve funcInformer now it trigger w
       = (Err (ErrUnrecognizedType (FunctionReferenceTypeOther kind)), w)) ∧
  (funcInformer !! Namespace (tr_ObjectMeta trigger) = None →
   fr_Type (tr_FunctionReference trigger) = FunctionReferenceTypeFunctionName ∨
   (fr_Type (tr_FunctionReference trigger)
      = FunctionReferenceTypeFunctionWeights ∧ it ≠ []) →
   ∃ w',
     frr.resolve funcInformer now it trigger w
       = (Err (ErrInformerNotFound (Namespace (tr_ObjectMeta trigger))), w') ∧
     w_trace w' = w_trace w ∧ refCache w' = refCache w).
Proof.
  intros Hget. rewrite (resolve_miss _ _ _ _ _ Hget). unfold on_miss. split.
  - intros kind ->. done.
  - intros Hnone [Hty|[Hty Hit]]; rewrite Hty; simpl.
    + rewrite resolveByName_eq, Hnone. by exists w.
    + rewrite resolveByFunctionWeights_eq. cbv zeta.
      destruct it as [|[fn wt] it]; [done|]. rewrite loop_cons, Hnone.
      by eexists.
Qed.

Lemma resolve_fails_before_lookup_witness :
  ∃ w',
    frr.resolve ∅ 0 [("fA"%string, 70); ("fB"%string, 30)] scenario_t2
      makeFunctionReferenceResolver
      = (Err (ErrInformerNotFound "default"), w') ∧
    w_trace w' = [] ∧ refCache w' = refCache makeFunctionReferenceResolver.
Proof.
  refine (proj2 (resolve_fails_before_lookup ∅ 0
                   [("fA"%string, 70); ("fB"%string, 30)] scenario_t2
                   makeFunctionReferenceResolver _) _ _).
  - reflexivity.
  - reflexivity.
  - right. split; [reflexivity|discriminate].
Defined.

(** ** What gets logged *)

Lemma loop_logs funcInformer ns fm sl s it w r w' :
  frr.resolveByFunctionWeights_loop funcInformer ns fm sl s it w = (r, w') →
  ∃ evs, w_trace w' = w_trace w ++ evs ∧
    match r with
    | Err (ErrFunctionNotExist ns' fn) =>
        ns' = ns ∧
        ∃ pre, evs = pre ++ [EvStoreGet ns fn;
                             EvLogError "function does not exists" fn ns] ∧
               Forall is_lookup pre
    | _ => Forall is_lookup evs
    end.
Proof.
  revert s w. induction it as [|[fn wt] it IH]; intros s w.
  - simpl. unfold ret. intros [= <- <-]. exists []. by rewrite app_nil_r.
  - rewrite loop_cons.
    destruct (funcInformer !! ns) as [st|] eqn:Hst.
    2:{ intros [= <- <-]. exists []. by rewrite app_nil_r. }
    destruct (Get st (query ns fn)) as [f| |x] eqn:Hget.
    + intros Hloop. apply IH in Hloop as (evs & Ht & Hr). simpl in Ht.
      exists (EvStoreGet ns fn :: evs). split.
      { rewrite Ht. by rewrite <- app_assoc. }
      destruct r as [[]|[t|ns0|ns0 fn0|x]]; try by constructor.
      destruct Hr as (-> & pre & -> & Hpre). split; [done|].
      exists (EvStoreGet ns fn :: pre). split; [done|]. by constructor.
    + intros [= <- <-]. simpl. eexists. split; [by rewrite <- app_assoc|].
      split; [done|]. exists []. by split.
    + intros [= <- <-]. simpl. eexists. split; [done|]. by repeat constructor.
Qed.

(** X11: [resolve] writes to the log exactly when it reports a function
    as not existing: then the last two events of the call are the lookup
    of that function in the namespace of the trigger and one error line
    naming the function and the namespace, with only lookups before
    them.  In every other case, a store error and a missing informer
    included, the call adds only lookups to the trace. *)
Theorem resolve_logs_missing_function funcInformer now it trigger w r w' :
  frr.resolve funcInformer now it trigger w = (r, w') →
  ∃ evs, w_trace w' = w_trace w ++ evs ∧
    match r with
    | Err (ErrFunctionNotExist ns fn) =>
        ns = Namespace (tr_ObjectMeta trigger) ∧
        ∃ pre, evs = pre ++ [EvStoreGet ns fn;
                             EvLogError "function does not exists" fn ns] ∧
               Forall is_lookup pre
    | _ => Forall is_lookup evs
    end.
Proof.
  destruct (cache.Get (refCache w) now (nfr_of trigger)) as [res|] eqn:Hget.
  { rewrite (resolve_hit _ _ _ _ _ _ Hget). intros [= <- <-].
    exists []. by rewrite app_nil_r. }
  rewrite (resolve_miss _ _ _ _ _ Hget).
  assert (∀ r0 w0, on_miss funcInformer it trigger w = (r0, w0) →
            ∃ evs, w_trace w0 = w_trace w ++ evs ∧
              match r0 with
              | Err (ErrFunctionNotExist ns fn) =>
                  ns = Namespace (tr_ObjectMeta trigger) ∧
                  ∃ pre, evs = pre ++
                           [EvStoreGet ns fn;
                            EvLogError "function does not exists" fn ns] ∧
                         Forall is_lookup pre
              | _ => Forall is_lookup evs
              end) as Hmiss.
  { intros r0 w0. unfold on_miss.
    destruct (fr_Type (tr_FunctionReference trigger)) as [| |kind].
    - rewrite resolveByName_eq. simpl.
      destruct (funcInformer !! _) as [st|].
      2:{ intros [= <- <-]. exists []. by rewrite app_nil_r. }
      destruct (Get st _) as [f| |x]; intros [= <- <-]; simpl.
      + eexists. split; [done|]. by repeat constructor.
      + eexists. split; [by rewrite <- app_assoc|]. split; [done|].
        exists []. by split.
      + eexists. split; [done|]. by repeat constructor.
    - rewrite resolveByFunctionWeights_eq. cbv zeta. simpl.
      destruct (frr.resolveByFunctionWeights_loop _ _ _ _ _ _ _)
        as [r1 w1] eqn:Hloop.
      apply loop_logs in Hloop as (evs & Ht & Hr). simpl in Ht.
      destruct r1 as [[]|[t|ns0|ns0 fn0|x]]; intros [= <- <-]; exists evs;
        (split; [done|]); try done.
      by destruct Hr as [-> Hpre].
    - intros [= <- <-]. exists []. by rewrite app_nil_r. }
  destruct (on_miss funcInformer it trigger w) as [[rr|e] w1] eqn:Hrun;
    intros [= <- <-].
  - exact (Hmiss (Ok rr) w1 eq_refl).
  - exact (Hmiss (Err e) w1 eq_refl).
Qed.

Lemma resolve_logs_missing_function_witness :
  ∃ w' evs,
    frr.resolve (informers_of [function_object "default" "fA" "code"]) 0
      [("fA"%string, 70); ("fB"%string, 30)] scenario_t2
      makeFunctionReferenceResolver
      = (Err (ErrFunctionNotExist "default" "fB"), w') ∧
    w_trace w' = w_trace makeFunctionReferenceResolver ++ evs ∧
    ∃ pre, evs = pre ++ [EvStoreGet "default" "fB";
                         EvLogError "function does not exists" "fB" "default"] ∧
           Forall is_lookup pre.
Proof.
  destruct (frr.resolve (informers_of [function_object "default" "fA" "code"]) 0
              [("fA"%string, 70); ("fB"%string, 30)] scenario_t2
              makeFunctionReferenceResolver) as [r w'] eqn:Hrun.
  pose proof (resolve_logs_missing_function _ _ _ _ _ _ _ Hrun) as Hlog.
  assert (r = Err (ErrFunctionNotExist "default" "fB")) as ->.
  { vm_compute in Hrun. by injection Hrun as <- _. }
  destruct Hlog as (evs & Ht & _ & Hpre).
  exists w', evs. split; [reflexivity|]. split; [exact Ht|exact Hpre].
Defined.

(** ** Snapshots, and the minute an entry lives *)

Lemma reachable_ctimeExpiry P w :
  reachable P w → cache.ctimeExpiry (refCache w) = time_Minute.
Proof.
  induction 1 as [|inf now it T w _ IH _ _ _|ns tn rv w _ IH|now w _ IH];
    try done.
  by rewrite resolve_ctimeExpiry.
Qed.

Lemma resolve_ok_live P funcInformer now it trigger w rr w' :
  reachable P w →
  frr.resolve funcInformer now it trigger w = (Ok rr, w') →
  cache.Get (refCache w') now (nfr_of trigger) = Some rr.
Proof.
  intros Hreach.
  destruct (cache.Get (refCache w) now (nfr_of trigger)) as [res|] eqn:Hget.
  - rewrite (resolve_hit _ _ _ _ _ _ Hget). by intros [= <- <-].
  - intros Hrun.
    destruct (resolve_miss_entry _ _ _ _ _ _ _ Hget Hrun) as [He Httl].
    apply cache_Get_Some. eexists. split; [exact He|]. split; [done|].
    rewrite Httl, (reachable_ctimeExpiry _ _ Hreach). simpl.
    unfold time_Minute. lia.
Qed.

(** X12: what [resolve] returns is, under the key of the trigger, in the
    snapshot that [copy] gives at the time of the call; once the key is
    deleted no snapshot has it; and [copy] leaves the world as it is. *)
Theorem snapshot_follows_resolve_and_delete
    P funcInformer now it trigger w rr w' :
  reachable P w →
  frr.resolve funcInformer now it trigger w = (Ok rr, w') →
  (∃ snapshot,
     frr.copy now w' = (Ok snapshot, w') ∧
     snapshot !! nfr_of trigger = Some rr) ∧
  (∀ now',
     ∃ snapshot,
       frr.copy now'
         (frr.delete (Namespace (tr_ObjectMeta trigger))
            (Name (tr_ObjectMeta trigger))
            (ResourceVersion (tr_ObjectMeta trigger)) w').2
       = (Ok snapshot,
          (frr.delete (Namespace (tr_ObjectMeta trigger))
             (Name (tr_ObjectMeta trigger))
             (ResourceVersion (tr_ObjectMeta trigger)) w').2) ∧
       snapshot !! nfr_of trigger = None).
Proof.
  intros Hreach Hrun. split.
  - eexists. split; [reflexivity|]. rewrite cache_Copy_lookup.
    by apply (resolve_ok_live P funcInformer now it trigger w).
  - intros now'. eexists. split; [reflexivity|]. rewrite cache_Copy_lookup.
    apply cache_Get_Delete.
Qed.

Lemma snapshot_follows_resolve_and_delete_witness :
  ∃ rr w' snapshot,
    frr.resolve scenario_store 0 [] scenario_t1 makeFunctionReferenceResolver
      = (Ok rr, w') ∧
    frr.copy 0 w' = (Ok snapshot, w') ∧
    snapshot !! nfr_of scenario_t1 = Some rr.
Proof.
  destruct (frr.resolve scenario_store 0 [] scenario_t1
              makeFunctionReferenceResolver) as [[rr|e] w'] eqn:Hrun;
    [|vm_compute in Hrun; discriminate Hrun].
  destruct (proj1 (snapshot_follows_resolve_and_delete (λ _, True)
                     scenario_store 0 [] scenario_t1
                     makeFunctionReferenceResolver rr w' (reach_make _) Hrun))
    as (snapshot & Hcopy & Hsnap).
  exists rr, w', snapshot. split; [reflexivity|]. split; [exact Hcopy|exact Hsnap].
Defined.

(** X13: a resolver made by [makeFunctionReferenceResolver] keeps what it
    resolves for a minute.  A result cached on a miss at time [now] is
    returned as it is, with the world unchanged, by every [resolve] of
    the same trigger made less than [time.Minute] after [now]; more than
    [time.Minute] after [now] the cache no longer gives it. *)
Theorem resolve_cached_for_a_minute P funcInformer now it trigger w rr w1 :
  reachable P w →
  cache.Get (refCache w) now (nfr_of trigger) = None →
  frr.resolve funcInformer now it trigger w = (Ok rr, w1) →
  (∀ funcInformer' it' now',
     now' - now < time_Minute →
     frr.resolve funcInformer' now' it' trigger w1 = (Ok rr, w1)) ∧
  (∀ now',
     time_Minute < now' - now →
     cache.Get (refCache w1) now' (nfr_of trigger) = None).
Proof.
  intros Hreach Hget Hrun.
  destruct (resolve_miss_entry _ _ _ _ _ _ _ Hget Hrun) as [He Httl].
  rewrite (reachable_ctimeExpiry _ _ Hreach) in Httl.
  split.
  - intros inf' it' now' Hnow. apply resolve_hit, cache_Get_Some.
    eexists. split; [exact He|]. split; [done|]. by rewrite Httl.
  - intros now' Hnow. apply cache_Get_None. intros e. rewrite He, Httl.
    intros [= <-]. simpl. lia.
Qed.

Lemma resolve_cached_for_a_minute_witness :
  ∃ rr w1,
    frr.resolve scenario_store 0 [] scenario_t1 makeFunctionReferenceResolver
      = (Ok rr, w1) ∧
    frr.resolve (informers_of []) 59999999999 [] scenario_t1 w1 = (Ok rr, w1) ∧
    cache.Get (refCache w1) 60000000001 (nfr_of scenario_t1) = None.
Proof.
  destruct (frr.resolve scenario_store 0 [] scenario_t1
              makeFunctionReferenceResolver) as [[rr|e] w1] eqn:Hrun;
    [|vm_compute in Hrun; discriminate Hrun].
  destruct (resolve_cached_for_a_minute (λ _, True) scenario_store 0 []
              scenario_t1 makeFunctionReferenceResolver rr w1 (reach_make _)
              eq_refl Hrun) as [Hhit Hgone].
  exists rr, w1. split; [reflexivity|]. split.
  - apply Hhit. reflexivity.
  - apply Hgone. reflexivity.
Defined.

(** * The command that creates a message queue trigger *)

Lemma int32_nonneg x : 0 ≤ mqtrigger.int32 x ↔ x `mod` 2 ^ 32 < 2 ^ 31.
Proof.
  unfold mqtrigger.int32.
  pose proof (Z.mod_pos_bound x (2 ^ 32)) as Hx.
  pose proof (Z.mod_pos_bound (x + 2 ^ 31) (2 ^ 32)) as Hy.
  assert ((x + 2 ^ 31) `mod` 2 ^ 32
          = if decide (x `mod` 2 ^ 32 < 2 ^ 31)
            then x `mod` 2 ^ 32 + 2 ^ 31
            else x `mod` 2 ^ 32 - 2 ^ 31) as Heq.
  { rewrite <- Zplus_mod_idemp_l. case_decide.
    - apply Z.mod_small. lia.
    - replace (x `mod` 2 ^ 32 + 2 ^ 31)
        with (x `mod` 2 ^ 32 - 2 ^ 31 + 1 * 2 ^ 32) by lia.
      rewrite Z_mod_plus_full. apply Z.mod_small. lia. }
  rewrite Heq. case_decide; lia.
Qed.

Lemma int32_mod x :
  x `mod` 2 ^ 32 < 2 ^ 31 → mqtrigger.int32 x = x `mod` 2 ^ 32.
Proof.
  intros Hlt. unfold mqtrigger.int32.
  pose proof (Z.mod_pos_bound x (2 ^ 32)) as Hx.
  rewrite <- Zplus_mod_idemp_l. rewrite Z.mod_small; lia.
Qed.

Lemma string_length_0 (t : string) : (String.length t =? 0)%nat = true ↔ t = ""%string.
Proof. destruct t; simpl; split; done. Qed.

(** X14: [checkMQTopicAvailability] skips the empty topics and reports the
    first topic that is not empty and not valid for the queue type and
    kind: it returns no error exactly when every topic is empty or valid,
    and the error it returns names the queue type and the first offending
    topic, all topics before it being empty or valid. *)
Theorem checkMQTopicAvailability_first_invalid env mqType mqtKind topics :
  match mqtrigger.checkMQTopicAvailability env mqType mqtKind topics with
  | None =>
      Forall (λ t, t = ""%string ∨
                   mqtrigger.IsValidTopic env mqType t mqtKind = true) topics
  | Some e =>
      ∃ pre t post,
        topics = pre ++ t :: post ∧
        Forall (λ t', t' = ""%string ∨
                      mqtrigger.IsValidTopic env mqType t' mqtKind = true)
          pre ∧
        t ≠ ""%string ∧
        mqtrigger.IsValidTopic env mqType t mqtKind = false ∧
        e = mqtrigger.fmt_Errorf
              ("invalid topic for " +:+ mqType +:+ ": " +:+ t)
  end.
Proof.
  induction topics as [|t topics IH]; simpl; [done|].
  destruct (0 <? String.length t)%nat eqn:Hlen; simpl.
  - destruct (mqtrigger.IsValidTopic env mqType t mqtKind) eqn:Hvalid; simpl.
    + destruct (mqtrigger.checkMQTopicAvailability env mqType mqtKind topics)
        as [e|].
      * destruct IH as (pre & t' & post & -> & Hpre & Ht' & Hinv & ->).
        exists (t :: pre), t', post. split; [done|].
        split; [constructor; [by right|done]|]. done.
      * constructor; [by right|done].
    + exists [], t, topics. split; [done|]. split; [constructor|].
      split; [|done]. intros ->. done.
  - assert (t = ""%string) as ->.
    { apply string_length_0. apply Nat.ltb_ge in Hlen.
      apply Nat.eqb_eq. lia. }
    destruct (mqtrigger.checkMQTopicAvailability env mqType mqtKind topics)
      as [e|].
    + destruct IH as (pre & t' & post & -> & Hpre & Ht' & Hinv & ->).
      exists (""%string :: pre), t', post. split; [done|].
      split; [constructor; [by left|done]|]. done.
    + constructor; [by left|done].
Qed.

(** What a success of [complete] has gone through. *)
Lemma complete_ok_inv key env input t log :
  mqtrigger.complete key env input = (mqtrigger.ok t, log) →
  let name := mqtrigger.input_String input (mqtrigger.MqtName key) in
  let mqtName :=
    if (String.length name =? 0)%nat then mqtrigger.uuid_NewString env
    else name in
  let fnName := mqtrigger.input_String input (mqtrigger.MqtFnName key) in
  let mqtKind := mqtrigger.input_String input (mqtrigger.MqtKind key) in
  let mqType := mqtrigger.input_String input (mqtrigger.MqtMQType key) in
  let topic := mqtrigger.input_String input (mqtrigger.MqtTopic key) in
  let respTopic := mqtrigger.input_String input (mqtrigger.MqtRespTopic key) in
  let contentType :=
    mqtrigger.input_String input (mqtrigger.MqtMsgContentType key) in
  ∃ userProvidedNS fnNamespace did,
    mqtrigger.GetResourceNamespace env input (mqtrigger.NamespaceFunction key)
      = mqtrigger.ok (userProvidedNS, fnNamespace) ∧
    mqtrigger.IsValidMessageQueue env mqType mqtKind = true ∧
    topic ≠ ""%string ∧
    topic ≠ respTopic ∧
    0 ≤ mqtrigger.input_Int input (mqtrigger.MqtMaxRetries key) ∧
    mqtrigger.checkMQTopicAvailability env mqType mqtKind [topic; respTopic]
      = None ∧
    0 ≤ mqtrigger.int32
          (mqtrigger.input_Int input (mqtrigger.MqtPollingInterval key)) ∧
    0 ≤ mqtrigger.int32
          (mqtrigger.input_Int input (mqtrigger.MqtCooldownPeriod key)) ∧
    0 ≤ mqtrigger.int32
          (mqtrigger.input_Int input (mqtrigger.MqtMinReplicaCount key)) ∧
    0 ≤ mqtrigger.int32
          (mqtrigger.input_Int input (mqtrigger.MqtMaxReplicaCount key)) ∧
    mqtrigger.check_function key env input mqtName fnName userProvidedNS
      fnNamespace = (None, did) ∧
    (∃ warned, log = warned ++ did ∧
       ∀ names ns, mqtrigger.call_CheckFunctionExistence names ns ∉ warned) ∧
    t = {| mqtrigger.mqt_ObjectMeta :=
             {| Namespace :=
                  if mqtrigger.input_Bool input (mqtrigger.SpecSave key)
                     || mqtrigger.input_Bool input (mqtrigger.SpecDry key)
                  then userProvidedNS else fnNamespace;
                Name := mqtName; ResourceVersion := "" |};
           mqtrigger.mqt_FunctionReference :=
             {| fr_Type := FunctionReferenceTypeFunctionName;
                fr_Name := fnName; fr_FunctionWeights := ∅ |};
           mqtrigger.MessageQueueType := mqType;
           mqtrigger.Topic := topic;
           mqtrigger.ResponseTopic := respTopic;
           mqtrigger.ErrorTopic :=
             mqtrigger.input_String input (mqtrigger.MqtErrorTopic key);
           mqtrigger.MaxRetries :=
             mqtrigger.input_Int input (mqtrigger.MqtMaxRetries key);
           mqtrigger.ContentType :=
             if (String.length contentType =? 0)%nat
             then "application/json"%string else contentType;
           mqtrigger.PollingInterval :=
             mqtrigger.int32
               (mqtrigger.input_Int input (mqtrigger.MqtPollingInterval key));
           mqtrigger.CooldownPeriod :=
             mqtrigger.int32
               (mqtrigger.input_Int input (mqtrigger.MqtCooldownPeriod key));
           mqtrigger.MinReplicaCount :=
             mqtrigger.int32
               (mqtrigger.input_Int input (mqtrigger.MqtMinReplicaCount key));
           mqtrigger.MaxReplicaCount :=
             mqtrigger.int32
               (mqtrigger.input_Int input (mqtrigger.MqtMaxReplicaCount key));
           mqtrigger.Metadata :=
             mqtrigger.UpdateMapFromStringSlice env ∅
               (mqtrigger.input_StringSlice input (mqtrigger.MqtMetadata key));
           mqtrigger.Secret :=
             mqtrigger.input_String input (mqtrigger.MqtSecret key);
           mqtrigger.mqt_MqtKind := mqtKind |}.
Proof.
  cbv zeta. unfold mqtrigger.complete.
  remember (mqtrigger.checkMQTopicAvailability env _ _ _) as chk eqn:Hchk.
  destruct (String.length (mqtrigger.input_String input (mqtrigger.MqtName key))
            =? 0)%nat eqn:Hname;
    (destruct (mqtrigger.GetResourceNamespace env input _)
       as [[userProvidedNS fnNamespace]|err] eqn:Hns; [|done]);
    (destruct (mqtrigger.IsValidMessageQueue env _ _) eqn:Hmq; [|done]);
    cbn [negb];
    (destruct (String.length
                 (mqtrigger.input_String input (mqtrigger.MqtTopic key))
               =? 0)%nat eqn:Htopic; [done|]);
    (case_bool_decide as Hresp; [done|]);
    (destruct (mqtrigger.input_Int input (mqtrigger.MqtMaxRetries key) <? 0)
       eqn:Hretries; [done|]);
    (destruct chk as [e|]; [done|]);
    (destruct (mqtrigger.int32 (mqtrigger.input_Int input
                                  (mqtrigger.MqtPollingInterval key)) <? 0)
       eqn:Hpoll; [done|]);
    (destruct (mqtrigger.int32 (mqtrigger.input_Int input
                                  (mqtrigger.MqtCooldownPeriod key)) <? 0)
       eqn:Hcool; [done|]);
    (destruct (mqtrigger.int32 (mqtrigger.input_Int input
                                  (mqtrigger.MqtMinReplicaCount key)) <? 0)
       eqn:Hmin; [done|]);
    (destruct (mqtrigger.int32 (mqtrigger.input_Int input
                                  (mqtrigger.MqtMaxReplicaCount key)) <? 0)
       eqn:Hmax; [done|]);
    apply Z.ltb_ge in Hretries, Hpoll, Hcool, Hmin, Hmax;
    (assert (mqtrigger.input_String input (mqtrigger.MqtTopic key) ≠ ""%string)
       as Hne by (intros Heq; apply string_length_0 in Heq; congruence));
    (destruct (mqtrigger.check_function key env input _ _ _ _)
       as [[err|] did] eqn:Hfn; [done|]);
    intros [= <- <-];
    exists userProvidedNS, fnNamespace, did;
    repeat (split; [done|]);
    (split; [|by destruct (_ || _)]).
  - eexists [_]. split; [reflexivity|]. intros names ns Hin.
    apply list_elem_of_singleton in Hin. discriminate Hin.
  - exists []. split; [reflexivity|]. intros names ns Hin.
    by apply elem_of_nil in Hin.
Qed.

Lemma checkMQTopicAvailability_None env mqType mqtKind topics :
  mqtrigger.checkMQTopicAvailability env mqType mqtKind topics = None →
  Forall (λ t, t = ""%string ∨
               mqtrigger.IsValidTopic env mqType t mqtKind = true) topics.
Proof.
  induction topics as [|t topics IH]; simpl; [done|].
  destruct (0 <? String.length t)%nat eqn:Hlen; simpl.
  - destruct (mqtrigger.IsValidTopic env mqType t mqtKind) eqn:Hvalid;
      simpl; [|done].
    intros Hrest. constructor; [by right|by apply IH].
  - intros Hrest. constructor; [|by apply IH]. left.
    apply string_length_0. apply Nat.ltb_ge in Hlen. apply Nat.eqb_eq. lia.
Qed.

(** What [complete] leaves on its trace, however it ends: warnings only,
    followed, when it got as far, by the trace of its check that the
    function exists. *)
Lemma complete_log key env input r log :
  mqtrigger.complete key env input = (r, log) →
  ∃ warned,
    Forall (λ e, ∃ msg, e = mqtrigger.console_Warn msg) warned ∧
    (log = warned ∨
     ∃ mqtName userProvidedNS fnNamespace,
       mqtrigger.GetResourceNamespace env input
         (mqtrigger.NamespaceFunction key)
         = mqtrigger.ok (userProvidedNS, fnNamespace) ∧
       log = warned ++
             (mqtrigger.check_function key env input mqtName
                (mqtrigger.input_String input (mqtrigger.MqtFnName key))
                userProvidedNS fnNamespace).2).
Proof.
  unfold mqtrigger.complete.
  remember (mqtrigger.checkMQTopicAvailability env _ _ _) as chk eqn:Hchk.
  assert (∀ (warned : list mqtrigger.effect) e,
            Forall (λ e, ∃ msg, e = mqtrigger.console_Warn msg) warned →
            (mqtrigger.failed e, warned) = (r, log) →
            ∃ warned,
              Forall (λ e, ∃ msg, e = mqtrigger.console_Warn msg) warned ∧
              (log = warned ∨
               ∃ mqtName userProvidedNS fnNamespace,
                 mqtrigger.GetResourceNamespace env input
                   (mqtrigger.NamespaceFunction key)
                   = mqtrigger.ok (userProvidedNS, fnNamespace) ∧
                 log = warned ++
                       (mqtrigger.check_function key env input mqtName
                          (mqtrigger.input_String input
                             (mqtrigger.MqtFnName key))
                          userProvidedNS fnNamespace).2)) as Hfail.
  { intros warned e Hw [= <- <-]. exists warned. split; [done|by left]. }
  destruct (String.length (mqtrigger.input_String input (mqtrigger.MqtName key))
            =? 0)%nat eqn:Hname;
    (destruct (mqtrigger.GetResourceNamespace env input _)
       as [[userProvidedNS fnNamespace]|err] eqn:Hns;
       [|apply Hfail; repeat constructor; by eexists]);
    (destruct (mqtrigger.IsValidMessageQueue env _ _) eqn:Hmq;
       [|apply Hfail; repeat constructor; by eexists]);
    cbn [negb];
    (destruct (String.length
                 (mqtrigger.input_String input (mqtrigger.MqtTopic key))
               =? 0)%nat eqn:Htopic;
       [apply Hfail; repeat constructor; by eexists|]);
    (case_bool_decide as Hresp;
       [apply Hfail; repeat constructor; by eexists|]);
    (destruct (mqtrigger.input_Int input (mqtrigger.MqtMaxRetries key) <? 0)
       eqn:Hretries; [apply Hfail; repeat constructor; by eexists|]);
    (destruct chk as [e|]; [apply Hfail; repeat constructor; by eexists|]);
    (destruct (mqtrigger.int32 (mqtrigger.input_Int input
                                  (mqtrigger.MqtPollingInterval key)) <? 0)
       eqn:Hpoll; [apply Hfail; repeat constructor; by eexists|]);
    (destruct (mqtrigger.int32 (mqtrigger.input_Int input
                                  (mqtrigger.MqtCooldownPeriod key)) <? 0)
       eqn:Hcool; [apply Hfail; repeat constructor; by eexists|]);
    (destruct (mqtrigger.int32 (mqtrigger.input_Int input
                                  (mqtrigger.MqtMinReplicaCount key)) <? 0)
       eqn:Hmin; [apply Hfail; repeat constructor; by eexists|]);
    (destruct (mqtrigger.int32 (mqtrigger.input_Int input
                                  (mqtrigger.MqtMaxReplicaCount key)) <? 0)
       eqn:Hmax; [apply Hfail; repeat constructor; by eexists|]);
    (destruct (mqtrigger.check_function key env input _ _ _ _)
       as [[err|] did] eqn:Hfn); intros [= <- <-].
  1,2: eexists [_]; (split; [repeat constructor; by eexists|]); right;
    eexists _, userProvidedNS, fnNamespace; (split; [done|]);
    by rewrite Hfn.
  1,2: exists []; (split; [constructor|]); right;
    eexists _, userProvidedNS, fnNamespace; (split; [done|]);
    by rewrite Hfn.
Qed.

(** X15: when [complete] succeeds, the trigger it has built passed every
    check on the way: its topic is the one given, is not empty and differs
    from the response topic; the queue type is valid for the kind; the
    topic, and the response topic unless empty, are valid for the queue
    type and kind; the number of retries is not negative; the content type
    is not empty, "application/json" standing in for an empty one; the
    function reference is by name, to the function given; and the name is
    the one given, or the generated one when none was given. *)
Theorem complete_builds_checked_trigger key env input t log :
  mqtrigger.complete key env input = (mqtrigger.ok t, log) →
  mqtrigger.Topic t = mqtrigger.input_String input (mqtrigger.MqtTopic key) ∧
  mqtrigger.Topic t ≠ ""%string ∧
  mqtrigger.Topic t ≠ mqtrigger.ResponseTopic t ∧
  mqtrigger.IsValidMessageQueue env (mqtrigger.MessageQueueType t)
    (mqtrigger.mqt_MqtKind t) = true ∧
  mqtrigger.IsValidTopic env (mqtrigger.MessageQueueType t)
    (mqtrigger.Topic t) (mqtrigger.mqt_MqtKind t) = true ∧
  (mqtrigger.ResponseTopic t = ""%string ∨
   mqtrigger.IsValidTopic env (mqtrigger.MessageQueueType t)
     (mqtrigger.ResponseTopic t) (mqtrigger.mqt_MqtKind t) = true) ∧
  0 ≤ mqtrigger.MaxRetries t ∧
  mqtrigger.ContentType t ≠ ""%string ∧
  (mqtrigger.input_String input (mqtrigger.MqtMsgContentType key) = ""%string →
   mqtrigger.ContentType t = "application/json"%string) ∧
  mqtrigger.mqt_FunctionReference t =
    {| fr_Type := FunctionReferenceTypeFunctionName;
       fr_Name := mqtrigger.input_String input (mqtrigger.MqtFnName key);
       fr_FunctionWeights := ∅ |} ∧
  Name (mqtrigger.mqt_ObjectMeta t) =
    (if bool_decide
          (mqtrigger.input_String input (mqtrigger.MqtName key) = ""%string)
     then mqtrigger.uuid_NewString env
     else mqtrigger.input_String input (mqtrigger.MqtName key)).
Proof.
  intros Hrun. apply complete_ok_inv in Hrun. cbv zeta in Hrun.
  destruct Hrun as (uns & ns & did & _ & Hmq & Hne & Hresp & Hretries & Hchk
                    & _ & _ & _ & _ & _ & _ & ->). simpl.
  apply checkMQTopicAvailability_None in Hchk.
  apply Forall_cons in Hchk as [Htopic Hrest].
  apply Forall_cons in Hrest as [Hresptopic _].
  split; [done|]. split; [done|]. split; [done|]. split; [done|].
  split; [by destruct Htopic|]. split; [done|]. split; [done|].
  split; [|split; [|split; [done|]]].
  - destruct (String.length _ =? 0)%nat eqn:Hlen; [done|].
    intros Heq. apply string_length_0 in Heq. congruence.
  - intros ->. done.
  - case_bool_decide as Hname.
    + by rewrite (proj2 (string_length_0 _) Hname).
    + destruct (String.length _ =? 0)%nat eqn:Hlen; [|done].
      by apply string_length_0 in Hlen.
Qed.

Lemma complete_builds_checked_trigger_witness :
  ∃ t log,
    mqtrigger.complete example_keys example_collaborators example_run
      = (mqtrigger.ok t, log) ∧
    mqtrigger.Topic t = "in"%string ∧
    mqtrigger.ContentType t = "application/json"%string.
Proof.
  destruct (mqtrigger.complete example_keys example_collaborators example_run)
    as [[t|e] log] eqn:Hrun; [|vm_compute in Hrun; discriminate Hrun].
  exists t, log. split; [reflexivity|].
  destruct (complete_builds_checked_trigger _ _ _ _ _ Hrun)
    as (Htopic & _ & _ & _ & _ & _ & _ & _ & Hct & _).
  split; [exact Htopic|]. apply Hct. reflexivity.
Defined.

(** X16: the polling interval, the cooldown period and the two replica
    counts are converted to [int32] before they are checked, so they are
    not checked for their range: when [complete] succeeds, each of these
    fields holds the value of its flag modulo 2^32, and that is less than
    2^31.  A value such as -4294967295 is therefore accepted, as 1. *)
Theorem complete_converts_before_checking key env input t log :
  mqtrigger.complete key env input = (mqtrigger.ok t, log) →
  let stored (field : Z) (flag : string) :=
    field = mqtrigger.input_Int input flag `mod` 2 ^ 32 ∧
    0 ≤ field < 2 ^ 31 in
  stored (mqtrigger.PollingInterval t) (mqtrigger.MqtPollingInterval key) ∧
  stored (mqtrigger.CooldownPeriod t) (mqtrigger.MqtCooldownPeriod key) ∧
  stored (mqtrigger.MinReplicaCount t) (mqtrigger.MqtMinReplicaCount key) ∧
  stored (mqtrigger.MaxReplicaCount t) (mqtrigger.MqtMaxReplicaCount key) ∧
  mqtrigger.MaxRetries t
    = mqtrigger.input_Int input (mqtrigger.MqtMaxRetries key).
Proof.
  intros Hrun. apply complete_ok_inv in Hrun. cbv zeta in Hrun.
  destruct Hrun as (uns & ns & did & _ & _ & _ & _ & _ & _
                    & Hpoll & Hcool & Hmin & Hmax & _ & _ & ->).
  cbv zeta. simpl.
  apply int32_nonneg in Hpoll, Hcool, Hmin, Hmax.
  rewrite !int32_mod by done.
  pose proof (Z.mod_pos_bound
                (mqtrigger.input_Int input (mqtrigger.MqtPollingInterval key))
                (2 ^ 32)).
  pose proof (Z.mod_pos_bound
                (mqtrigger.input_Int input (mqtrigger.MqtCooldownPeriod key))
                (2 ^ 32)).
  pose proof (Z.mod_pos_bound
                (mqtrigger.input_Int input (mqtrigger.MqtMinReplicaCount key))
                (2 ^ 32)).
  pose proof (Z.mod_pos_bound
                (mqtrigger.input_Int input (mqtrigger.MqtMaxReplicaCount key))
                (2 ^ 32)).
  repeat split; try done; lia.
Qed.

Lemma complete_converts_before_checking_witness :
  ∃ t log,
    mqtrigger.complete example_keys example_collaborators example_run
      = (mqtrigger.ok t, log) ∧
    mqtrigger.input_Int example_run "pollinginterval" = -4294967295 ∧
    mqtrigger.PollingInterval t = 1.
Proof.
  destruct (mqtrigger.complete example_keys example_collaborators example_run)
    as [[t|e] log] eqn:Hrun; [|vm_compute in Hrun; discriminate Hrun].
  exists t, log. split; [reflexivity|]. split; [reflexivity|].
  destruct (complete_converts_before_checking _ _ _ _ _ Hrun)
    as ((Hpoll & _) & _).
  rewrite Hpoll. reflexivity.
Defined.

Lemma check_function_effects key env input mqtName fnName uns ns :
  (mqtrigger.input_Bool input (mqtrigger.SpecSave key) = true →
   ∀ names ns',
     mqtrigger.call_CheckFunctionExistence names ns'
       ∉ (mqtrigger.check_function key env input mqtName fnName uns ns).2) ∧
  (mqtrigger.input_Bool input (mqtrigger.SpecSave key) = false →
   mqtrigger.check_function key env input mqtName fnName uns ns
     = (mqtrigger.CheckFunctionExistence env [fnName] ns,
        [mqtrigger.call_CheckFunctionExistence [fnName] ns])).
Proof.
  unfold mqtrigger.check_function.
  destruct (mqtrigger.input_Bool input (mqtrigger.SpecSave key));
    (split; [|done]); [|done].
  intros _ names ns'.
  destruct (mqtrigger.ReadSpecs env _ _ _) as [E|err]; simpl.
  2:{ intros Hin%list_elem_of_singleton. discriminate Hin. }
  destruct (E _) as [[]|err]; simpl;
    rewrite ?elem_of_cons, ?elem_of_nil; intros Hin;
    repeat destruct Hin as [Hin|Hin]; try done.
Qed.

(** X17: [complete] asks the cluster whether the function exists only
    when the spec is not to be saved, a dry run included: it then never
    reads the spec files, and it succeeds only after asking the cluster,
    in the function's namespace, and hearing that the function exists.
    When the spec is to be saved it never asks the cluster, whatever
    happens. *)
Theorem complete_checks_function key env input r log :
  mqtrigger.complete key env input = (r, log) →
  (mqtrigger.input_Bool input (mqtrigger.SpecSave key) = true →
   ∀ names ns, mqtrigger.call_CheckFunctionExistence names ns ∉ log) ∧
  (mqtrigger.input_Bool input (mqtrigger.SpecSave key) = false →
   (∀ specDir specIgnore, mqtrigger.call_ReadSpecs specDir specIgnore ∉ log) ∧
   ∀ t, r = mqtrigger.ok t →
     ∃ userProvidedNS fnNamespace,
       mqtrigger.GetResourceNamespace env input
         (mqtrigger.NamespaceFunction key)
         = mqtrigger.ok (userProvidedNS, fnNamespace) ∧
       mqtrigger.CheckFunctionExistence env
         [mqtrigger.input_String input (mqtrigger.MqtFnName key)] fnNamespace
         = None ∧
       mqtrigger.call_CheckFunctionExistence
         [mqtrigger.input_String input (mqtrigger.MqtFnName key)] fnNamespace
         ∈ log).
Proof.
  intros Hrun. split.
  - intros Hsave names ns.
    destruct (complete_log _ _ _ _ _ Hrun)
      as (warned & Hw & [->|(mqtName & uns & fns & _ & ->)]);
      rewrite ?elem_of_app; rewrite Forall_forall in Hw.
    + intros [msg Hmsg]%Hw. discriminate Hmsg.
    + intros [[msg Hmsg]%Hw|Hin]; [discriminate Hmsg|].
      by apply (proj1 (check_function_effects _ _ _ _ _ _ _) Hsave) in Hin.
  - intros Hsave. split.
    + intros specDir specIgnore.
      destruct (complete_log _ _ _ _ _ Hrun)
        as (warned & Hw & [->|(mqtName & uns & fns & _ & ->)]);
        rewrite ?elem_of_app; rewrite Forall_forall in Hw.
      * intros [msg Hmsg]%Hw. discriminate Hmsg.
      * rewrite (proj2 (check_function_effects _ _ _ _ _ _ _) Hsave). simpl.
        intros [[msg Hmsg]%Hw|Hin%list_elem_of_singleton];
          [discriminate Hmsg|discriminate Hin].
    + intros t ->. apply complete_ok_inv in Hrun. cbv zeta in Hrun.
      destruct Hrun as (uns & ns & did & Hns & _ & _ & _ & _ & _
                        & _ & _ & _ & _ & Hfn & (warned & -> & _) & _).
      rewrite (proj2 (check_function_effects _ _ _ _ _ _ _) Hsave) in Hfn.
      injection Hfn as Hcheck <-.
      exists uns, ns. split; [done|]. split; [done|].
      apply elem_of_app. right. apply list_elem_of_here.
Qed.

Lemma complete_checks_function_witness :
  ∃ t log,
    mqtrigger.complete example_keys example_collaborators example_run
      = (mqtrigger.ok t, log) ∧
    mqtrigger.input_Bool example_run "dry" = true ∧
    mqtrigger.call_CheckFunctionExistence ["f1"%string] "default" ∈ log.
Proof.
  destruct (mqtrigger.complete example_keys example_collaborators example_run)
    as [[t|e] log] eqn:Hrun; [|vm_compute in Hrun; discriminate Hrun].
  exists t, log. split; [reflexivity|]. split; [reflexivity|].
  destruct (proj2 (complete_checks_function _ _ _ _ _ Hrun) eq_refl)
    as [_ Hok].
  destruct (Hok t eq_refl) as (uns & ns & Hns & _ & Hin).
  injection Hns as <- <-. exact Hin.
Defined.

(** [complete] only reads: it warns, reads the spec files and asks the
    cluster, and calls none of what prints the spec, saves it or creates
    the trigger. *)
Lemma complete_reads_only key env input r log :
  mqtrigger.complete key env input = (r, log) →
  Forall mqtrigger.reads_only log.
Proof.
  intros Hrun.
  destruct (complete_log _ _ _ _ _ Hrun) as (warned & Hw & Hlog).
  assert (Forall mqtrigger.reads_only warned) as Hw'.
  { eapply Forall_impl; [exact Hw|]. by intros e [msg ->]. }
  destruct Hlog as [->|(mqtName & uns & ns & _ & ->)]; [done|].
  apply Forall_app. split; [done|].
  unfold mqtrigger.check_function.
  destruct (mqtrigger.input_Bool input (mqtrigger.SpecSave key)).
  - destruct (mqtrigger.ReadSpecs env _ _ _) as [E|err]; simpl.
    2:{ by repeat constructor. }
    destruct (E _) as [[]|err]; simpl; by repeat constructor.
  - simpl. by repeat constructor.
Qed.

(** X18: what [do] writes. The trigger is created in the cluster only when
    neither a dry run nor saving the spec is asked for, and then it is the
    trigger that [complete] built, created in its own namespace, the one
    where the cluster was asked for the function before. The spec is saved
    only when saving is asked for and a dry run is not, to the file named
    after the trigger; it is printed only on a dry run. [do] succeeds only
    when [complete] did and one of the three was called without an error,
    and it prints that the trigger is created only after the cluster took
    it. *)
Theorem do_writes_what_complete_built key env out input r log :
  mqtrigger.do_ key env out input = (r, log) →
  (∀ ns t, mqtrigger.call_Create ns t ∈ log →
     mqtrigger.input_Bool input (mqtrigger.SpecDry key) = false ∧
     mqtrigger.input_Bool input (mqtrigger.SpecSave key) = false ∧
     (∃ log0, mqtrigger.complete key env input = (mqtrigger.ok t, log0)) ∧
     ns = fv1.Namespace (mqtrigger.mqt_ObjectMeta t) ∧
     mqtrigger.call_CheckFunctionExistence
       [mqtrigger.input_String input (mqtrigger.MqtFnName key)] ns ∈ log) ∧
  (∀ t specFile, mqtrigger.call_SpecSave t specFile ∈ log →
     mqtrigger.input_Bool input (mqtrigger.SpecDry key) = false ∧
     mqtrigger.input_Bool input (mqtrigger.SpecSave key) = true ∧
     (∃ log0, mqtrigger.complete key env input = (mqtrigger.ok t, log0)) ∧
     specFile = "mqtrigger-" +:+ fv1.Name (mqtrigger.mqt_ObjectMeta t)
                +:+ ".yaml") ∧
  (∀ t, mqtrigger.call_SpecDry t ∈ log →
     mqtrigger.input_Bool input (mqtrigger.SpecDry key) = true ∧
     ∃ log0, mqtrigger.complete key env input = (mqtrigger.ok t, log0)) ∧
  (r = None →
   ∃ t log0,
     mqtrigger.complete key env input = (mqtrigger.ok t, log0) ∧
     (mqtrigger.spec_SpecDry out t = None
      ∧ log = log0 ++ [mqtrigger.call_SpecDry t] ∨
      (∃ specFile,
         mqtrigger.spec_SpecSave out t specFile false = None
         ∧ log = log0 ++ [mqtrigger.call_SpecSave t specFile]) ∨
      (∃ ns msg,
         mqtrigger.client_Create out ns t = None
         ∧ log = log0 ++ [mqtrigger.call_Create ns t;
                          mqtrigger.fmt_Printf msg]))) ∧
  (∀ msg, mqtrigger.fmt_Printf msg ∈ log →
     r = None ∧
     ∃ ns t, mqtrigger.client_Create out ns t = None ∧
             mqtrigger.call_Create ns t ∈ log).
Proof.
  unfold mqtrigger.do_.
  destruct (mqtrigger.complete key env input) as [[t|err] log0] eqn:Hc.
  2:{ intros [= <- <-].
      pose proof (complete_reads_only _ _ _ _ _ Hc) as Hro.
      rewrite Forall_forall in Hro.
      repeat split; try (intros; exfalso; by eapply (Hro _ ltac:(eassumption))).
      all: try done.
      all: intros; exfalso; by eapply (Hro _ ltac:(eassumption)). }
  pose proof (complete_reads_only _ _ _ _ _ Hc) as Hro.
  rewrite Forall_forall in Hro.
  assert (∀ e, e ∈ log0 → mqtrigger.reads_only e) as Hro' by exact Hro.
  destruct (mqtrigger.run key out input t) as [r1 log1] eqn:Hr.
  intros [= <- <-].
  unfold mqtrigger.run in Hr.
  destruct (mqtrigger.input_Bool input (mqtrigger.SpecDry key)) eqn:Hdry.
  { injection Hr as <- <-.
    split; [|split; [|split; [|split]]].
    - intros ns t' [Hin|Hin%list_elem_of_singleton]%elem_of_app;
        [by apply Hro' in Hin|discriminate Hin].
    - intros t' f [Hin|Hin%list_elem_of_singleton]%elem_of_app;
        [by apply Hro' in Hin|discriminate Hin].
    - intros t' [Hin|Hin%list_elem_of_singleton]%elem_of_app;
        [by apply Hro' in Hin|].
      injection Hin as ->. split; [done|by eexists].
    - intros Hnone. exists t, log0. split; [done|]. left. by split.
    - intros msg [Hin|Hin%list_elem_of_singleton]%elem_of_app;
        [by apply Hro' in Hin|discriminate Hin]. }
  destruct (mqtrigger.input_Bool input (mqtrigger.SpecSave key)) eqn:Hsave.
  { assert (∃ r', (r1 = None → r' = None) ∧
                  mqtrigger.spec_SpecSave out t
                    ("mqtrigger-" +:+ fv1.Name (mqtrigger.mqt_ObjectMeta t)
                     +:+ ".yaml") false = r' ∧
                  log1 = [mqtrigger.call_SpecSave t
                            ("mqtrigger-" +:+
                             fv1.Name (mqtrigger.mqt_ObjectMeta t)
                             +:+ ".yaml")]) as (r' & Hr' & Hs & ->).
    { destruct (mqtrigger.spec_SpecSave out t _ false) as [err|];
        injection Hr as <- <-; eexists; (split; [|split; reflexivity]); done. }
    split; [|split; [|split; [|split]]].
    - intros ns t' [Hin|Hin%list_elem_of_singleton]%elem_of_app;
        [by apply Hro' in Hin|discriminate Hin].
    - intros t' f [Hin|Hin%list_elem_of_singleton]%elem_of_app;
        [by apply Hro' in Hin|].
      injection Hin as -> ->. repeat split; try done. by eexists.
    - intros t' [Hin|Hin%list_elem_of_singleton]%elem_of_app;
        [by apply Hro' in Hin|discriminate Hin].
    - intros Hnone. exists t, log0. split; [done|]. right. left.
      eexists. split; [|reflexivity]. rewrite Hs. by apply Hr'.
    - intros msg [Hin|Hin%list_elem_of_singleton]%elem_of_app;
        [by apply Hro' in Hin|discriminate Hin]. }
  (* the cluster was asked for the function in the trigger's namespace *)
  assert (mqtrigger.call_CheckFunctionExistence
            [mqtrigger.input_String input (mqtrigger.MqtFnName key)]
            (fv1.Namespace (mqtrigger.mqt_ObjectMeta t)) ∈ log0) as Hasked.
  { destruct (complete_ok_inv _ _ _ _ _ Hc)
      as (uns & ns & did & _ & _ & _ & _ & _ & _ & _ & _ & _ & _ & Hcf
          & (warned & -> & _) & ->).
    rewrite Hsave, Hdry. simpl.
    rewrite (proj2 (check_function_effects _ _ _ _ _ _ _) Hsave) in Hcf.
    injection Hcf as _ <-.
    apply elem_of_app. right. by apply list_elem_of_singleton. }
  destruct (mqtrigger.client_Create out _ t) as [err|] eqn:Hcreate;
    injection Hr as <- <-.
  - split; [|split; [|split; [|split]]].
    + intros ns t' [Hin|Hin%list_elem_of_singleton]%elem_of_app;
        [by apply Hro' in Hin|].
      injection Hin as -> ->. repeat split; try done; [by eexists|].
      apply elem_of_app. by left.
    + intros t' f [Hin|Hin%list_elem_of_singleton]%elem_of_app;
        [by apply Hro' in Hin|discriminate Hin].
    + intros t' [Hin|Hin%list_elem_of_singleton]%elem_of_app;
        [by apply Hro' in Hin|discriminate Hin].
    + done.
    + intros msg [Hin|Hin%list_elem_of_singleton]%elem_of_app;
        [by apply Hro' in Hin|discriminate Hin].
  - split; [|split; [|split; [|split]]].
    + intros ns t' [Hin|Hin]%elem_of_app; [by apply Hro' in Hin|].
      apply elem_of_cons in Hin as [Hin|Hin%list_elem_of_singleton];
        [|discriminate Hin].
      injection Hin as -> ->. repeat split; try done; [by eexists|].
      apply elem_of_app. by left.
    + intros t' f [Hin|Hin]%elem_of_app; [by apply Hro' in Hin|].
      apply elem_of_cons in Hin as [Hin|Hin%list_elem_of_singleton];
        discriminate Hin.
    + intros t' [Hin|Hin]%elem_of_app; [by apply Hro' in Hin|].
      apply elem_of_cons in Hin as [Hin|Hin%list_elem_of_singleton];
        discriminate Hin.
    + intros _. exists t, log0. split; [done|]. right. right.
      eexists _, _. split; [exact Hcreate|reflexivity].
    + intros msg _. split; [done|].
      eexists _, t. split; [exact Hcreate|].
      apply elem_of_app. right. apply elem_of_cons. by left.
Qed.

Lemma do_writes_what_complete_built_witness :
  ∃ r log,
    mqtrigger.do_ example_keys example_collaborators example_writers
      example_create = (r, log) ∧
    r = None ∧
    ∃ t log0,
      mqtrigger.complete example_keys example_collaborators example_create
        = (mqtrigger.ok t, log0) ∧
      mqtrigger.call_Create "default" t ∈ log.
Proof.
  destruct (mqtrigger.do_ example_keys example_collaborators example_writers
              example_create) as [r log] eqn:Hrun.
  assert (r = None) as Hr by (vm_compute in Hrun; by injection Hrun).
  exists r, log. split; [reflexivity|]. split; [exact Hr|].
  destruct (do_writes_what_complete_built _ _ _ _ _ _ Hrun)
    as (Hcreate & _ & _ & Hok & _).
  destruct (Hok Hr) as (t & log0 & Hc & Hcase).
  exists t, log0. split; [exact Hc|].
  assert (∃ ns, mqtrigger.call_Create ns t ∈ log) as [ns Hin].
  { destruct Hcase as [[_ ->]|[(f & _ & ->)|(ns & msg & _ & ->)]].
    - exfalso. subst r. vm_compute in Hrun. vm_compute in Hc.
      injection Hc as <- <-. discriminate Hrun.
    - exfalso. subst r. vm_compute in Hrun. vm_compute in Hc.
      injection Hc as <- <-. discriminate Hrun.
    - exists ns. apply elem_of_app. right. apply elem_of_cons. by left. }
  destruct (Hcreate _ _ Hin) as (_ & _ & _ & Hns & _).
  assert (fv1.Namespace (mqtrigger.mqt_ObjectMeta t) = "default"%string)
    as Hdef.
  { vm_compute in Hc. by injection Hc as <- _. }
  rewrite Hdef in Hns. by subst ns.
Defined.
